(** * music-app-pwa: the player store, the playlist hook and the player hook

    A shallow embedding of
      - src/stores/audio-store.ts (the zustand store [useAudioStore]),
      - the helpers they import from [@/lib/audio-utils],
      - the playlist hook [usePlaylist],
      - src/hooks/use-audio-player.ts (the track-change effect of
        [useAudioPlayer]),
    and the properties of queue traversal, clamping, persistence, deletion,
    playlist reordering and export/import that hold of them.

    Conventions of the embedding.
      - [create((set, get) => ...)]: an action is a function from the store
        state to the next store state; [set(partial)] is a shallow merge, so
        fields that an action does not list are copied.
      - [Math.random()], [Date] and [generateId()] are inputs of the action
        that calls them.
      - Array indices and the [currentIndex] field are integers ([Z]); a
        JavaScript number used for time, volume or rate is a [JS.number]. *)

From Stdlib Require Import List String ZArith QArith Qround Qminmax Bool Lia
  Permutation Sorted Lqa.
Import ListNotations.

Local Open Scope Z_scope.

(* ------------------------------------------------------------------------- *)
(** ** JavaScript values *)

Module JS.

(** A JavaScript number as far as ordering is concerned: every finite double
    is a rational; [NaN] and the two infinities are kept apart.  (The two
    zeros are identified.) *)
Inductive number : Type :=
| NaN
| NegInf
| Fin (q : Q)
| PosInf.

Definition Qltb (a b : Q) : bool := negb (Qle_bool b a).

(** [x < y]; false as soon as one side is [NaN]. *)
Definition ltb (x y : number) : bool :=
  match x, y with
  | NaN, _ | _, NaN => false
  | NegInf, NegInf => false
  | NegInf, _ => true
  | Fin _, NegInf => false
  | Fin a, Fin b => Qltb a b
  | Fin _, PosInf => true
  | PosInf, _ => false
  end.

Definition is_nan (x : number) : bool :=
  match x with NaN => true | _ => false end.

(** [Math.max(x, y)]: [NaN] if either argument is, else the larger. *)
Definition Math_max (x y : number) : number :=
  if is_nan x || is_nan y then NaN
  else if ltb x y then y else x.

(** [Math.min(x, y)]: [NaN] if either argument is, else the smaller. *)
Definition Math_min (x y : number) : number :=
  if is_nan x || is_nan y then NaN
  else if ltb y x then y else x.

(** [x + y] on numbers, without the rounding of binary64. *)
Definition add (x y : number) : number :=
  match x, y with
  | NaN, _ | _, NaN => NaN
  | NegInf, PosInf | PosInf, NegInf => NaN
  | NegInf, _ | _, NegInf => NegInf
  | PosInf, _ | _, PosInf => PosInf
  | Fin a, Fin b => Fin (Qred (a + b))
  end.

(** A reference that may be [null] or [undefined], as [currentTrack] is. *)
Inductive ref (A : Type) : Type :=
| null
| undefined
| obj (a : A).
Arguments null {A}.
Arguments undefined {A}.
Arguments obj {A} a.

(** One key of [{ ...object, ...updates }]: the value [updates] has for
    it, if it has the key. *)
Definition over {A : Type} (old : A) (upd : option A) : A :=
  match upd with Some v => v | None => old end.

(** [arr[i]]: [None] stands for [undefined]. *)
Definition index {A : Type} (arr : list A) (i : Z) : option A :=
  if i <? 0 then None else nth_error arr (Z.to_nat i).

(** [arr[i]] stored as it is: an index outside the array gives
    [undefined]. *)
Definition at_index {A : Type} (arr : list A) (i : Z) : ref A :=
  match index arr i with
  | Some a => obj a
  | None => undefined
  end.

(** [arr[i] || null] (an object is always truthy). *)
Definition at_index_or_null {A : Type} (arr : list A) (i : Z) : ref A :=
  match index arr i with
  | Some a => obj a
  | None => null
  end.

Definition length {A : Type} (arr : list A) : Z := Z.of_nat (List.length arr).

(** [arr.filter((_, i) => p(i))] *)
Fixpoint filteri_from {A : Type} (p : Z -> bool) (i : Z) (arr : list A)
  : list A :=
  match arr with
  | [] => []
  | a :: rest =>
      if p i then a :: filteri_from p (i + 1) rest
      else filteri_from p (i + 1) rest
  end.

(** [Math.floor(Math.random() * n)], [u] being the value of
    [Math.random()]. *)
Definition random_index (u : Q) (n : Z) : Z := Qfloor (u * inject_Z n).

(** [arr.splice(start, deleteCount, ...items)] for integer arguments: the
    array after the call and the removed elements. *)
Definition splice {A : Type} (arr : list A) (start deleteCount : Z)
  (items : list A) : list A * list A :=
  let len := length arr in
  let actualStart :=
    if start <? 0 then Z.max (len + start) 0 else Z.min start len in
  let actualDeleteCount :=
    Z.min (Z.max deleteCount 0) (len - actualStart) in
  let before := firstn (Z.to_nat actualStart) arr in
  let from_start := skipn (Z.to_nat actualStart) arr in
  let removed := firstn (Z.to_nat actualDeleteCount) from_start in
  let after := skipn (Z.to_nat actualDeleteCount) from_start in
  (before ++ items ++ after, removed).

(** [x <= y]; false as soon as one side is [NaN]. *)
Definition leb (x y : number) : bool :=
  match x, y with
  | NaN, _ | _, NaN => false
  | NegInf, _ => true
  | Fin _, NegInf => false
  | Fin a, Fin b => Qle_bool a b
  | Fin _, PosInf => true
  | PosInf, PosInf => true
  | PosInf, _ => false
  end.

Definition neg (x : number) : number :=
  match x with
  | NaN => NaN
  | NegInf => PosInf
  | Fin a => Fin (- a)
  | PosInf => NegInf
  end.

(** [x - y] on numbers, without the rounding of binary64. *)
Definition sub (x y : number) : number := add x (neg y).

(** A number is falsy when it is 0 or [NaN]. *)
Definition falsy (x : number) : bool :=
  match x with
  | NaN => true
  | Fin a => Qeq_bool a 0
  | _ => false
  end.

(** [x || d] on numbers *)
Definition or_else (x d : number) : number := if falsy x then d else x.

(** [s.includes(sub)]: [sub] occurs in [s]. *)
Fixpoint includes (s sub : string) : bool :=
  if String.prefix sub s then true
  else
    match s with
    | EmptyString => false
    | String _ rest => includes rest sub
    end.

(** A string is truthy when it is not empty. *)
Definition nonempty (s : string) : bool :=
  match s with EmptyString => false | _ => true end.

(** [arr.sort(compare)], [compare(a, b)] being negative, zero or positive.
    The sort is stable: [a] goes before the first [b] it is not greater
    than.  This is the result of every implementation when [compare] is a
    consistent comparator; when it is not, the order is left to the
    implementation and only the elements are known. *)
Fixpoint sort_insert {A : Type} (compare : A -> A -> Z) (a : A)
  (sorted : list A) : list A :=
  match sorted with
  | [] => [a]
  | b :: rest =>
      if compare a b >? 0 then b :: sort_insert compare a rest
      else a :: b :: rest
  end.

Fixpoint sort {A : Type} (compare : A -> A -> Z) (arr : list A) : list A :=
  match arr with
  | [] => []
  | a :: rest => sort_insert compare a (sort compare rest)
  end.

(** [arr[i] = v] for an index of the array. *)
Fixpoint set_index {A : Type} (arr : list A) (i : nat) (v : A) : list A :=
  match arr, i with
  | [], _ => []
  | _ :: rest, O => v :: rest
  | a :: rest, S i' => a :: set_index rest i' v
  end.

(** [[arr[i], arr[j]] = [arr[j], arr[i]]] for two indices of the array
    (the array is returned as it is when one of them is not). *)
Definition swap {A : Type} (arr : list A) (i j : nat) : list A :=
  match nth_error arr i, nth_error arr j with
  | Some x, Some y => set_index (set_index arr i y) j x
  | _, _ => arr
  end.

End JS.

(* ------------------------------------------------------------------------- *)
(** ** Types (src/types) *)

Module TrackMetadata.
Record t : Type := mk {
  title : string;
  artist : string;
  album : option string;
  year : option JS.number;
  genre : option string;
  duration : JS.number;
  thumbnail : option string;
  uploader : option string;
  description : option string
}.
End TrackMetadata.

Module AudioTrack.
(** [oid] is the identity of the JavaScript object (what [Object.is]
    compares), not one of its properties; [playCount] is a counter and is
    kept as an integer. *)
Record t : Type := mk {
  oid : nat;
  id : string;
  title : string;
  artist : string;
  duration : JS.number;
  url : string;
  thumbnail : option string;
  metadata : TrackMetadata.t;
  tags : option (list string);
  rating : option JS.number;
  playCount : option Z;
  dateAdded : option string
}.

(** [Partial<AudioTrack>]: [None] when the key is absent. *)
Record partial : Type := mkPartial {
  p_id : option string;
  p_title : option string;
  p_artist : option string;
  p_duration : option JS.number;
  p_url : option string;
  p_thumbnail : option (option string);
  p_metadata : option TrackMetadata.t;
  p_tags : option (option (list string));
  p_rating : option (option JS.number);
  p_playCount : option (option Z);
  p_dateAdded : option (option string)
}.

(** [{ ...track, ...updates }], a new object allocated at [fresh]. *)
Definition spread (fresh : nat) (track : t) (updates : partial) : t :=
  mk fresh
     (JS.over (id track) (p_id updates))
     (JS.over (title track) (p_title updates))
     (JS.over (artist track) (p_artist updates))
     (JS.over (duration track) (p_duration updates))
     (JS.over (url track) (p_url updates))
     (JS.over (thumbnail track) (p_thumbnail updates))
     (JS.over (metadata track) (p_metadata updates))
     (JS.over (tags track) (p_tags updates))
     (JS.over (rating track) (p_rating updates))
     (JS.over (playCount track) (p_playCount updates))
     (JS.over (dateAdded track) (p_dateAdded updates)).
End AudioTrack.

Module Playlist.
(** An entry of [tracks] is a track id; [None] is an [undefined] entry,
    which [splice] can insert. *)
Definition entry : Type := option string.

Definition entry_eqb (a b : entry) : bool :=
  match a, b with
  | Some x, Some y => String.eqb x y
  | None, None => true
  | _, _ => false
  end.

(** [tracks.includes(trackId)] *)
Definition includes (tracks : list entry) (trackId : string) : bool :=
  existsb (entry_eqb (Some trackId)) tracks.

Record t : Type := mk {
  id : string;
  name : string;
  description : option string;
  tracks : list entry;
  createdAt : string;
  updatedAt : string;
  isDefault : option bool
}.

(** [Omit<Playlist, "id" | "createdAt" | "updatedAt">] *)
Record data : Type := mkData {
  d_name : string;
  d_description : option string;
  d_tracks : list entry;
  d_isDefault : option bool
}.

(** [Partial<Playlist>] *)
Record partial : Type := mkPartial {
  p_id : option string;
  p_name : option string;
  p_description : option (option string);
  p_tracks : option (list entry);
  p_createdAt : option string;
  p_updatedAt : option string;
  p_isDefault : option (option bool)
}.

(** [{ ...playlist, ...updates, updatedAt: now }] *)
Definition spread (playlist : t) (updates : partial) (now : string) : t :=
  mk (JS.over (id playlist) (p_id updates))
     (JS.over (name playlist) (p_name updates))
     (JS.over (description playlist) (p_description updates))
     (JS.over (tracks playlist) (p_tracks updates))
     (JS.over (createdAt playlist) (p_createdAt updates))
     now
     (JS.over (isDefault playlist) (p_isDefault updates)).
End Playlist.

Inductive RepeatMode : Type := none | one | all.

Definition RepeatMode_eqb (a b : RepeatMode) : bool :=
  match a, b with
  | none, none | one, one | all, all => true
  | _, _ => false
  end.

Inductive SortKey : Type :=
  by_title | by_artist | by_dateAdded | by_playCount | by_rating.
Inductive SortOrder : Type := asc | desc.

Module FilterOptions.
Record range : Type := mkRange { min : JS.number; max : JS.number }.

Record t : Type := mk {
  search : string;
  tags : list string;
  genre : list string;
  year : range;
  rating : range;
  sortBy : SortKey;
  sortOrder : SortOrder
}.

Record partial : Type := mkPartial {
  p_search : option string;
  p_tags : option (list string);
  p_genre : option (list string);
  p_year : option range;
  p_rating : option range;
  p_sortBy : option SortKey;
  p_sortOrder : option SortOrder
}.

(** [{ ...options0, ...options }] *)
Definition spread (o : t) (u : partial) : t :=
  mk (JS.over (search o) (p_search u))
     (JS.over (tags o) (p_tags u))
     (JS.over (genre o) (p_genre u))
     (JS.over (year o) (p_year u))
     (JS.over (rating o) (p_rating u))
     (JS.over (sortBy o) (p_sortBy u))
     (JS.over (sortOrder o) (p_sortOrder u)).
End FilterOptions.

(* ------------------------------------------------------------------------- *)
(** ** Helpers of the store and of the hooks ([@/lib/audio-utils]) *)

Module audioUtils.

Definition normalizeVolume (volume : JS.number) : JS.number :=
  JS.Math_min (JS.Math_max volume (JS.Fin 0)) (JS.Fin 1).

Definition normalizePlaybackRate (rate : JS.number) : JS.number :=
  JS.Math_min (JS.Math_max rate (JS.Fin 0.25)) (JS.Fin 4).

(** The [do ... while] loop of [getRandomTrackIndex], [us k] being the value
    of the [k]-th call of [Math.random()]; [None] when [fuel] draws were all
    rejected. *)
Fixpoint drawIndex (fuel : nat) (us : nat -> Q) (k : nat)
  (len currentIndex : Z) : option Z :=
  match fuel with
  | O => None
  | S fuel' =>
      let randomIndex := JS.random_index (us k) len in
      if (randomIndex =? currentIndex) && (len >? 1)
      then drawIndex fuel' us (S k) len currentIndex
      else Some randomIndex
  end.

Definition getRandomTrackIndex (fuel : nat) (us : nat -> Q)
  (tracks : list AudioTrack.t) (currentIndex : Z) : option Z :=
  if JS.length tracks <=? 1 then Some currentIndex
  else drawIndex fuel us 0 (JS.length tracks) currentIndex.

(** The loop of [shuffleArray] from index [i] down to 1; the [k]-th call of
    [Math.random()] returns [us k], a value in [0, 1), so that [j] is an
    index up to [i]. *)
Fixpoint shuffleFrom {A : Type} (i : nat) (us : nat -> Q) (k : nat)
  (shuffled : list A) : list A :=
  match i with
  | O => shuffled
  | S i' =>
      let j := JS.random_index (us k) (Z.of_nat i + 1) in
      shuffleFrom i' us (S k) (JS.swap shuffled i (Z.to_nat j))
  end.

Definition shuffleArray {A : Type} (us : nat -> Q) (array : list A)
  : list A :=
  shuffleFrom (List.length array - 1) us 0 array.

Section Platform.

(** [String.prototype.toLowerCase] and [String.prototype.trim], and
    [new Date(s).getTime()]. *)
Variable toLowerCase : string -> string.
Variable trim : string -> string.
Variable Date_getTime : string -> JS.number.

Definition matchesSearch (searchLower : string) (track : AudioTrack.t)
  : bool :=
  JS.includes (toLowerCase (AudioTrack.title track)) searchLower
  || JS.includes (toLowerCase (AudioTrack.artist track)) searchLower
  || match TrackMetadata.album (AudioTrack.metadata track) with
     | Some album => JS.includes (toLowerCase album) searchLower
     | None => false
     end
  || match AudioTrack.tags track with
     | Some tags =>
         existsb (fun tag => JS.includes (toLowerCase tag) searchLower) tags
     | None => false
     end.

Definition filterTracksBySearch (tracks : list AudioTrack.t)
  (search : string) : list AudioTrack.t :=
  if negb (JS.nonempty (trim search)) then tracks
  else filter (matchesSearch (toLowerCase search)) tracks.

(** What [sortTracks] compares: a string or a number. *)
Inductive sortValue : Type :=
| VString (s : string)
| VNumber (x : JS.number).

Definition value_ltb (a b : sortValue) : bool :=
  match a, b with
  | VString x, VString y => String.ltb x y
  | VNumber x, VNumber y => JS.ltb x y
  | _, _ => false
  end.

(** [aValue] of the [switch] in [sortTracks]. *)
Definition sortValueOf (sortBy : SortKey) (a : AudioTrack.t) : sortValue :=
  match sortBy with
  | by_title => VString (toLowerCase (AudioTrack.title a))
  | by_artist => VString (toLowerCase (AudioTrack.artist a))
  | by_dateAdded =>
      VNumber
        match AudioTrack.dateAdded a with
        | Some d => if JS.nonempty d then Date_getTime d else JS.Fin 0
        | None => JS.Fin 0
        end
  | by_playCount =>
      VNumber
        match AudioTrack.playCount a with
        | Some n => JS.Fin (inject_Z n)
        | None => JS.Fin 0
        end
  | by_rating =>
      VNumber
        match AudioTrack.rating a with
        | Some r => JS.or_else r (JS.Fin 0)
        | None => JS.Fin 0
        end
  end.

Definition compareTracks (sortBy : SortKey) (sortOrder : SortOrder)
  (a b : AudioTrack.t) : Z :=
  let aValue := sortValueOf sortBy a in
  let bValue := sortValueOf sortBy b in
  if value_ltb aValue bValue then
    match sortOrder with asc => -1 | desc => 1 end
  else if value_ltb bValue aValue then
    match sortOrder with asc => 1 | desc => -1 end
  else 0.

Definition sortTracks (tracks : list AudioTrack.t) (sortBy : SortKey)
  (sortOrder : SortOrder) : list AudioTrack.t :=
  JS.sort (compareTracks sortBy sortOrder) tracks.

End Platform.

End audioUtils.

(* ------------------------------------------------------------------------- *)
(** ** The store (src/stores/audio-store.ts) *)

Module AudioStore.

(** The state part of [AudioStore]. *)
Record t : Type := mk {
  currentTrack : JS.ref AudioTrack.t;
  isPlaying : bool;
  isPaused : bool;
  currentTime : JS.number;
  duration : JS.number;
  volume : JS.number;
  playbackRate : JS.number;
  repeatMode : RepeatMode;
  shuffleMode : bool;
  queue : list AudioTrack.t;
  currentIndex : Z;
  playlists : list Playlist.t;
  tracks : list AudioTrack.t;
  filterOptions : FilterOptions.t
}.

(** [set({ field: v })]: one field replaced, the others copied. *)
Definition with_currentTrack (v : JS.ref AudioTrack.t) (s : t) : t :=
  mk v (isPlaying s) (isPaused s) (currentTime s) (duration s) (volume s)
    (playbackRate s) (repeatMode s) (shuffleMode s) (queue s)
    (currentIndex s) (playlists s) (tracks s) (filterOptions s).

Definition with_isPlaying (v : bool) (s : t) : t :=
  mk (currentTrack s) v (isPaused s) (currentTime s) (duration s) (volume s)
    (playbackRate s) (repeatMode s) (shuffleMode s) (queue s)
    (currentIndex s) (playlists s) (tracks s) (filterOptions s).

Definition with_isPaused (v : bool) (s : t) : t :=
  mk (currentTrack s) (isPlaying s) v (currentTime s) (duration s)
    (volume s) (playbackRate s) (repeatMode s) (shuffleMode s) (queue s)
    (currentIndex s) (playlists s) (tracks s) (filterOptions s).

Definition with_currentTime (v : JS.number) (s : t) : t :=
  mk (currentTrack s) (isPlaying s) (isPaused s) v (duration s) (volume s)
    (playbackRate s) (repeatMode s) (shuffleMode s) (queue s)
    (currentIndex s) (playlists s) (tracks s) (filterOptions s).

Definition with_duration (v : JS.number) (s : t) : t :=
  mk (currentTrack s) (isPlaying s) (isPaused s) (currentTime s) v
    (volume s) (playbackRate s) (repeatMode s) (shuffleMode s) (queue s)
    (currentIndex s) (playlists s) (tracks s) (filterOptions s).

Definition with_volume (v : JS.number) (s : t) : t :=
  mk (currentTrack s) (isPlaying s) (isPaused s) (currentTime s)
    (duration s) v (playbackRate s) (repeatMode s) (shuffleMode s) (queue s)
    (currentIndex s) (playlists s) (tracks s) (filterOptions s).

Definition with_playbackRate (v : JS.number) (s : t) : t :=
  mk (currentTrack s) (isPlaying s) (isPaused s) (currentTime s)
    (duration s) (volume s) v (repeatMode s) (shuffleMode s) (queue s)
    (currentIndex s) (playlists s) (tracks s) (filterOptions s).

Definition with_repeatMode (v : RepeatMode) (s : t) : t :=
  mk (currentTrack s) (isPlaying s) (isPaused s) (currentTime s)
    (duration s) (volume s) (playbackRate s) v (shuffleMode s) (queue s)
    (currentIndex s) (playlists s) (tracks s) (filterOptions s).

Definition with_shuffleMode (v : bool) (s : t) : t :=
  mk (currentTrack s) (isPlaying s) (isPaused s) (currentTime s)
    (duration s) (volume s) (playbackRate s) (repeatMode s) v (queue s)
    (currentIndex s) (playlists s) (tracks s) (filterOptions s).

Definition with_queue (v : list AudioTrack.t) (s : t) : t :=
  mk (currentTrack s) (isPlaying s) (isPaused s) (currentTime s)
    (duration s) (volume s) (playbackRate s) (repeatMode s) (shuffleMode s)
    v (currentIndex s) (playlists s) (tracks s) (filterOptions s).

Definition with_currentIndex (v : Z) (s : t) : t :=
  mk (currentTrack s) (isPlaying s) (isPaused s) (currentTime s)
    (duration s) (volume s) (playbackRate s) (repeatMode s) (shuffleMode s)
    (queue s) v (playlists s) (tracks s) (filterOptions s).

Definition with_playlists (v : list Playlist.t) (s : t) : t :=
  mk (currentTrack s) (isPlaying s) (isPaused s) (currentTime s)
    (duration s) (volume s) (playbackRate s) (repeatMode s) (shuffleMode s)
    (queue s) (currentIndex s) v (tracks s) (filterOptions s).

Definition with_tracks (v : list AudioTrack.t) (s : t) : t :=
  mk (currentTrack s) (isPlaying s) (isPaused s) (currentTime s)
    (duration s) (volume s) (playbackRate s) (repeatMode s) (shuffleMode s)
    (queue s) (currentIndex s) (playlists s) v (filterOptions s).

Definition with_filterOptions (v : FilterOptions.t) (s : t) : t :=
  mk (currentTrack s) (isPlaying s) (isPaused s) (currentTime s)
    (duration s) (volume s) (playbackRate s) (repeatMode s) (shuffleMode s)
    (queue s) (currentIndex s) (playlists s) (tracks s) v.

(** [defaultFilterOptions]; [thisYear] is [new Date().getFullYear()] when the
    module is loaded. *)
Definition defaultFilterOptions (thisYear : Z) : FilterOptions.t :=
  FilterOptions.mk EmptyString [] []
    (FilterOptions.mkRange (JS.Fin 1900) (JS.Fin (inject_Z thisYear)))
    (FilterOptions.mkRange (JS.Fin 0) (JS.Fin 5))
    by_title asc.

(** The state the store is created with. *)
Definition initial (thisYear : Z) : t :=
  mk JS.null false false (JS.Fin 0) (JS.Fin 0) (JS.Fin 1) (JS.Fin 1)
     none false [] 0 [] [] (defaultFilterOptions thisYear).

(** *** Audio player actions *)

Definition setCurrentTrack (track : JS.ref AudioTrack.t) (s : t) : t :=
  with_currentTrack track s.

Definition togglePlayPause (s : t) : t :=
  with_isPaused (isPlaying s) (with_isPlaying (negb (isPlaying s)) s).

Definition play (s : t) : t :=
  with_isPaused false (with_isPlaying true s).

Definition pause (s : t) : t :=
  with_isPaused true (with_isPlaying false s).

Definition stop (s : t) : t :=
  with_currentTime (JS.Fin 0) (with_isPaused false (with_isPlaying false s)).

Definition seek (time : JS.number) (s : t) : t :=
  with_currentTime time s.

Definition setVolume (volume : JS.number) (s : t) : t :=
  with_volume (JS.Math_min (JS.Math_max volume (JS.Fin 0)) (JS.Fin 1)) s.

Definition setPlaybackRate (rate : JS.number) (s : t) : t :=
  with_playbackRate
    (JS.Math_min (JS.Math_max rate (JS.Fin 0.25)) (JS.Fin 4)) s.

Definition setRepeatMode (mode : RepeatMode) (s : t) : t :=
  with_repeatMode mode s.

Definition setShuffleMode (enabled : bool) (s : t) : t :=
  with_shuffleMode enabled s.

(** *** Queue management *)

(** The [set] that ends [nextTrack] and [previousTrack]:
    [{ currentIndex: i, currentTrack: queue[i], currentTime: 0 }]. *)
Definition moveTo (i : Z) (s : t) : t :=
  with_currentTime (JS.Fin 0)
    (with_currentTrack (JS.at_index (queue s) i)
       (with_currentIndex i s)).

(** [u] is the value [Math.random()] returns if it is called. *)
Definition nextTrack (u : Q) (s : t) : t :=
  if JS.length (queue s) =? 0 then s
  else
    let nextIndex := currentIndex s + 1 in
    if shuffleMode s then
      moveTo (JS.random_index u (JS.length (queue s))) s
    else if nextIndex >=? JS.length (queue s) then
      if RepeatMode_eqb (repeatMode s) all then moveTo 0 s
      else s
    else moveTo nextIndex s.

Definition previousTrack (u : Q) (s : t) : t :=
  if JS.length (queue s) =? 0 then s
  else
    let prevIndex := currentIndex s - 1 in
    if shuffleMode s then
      moveTo (JS.random_index u (JS.length (queue s))) s
    else if prevIndex <? 0 then
      if RepeatMode_eqb (repeatMode s) all then
        moveTo (JS.length (queue s) - 1) s
      else s
    else moveTo prevIndex s.

Definition addToQueue (track : AudioTrack.t) (s : t) : t :=
  with_queue (queue s ++ [track]) s.

Definition removeFromQueue (index : Z) (s : t) : t :=
  let newQueue :=
    JS.filteri_from (fun i => negb (i =? index)) 0 (queue s) in
  let newIndex :=
    if index <? currentIndex s then currentIndex s - 1
    else currentIndex s in
  with_currentTrack (JS.at_index_or_null newQueue newIndex)
    (with_currentIndex newIndex (with_queue newQueue s)).

Definition clearQueue (s : t) : t :=
  with_isPaused false
    (with_isPlaying false
       (with_currentTrack JS.null
          (with_currentIndex 0 (with_queue [] s)))).

Definition setQueue (tracks : list AudioTrack.t) (s : t) : t :=
  with_currentTrack (JS.at_index_or_null tracks 0)
    (with_currentIndex 0 (with_queue tracks s)).

Definition setCurrentIndex (index : Z) (s : t) : t :=
  with_currentTime (JS.Fin 0)
    (with_currentTrack (JS.at_index_or_null (queue s) index)
       (with_currentIndex index s)).

(** *** Playlist management *)

(** [newId] is the value of [generateId()], [created] and [updated] those of
    the two [new Date().toISOString()]. *)
Definition addPlaylist (playlistData : Playlist.data)
  (newId created updated : string) (s : t) : t :=
  let playlist :=
    Playlist.mk newId
      (Playlist.d_name playlistData)
      (Playlist.d_description playlistData)
      (Playlist.d_tracks playlistData)
      created updated
      (Playlist.d_isDefault playlistData) in
  with_playlists (playlists s ++ [playlist]) s.

Definition updatePlaylist (id : string) (updates : Playlist.partial)
  (now : string) (s : t) : t :=
  with_playlists
    (map (fun playlist =>
            if String.eqb (Playlist.id playlist) id
            then Playlist.spread playlist updates now
            else playlist)
         (playlists s)) s.

Definition deletePlaylist (id : string) (s : t) : t :=
  with_playlists
    (filter (fun playlist => negb (String.eqb (Playlist.id playlist) id))
       (playlists s)) s.

Definition addTrackToPlaylist (playlistId trackId now : string) (s : t) : t :=
  with_playlists
    (map (fun playlist =>
            if String.eqb (Playlist.id playlist) playlistId
            then
              Playlist.mk (Playlist.id playlist) (Playlist.name playlist)
                (Playlist.description playlist)
                (if Playlist.includes (Playlist.tracks playlist) trackId
                 then Playlist.tracks playlist
                 else Playlist.tracks playlist ++ [Some trackId])
                (Playlist.createdAt playlist)
                now
                (Playlist.isDefault playlist)
            else playlist)
         (playlists s)) s.

Definition removeTrackFromPlaylist (playlistId trackId now : string) (s : t)
  : t :=
  with_playlists
    (map (fun playlist =>
            if String.eqb (Playlist.id playlist) playlistId
            then
              Playlist.mk (Playlist.id playlist) (Playlist.name playlist)
                (Playlist.description playlist)
                (filter
                   (fun id => negb (Playlist.entry_eqb id (Some trackId)))
                   (Playlist.tracks playlist))
                (Playlist.createdAt playlist)
                now
                (Playlist.isDefault playlist)
            else playlist)
         (playlists s)) s.

(** *** Track management *)

Definition setTracks (tracks : list AudioTrack.t) (s : t) : t :=
  with_tracks tracks s.

Definition addTrack (track : AudioTrack.t) (s : t) : t :=
  with_tracks (tracks s ++ [track]) s.

(** [tracks.map(track => track.id === id ? { ...track, ...updates } : track)];
    each copy is a new object, allocated from [fresh] on. *)
Fixpoint updateTrack_map (fresh : nat) (id : string)
  (updates : AudioTrack.partial) (tracks : list AudioTrack.t)
  : list AudioTrack.t :=
  match tracks with
  | [] => []
  | track :: rest =>
      if String.eqb (AudioTrack.id track) id
      then AudioTrack.spread fresh track updates
           :: updateTrack_map (S fresh) id updates rest
      else track :: updateTrack_map fresh id updates rest
  end.

Definition updateTrack (fresh : nat) (id : string)
  (updates : AudioTrack.partial) (s : t) : t :=
  with_tracks (updateTrack_map fresh id updates (tracks s)) s.

(** [state.currentTrack?.id === id] *)
Definition currentTrack_has_id (s : t) (id : string) : bool :=
  match currentTrack s with
  | JS.obj track => String.eqb (AudioTrack.id track) id
  | _ => false
  end.

Definition deleteTrack (id : string) (s : t) : t :=
  let keep := fun track => negb (String.eqb (AudioTrack.id track) id) in
  with_currentTrack
    (if currentTrack_has_id s id then JS.null else currentTrack s)
    (with_queue (filter keep (queue s))
       (with_tracks (filter keep (tracks s)) s)).

(** *** Filter management *)

Definition setFilterOptions (options : FilterOptions.partial) (s : t) : t :=
  with_filterOptions (FilterOptions.spread (filterOptions s) options) s.

Definition resetFilterOptions (thisYear : Z) (s : t) : t :=
  with_filterOptions (defaultFilterOptions thisYear) s.

(** *** Computed values *)

Definition isCurrentTrack (trackId : string) (s : t) : bool :=
  currentTrack_has_id s trackId.

Definition getPlaylistTracks (playlistId : string) (s : t)
  : list AudioTrack.t :=
  match find (fun p => String.eqb (Playlist.id p) playlistId) (playlists s)
  with
  | None => []
  | Some playlist =>
      filter (fun track =>
                Playlist.includes (Playlist.tracks playlist)
                  (AudioTrack.id track))
             (tracks s)
  end.

(** *** The persist middleware *)

(** What [partialize] keeps. *)
Record persisted : Type := mkPersisted {
  ps_volume : JS.number;
  ps_repeatMode : RepeatMode;
  ps_shuffleMode : bool;
  ps_playlists : list Playlist.t;
  ps_tracks : list AudioTrack.t;
  ps_filterOptions : FilterOptions.t
}.

Definition partialize (state : t) : persisted :=
  mkPersisted (volume state) (repeatMode state) (shuffleMode state)
    (playlists state) (tracks state) (filterOptions state).

(** Rehydration at start-up, zustand's default merge
    [{ ...currentState, ...persistedState }].  The record read back is
    taken to be the record written, which is so for the values JSON
    carries: strings, booleans, finite numbers, and arrays and objects of
    these.  [JSON.stringify] writes [NaN] and the infinities as [null] and
    leaves out [undefined] fields; what the store does after reading such
    a record is outside this model, whose number fields hold numbers. *)
Definition rehydrate (current : t) (p : persisted) : t :=
  with_filterOptions (ps_filterOptions p)
    (with_tracks (ps_tracks p)
       (with_playlists (ps_playlists p)
          (with_shuffleMode (ps_shuffleMode p)
             (with_repeatMode (ps_repeatMode p)
                (with_volume (ps_volume p) current))))).

(** Closing the application and opening it again: the store is created
    anew and merged with what was written (see [rehydrate] for the values
    this covers). *)
Definition restart (thisYear : Z) (s : t) : t :=
  rehydrate (initial thisYear) (partialize s).

(** *** Filtered view *)

Section Platform.

Variable toLowerCase : string -> string.
Variable trim : string -> string.
Variable Date_getTime : string -> JS.number.

(** [track.tags?.some(tag => filterOptions.tags.includes(tag))] *)
Definition hasSomeTag (wanted : list string) (track : AudioTrack.t) : bool :=
  match AudioTrack.tags track with
  | Some tags =>
      existsb (fun tag => existsb (String.eqb tag) wanted) tags
  | None => false
  end.

(** [track.metadata.genre && filterOptions.genre.includes(...)] *)
Definition hasGenreOf (wanted : list string) (track : AudioTrack.t) : bool :=
  match TrackMetadata.genre (AudioTrack.metadata track) with
  | Some genre => JS.nonempty genre && existsb (String.eqb genre) wanted
  | None => false
  end.

(** [track.metadata.year || new Date().getFullYear()] within the range *)
Definition yearWithin (range : FilterOptions.range) (thisYear : Z)
  (track : AudioTrack.t) : bool :=
  let year :=
    match TrackMetadata.year (AudioTrack.metadata track) with
    | Some y => JS.or_else y (JS.Fin (inject_Z thisYear))
    | None => JS.Fin (inject_Z thisYear)
    end in
  JS.leb (FilterOptions.min range) year
  && JS.leb year (FilterOptions.max range).

(** [track.rating || 0] within the range *)
Definition ratingWithin (range : FilterOptions.range)
  (track : AudioTrack.t) : bool :=
  let rating :=
    match AudioTrack.rating track with
    | Some r => JS.or_else r (JS.Fin 0)
    | None => JS.Fin 0
    end in
  JS.leb (FilterOptions.min range) rating
  && JS.leb rating (FilterOptions.max range).

(** The filters of [getFilteredTracks], before the sort; [thisYear] is
    [new Date().getFullYear()] at the time of the call. *)
Definition applyFilters (thisYear : Z) (s : t) : list AudioTrack.t :=
  let o := filterOptions s in
  let filtered := tracks s in
  let filtered :=
    if JS.nonempty (FilterOptions.search o)
    then audioUtils.filterTracksBySearch toLowerCase trim filtered
           (FilterOptions.search o)
    else filtered in
  let filtered :=
    if JS.length (FilterOptions.tags o) >? 0
    then filter (hasSomeTag (FilterOptions.tags o)) filtered
    else filtered in
  let filtered :=
    if JS.length (FilterOptions.genre o) >? 0
    then filter (hasGenreOf (FilterOptions.genre o)) filtered
    else filtered in
  let filtered :=
    if JS.ltb (JS.Fin 1900) (FilterOptions.min (FilterOptions.year o))
       || JS.ltb (FilterOptions.max (FilterOptions.year o))
            (JS.Fin (inject_Z thisYear))
    then filter (yearWithin (FilterOptions.year o) thisYear) filtered
    else filtered in
  if JS.ltb (JS.Fin 0) (FilterOptions.min (FilterOptions.rating o))
     || JS.ltb (FilterOptions.max (FilterOptions.rating o)) (JS.Fin 5)
  then filter (ratingWithin (FilterOptions.rating o)) filtered
  else filtered.

Definition getFilteredTracks (thisYear : Z) (s : t) : list AudioTrack.t :=
  audioUtils.sortTracks toLowerCase Date_getTime (applyFilters thisYear s)
    (FilterOptions.sortBy (filterOptions s))
    (FilterOptions.sortOrder (filterOptions s)).

End Platform.

End AudioStore.

(* ------------------------------------------------------------------------- *)
(** ** The playlist hook ([usePlaylist])

    The callbacks of the hook close over the [playlists] and [tracks] of the
    latest render, which are those of the store state [s]. *)

Module usePlaylist.

(** What the callbacks take from outside: the successive values of
    [generateId()] and of [new Date().toISOString()], and the address of the
    next allocated object. *)
Record env : Type := mkEnv {
  generateId : nat -> string;
  toISOString : nat -> string;
  heap : nat
}.

Definition createPlaylist (name : string) (description : option string)
  (trackIds : list Playlist.entry) (newId created updated : string)
  (s : AudioStore.t) : AudioStore.t :=
  AudioStore.addPlaylist
    (Playlist.mkData name description trackIds (Some false))
    newId created updated s.

Definition getPlaylistById (id : string) (s : AudioStore.t)
  : option Playlist.t :=
  find (fun playlist => String.eqb (Playlist.id playlist) id)
       (AudioStore.playlists s).

Definition getTracksForPlaylist (playlistId : string) (s : AudioStore.t)
  : list AudioTrack.t :=
  AudioStore.getPlaylistTracks playlistId s.

(** The two [splice] calls of [reorderTracks]:
    [const [movedTrack] = newTracks.splice(fromIndex, 1);
     newTracks.splice(toIndex, 0, movedTrack);] *)
Definition moveEntry (tracks : list Playlist.entry) (fromIndex toIndex : Z)
  : list Playlist.entry :=
  let '(newTracks, removed) := JS.splice tracks fromIndex 1 [] in
  let movedTrack : Playlist.entry :=
    match removed with
    | [] => None
    | e :: _ => e
    end in
  fst (JS.splice newTracks toIndex 0 [movedTrack]).

Definition reorderTracks (playlistId : string) (fromIndex toIndex : Z)
  (now : string) (s : AudioStore.t) : AudioStore.t :=
  match getPlaylistById playlistId s with
  | None => s
  | Some playlist =>
      let newTracks :=
        moveEntry (Playlist.tracks playlist) fromIndex toIndex in
      AudioStore.updatePlaylist playlistId
        (Playlist.mkPartial None None None (Some newTracks) None None None)
        now s
  end.

(** One track of an export. *)
Record trackData : Type := mkTrackData {
  td_title : string;
  td_artist : string;
  td_duration : JS.number;
  td_url : string
}.

Record playlistData : Type := mkPlaylistData {
  pd_name : string;
  pd_description : option string;
  pd_tracks : list trackData
}.

Record exportMetadata : Type := mkExportMetadata {
  exportedAt : string;
  totalTracks : Z;
  totalDuration : JS.number
}.

Record snapshot : Type := mkSnapshot {
  playlist : playlistData;
  metadata : exportMetadata
}.

Definition exportPlaylist (playlistId : string) (now : string)
  (s : AudioStore.t) : option snapshot :=
  match getPlaylistById playlistId s with
  | None => None
  | Some p =>
      let playlistTracks := getTracksForPlaylist playlistId s in
      Some
        (mkSnapshot
           (mkPlaylistData (Playlist.name p) (Playlist.description p)
              (map (fun track =>
                      mkTrackData (AudioTrack.title track)
                        (AudioTrack.artist track)
                        (AudioTrack.duration track)
                        (AudioTrack.url track))
                   playlistTracks))
           (mkExportMetadata now
              (JS.length playlistTracks)
              (fold_left (fun sum track =>
                            JS.add sum (AudioTrack.duration track))
                         playlistTracks (JS.Fin 0))))
  end.

(** [playlistData.tracks.map(trackData => ({ id: generateId(), ... }))]: the
    [k]-th track takes the [k]-th generated id and date. *)
Fixpoint importedTracks_from (e : env) (k : nat) (tracks : list trackData)
  : list AudioTrack.t :=
  match tracks with
  | [] => []
  | td :: rest =>
      AudioTrack.mk (heap e + k)
        (generateId e k)
        (td_title td) (td_artist td) (td_duration td) (td_url td)
        None
        (TrackMetadata.mk (td_title td) (td_artist td) None None None
           (td_duration td) None None None)
        (Some []) (Some (JS.Fin 0)) (Some 0)
        (Some (toISOString e k))
      :: importedTracks_from e (S k) rest
  end.

(** The [forEach] over the imported tracks has an empty body (the call of
    [addTrack] is commented out), so the store receives the playlist
    only. *)
Definition importPlaylist (data : playlistData) (e : env)
  (s : AudioStore.t) : AudioStore.t :=
  let importedTracks := importedTracks_from e 0 (pd_tracks data) in
  let n := List.length (pd_tracks data) in
  let trackIds :=
    map (fun track => Some (AudioTrack.id track)) importedTracks in
  createPlaylist (pd_name data) (pd_description data) trackIds
    (generateId e n) (toISOString e n) (toISOString e (S n)) s.

(** The id given to the playlist that [importPlaylist data e] creates. *)
Definition importedPlaylistId (data : playlistData) (e : env) : string :=
  generateId e (List.length (pd_tracks data)).

(** *** The other callbacks of the hook *)

Definition editPlaylist (id : string) (name : option string)
  (description : option (option string)) (now : string) (s : AudioStore.t)
  : AudioStore.t :=
  AudioStore.updatePlaylist id
    (Playlist.mkPartial None name description None None None None) now s.

(** [newName || `${playlist.name} (Copy)`]: an empty [newName] counts as
    none. *)
Definition duplicatedName (playlist : Playlist.t) (newName : option string)
  : string :=
  match newName with
  | Some n => if JS.nonempty n then n
              else (Playlist.name playlist ++ " (Copy)")%string
  | None => (Playlist.name playlist ++ " (Copy)")%string
  end.

Definition duplicatePlaylist (id : string) (newName : option string)
  (newId created updated : string) (s : AudioStore.t) : AudioStore.t :=
  match getPlaylistById id s with
  | None => s
  | Some playlist =>
      createPlaylist (duplicatedName playlist newName)
        (Playlist.description playlist) (Playlist.tracks playlist)
        newId created updated s
  end.

Definition clearPlaylist (id now : string) (s : AudioStore.t)
  : AudioStore.t :=
  AudioStore.updatePlaylist id
    (Playlist.mkPartial None None None (Some []) None None None) now s.

(** [toLowerCase] is [String.prototype.toLowerCase]. *)
Definition searchPlaylists (toLowerCase : string -> string)
  (query : string) (s : AudioStore.t) : list Playlist.t :=
  let searchLower := toLowerCase query in
  filter (fun playlist =>
            JS.includes (toLowerCase (Playlist.name playlist)) searchLower
            || match Playlist.description playlist with
               | Some d => JS.includes (toLowerCase d) searchLower
               | None => false
               end)
         (AudioStore.playlists s).

End usePlaylist.

(* ------------------------------------------------------------------------- *)
(** ** The player hook (src/hooks/use-audio-player.ts), track changes

    [useEffect(() => { ... }, [currentTrack, updateTrack])]: React runs the
    effect after the first render and after every render in which
    [currentTrack] is not the object ([Object.is]) it was at the previous
    render; [updateTrack] is the same function throughout. *)

Module useAudioPlayer.

(** What an instance of the hook keeps between renders: the source of its
    audio element, and [currentTrack] as of the previous render ([None]
    before the first). *)
Record t : Type := mk {
  audio_src : string;
  lastTrack : option (JS.ref AudioTrack.t)
}.

Definition fresh_hook : t := mk EmptyString None.

Definition Object_is (a b : JS.ref AudioTrack.t) : bool :=
  match a, b with
  | JS.null, JS.null => true
  | JS.undefined, JS.undefined => true
  | JS.obj x, JS.obj y => Nat.eqb (AudioTrack.oid x) (AudioTrack.oid y)
  | _, _ => false
  end.

Definition trackChanged (h : t) (s : AudioStore.t) : bool :=
  match lastTrack h with
  | None => true
  | Some previous => negb (Object_is previous (AudioStore.currentTrack s))
  end.

(** [(currentTrack.playCount || 0) + 1] *)
Definition nextPlayCount (track : AudioTrack.t) : Z :=
  match AudioTrack.playCount track with
  | Some n => n + 1
  | None => 0 + 1
  end.

Definition playCountUpdate (n : Z) : AudioTrack.partial :=
  AudioTrack.mkPartial None None None None None None None None None
    (Some (Some n)) None.

(** The body of the effect; [audioRef.current] is set by the effect that
    runs before it. *)
Definition trackChangeEffect (fresh : nat) (h : t) (s : AudioStore.t)
  : t * AudioStore.t :=
  match AudioStore.currentTrack s with
  | JS.obj currentTrack =>
      (mk (AudioTrack.url currentTrack) (lastTrack h),
       AudioStore.updateTrack fresh (AudioTrack.id currentTrack)
         (playCountUpdate (nextPlayCount currentTrack)) s)
  | _ => (h, s)
  end.

(** One render of the component that uses the hook, with its effects. *)
Definition render (fresh : nat) (h : t) (s : AudioStore.t)
  : t * AudioStore.t :=
  let h' := mk (audio_src h) (Some (AudioStore.currentTrack s)) in
  if trackChanged h s then trackChangeEffect fresh h' s else (h', s).

(** [setCurrentTrack(track)] followed by the render it causes. *)
Definition assign (fresh : nat) (track : AudioTrack.t)
  (hs : t * AudioStore.t) : t * AudioStore.t :=
  render fresh (fst hs) (AudioStore.setCurrentTrack (JS.obj track) (snd hs)).

(** *** The callbacks of the hook, as far as the store goes

    What the callbacks do to the audio element besides ([currentTime],
    [play()], [pause()]) is left out. *)


Definition playTrack (track : AudioTrack.t) (s : AudioStore.t)
  : AudioStore.t :=
  AudioStore.play (AudioStore.setCurrentTrack (JS.obj track) s).

(** [playPlaylist(tracks, startIndex = 0)] *)
Definition playPlaylist (tracks : list AudioTrack.t) (startIndex : option Z)
  (s : AudioStore.t) : AudioStore.t :=
  let startIndex := match startIndex with Some i => i | None => 0 end in
  AudioStore.play
    (AudioStore.setCurrentTrack (JS.at_index tracks startIndex)
       (AudioStore.setCurrentIndex startIndex
          (AudioStore.setQueue tracks s))).

Definition handleSeek (time : JS.number) (s : AudioStore.t)
  : AudioStore.t :=
  AudioStore.seek time s.

Definition handleVolumeChange (newVolume : JS.number) (s : AudioStore.t)
  : AudioStore.t :=
  AudioStore.setVolume (audioUtils.normalizeVolume newVolume) s.

Definition handlePlaybackRateChange (rate : JS.number) (s : AudioStore.t)
  : AudioStore.t :=
  AudioStore.setPlaybackRate (audioUtils.normalizePlaybackRate rate) s.

(** [details.seekOffset || 10] *)
Definition skipTime (seekOffset : option JS.number) : JS.number :=
  match seekOffset with
  | Some o => JS.or_else o (JS.Fin 10)
  | None => JS.Fin 10
  end.

(** The "seekbackward" handler of the media session. *)
Definition seekbackward (seekOffset : option JS.number) (s : AudioStore.t)
  : AudioStore.t :=
  let newTime :=
    JS.Math_max (JS.Fin 0)
      (JS.sub (AudioStore.currentTime s) (skipTime seekOffset)) in
  handleSeek newTime s.

(** The "seekforward" handler of the media session. *)
Definition seekforward (seekOffset : option JS.number) (s : AudioStore.t)
  : AudioStore.t :=
  let newTime :=
    JS.Math_min (AudioStore.duration s)
      (JS.add (AudioStore.currentTime s) (skipTime seekOffset)) in
  handleSeek newTime s.

End useAudioPlayer.

(* ------------------------------------------------------------------------- *)
(** * Properties: what the statements are written with *)

Import AudioStore.

(** ** Runs of the store *)

(** The store after the calls [nextTrack()], one per element of [us] (the
    values [Math.random()] would return). *)
Fixpoint nextTracks (us : list Q) (s : AudioStore.t) : AudioStore.t :=
  match us with
  | [] => s
  | u :: rest => nextTracks rest (nextTrack u s)
  end.

(** The value of [currentIndex] after each of these calls. *)
Fixpoint visited (us : list Q) (s : AudioStore.t) : list Z :=
  match us with
  | [] => []
  | u :: rest => currentIndex (nextTrack u s) :: visited rest (nextTrack u s)
  end.

(** All indices of a queue, in order. *)
Definition indices (q : list AudioTrack.t) : list Z :=
  map Z.of_nat (seq 0 (List.length q)).

(** What stays the same along a run of sequential [nextTrack] calls. *)
Definition same_settings (s s' : AudioStore.t) : Prop :=
  queue s' = queue s /\ repeatMode s' = repeatMode s
  /\ shuffleMode s' = shuffleMode s.

(** The actions of the store, with the arguments of each call. *)
Inductive action : Type :=
| SetCurrentTrack (track : JS.ref AudioTrack.t)
| TogglePlayPause
| Play
| Pause
| Stop
| Seek (time : JS.number)
| SetVolume (volume : JS.number)
| SetPlaybackRate (rate : JS.number)
| SetRepeatMode (mode : RepeatMode)
| SetShuffleMode (enabled : bool)
| NextTrack (u : Q)
| PreviousTrack (u : Q)
| AddToQueue (track : AudioTrack.t)
| RemoveFromQueue (index : Z)
| ClearQueue
| SetQueue (tracks : list AudioTrack.t)
| SetCurrentIndex (index : Z)
| AddPlaylist (playlistData : Playlist.data) (newId created updated : string)
| UpdatePlaylist (id : string) (updates : Playlist.partial) (now : string)
| DeletePlaylist (id : string)
| AddTrackToPlaylist (playlistId trackId now : string)
| RemoveTrackFromPlaylist (playlistId trackId now : string)
| SetTracks (tracks : list AudioTrack.t)
| AddTrack (track : AudioTrack.t)
| UpdateTrack (fresh : nat) (id : string) (updates : AudioTrack.partial)
| DeleteTrack (id : string)
| SetFilterOptions (options : FilterOptions.partial)
| ResetFilterOptions (thisYear : Z).

Definition dispatch (a : action) (s : AudioStore.t) : AudioStore.t :=
  match a with
  | SetCurrentTrack track => setCurrentTrack track s
  | TogglePlayPause => togglePlayPause s
  | Play => play s
  | Pause => pause s
  | Stop => stop s
  | Seek time => seek time s
  | SetVolume v => setVolume v s
  | SetPlaybackRate r => setPlaybackRate r s
  | SetRepeatMode m => setRepeatMode m s
  | SetShuffleMode b => setShuffleMode b s
  | NextTrack u => nextTrack u s
  | PreviousTrack u => previousTrack u s
  | AddToQueue track => addToQueue track s
  | RemoveFromQueue i => removeFromQueue i s
  | ClearQueue => clearQueue s
  | SetQueue trs => setQueue trs s
  | SetCurrentIndex i => setCurrentIndex i s
  | AddPlaylist d i c u => addPlaylist d i c u s
  | UpdatePlaylist i u now => updatePlaylist i u now s
  | DeletePlaylist i => deletePlaylist i s
  | AddTrackToPlaylist p tr now => addTrackToPlaylist p tr now s
  | RemoveTrackFromPlaylist p tr now => removeTrackFromPlaylist p tr now s
  | SetTracks trs => setTracks trs s
  | AddTrack track => addTrack track s
  | UpdateTrack fresh i u => updateTrack fresh i u s
  | DeleteTrack i => deleteTrack i s
  | SetFilterOptions o => setFilterOptions o s
  | ResetFilterOptions y => resetFilterOptions y s
  end.

(** The store after a sequence of actions. *)
Fixpoint dispatches (acts : list action) (s : AudioStore.t) : AudioStore.t :=
  match acts with
  | [] => s
  | a :: rest => dispatches rest (dispatch a s)
  end.

(** [isPlaying] and [isPaused] are not both true. *)
Definition exclusive_flags (s : AudioStore.t) : Prop :=
  isPlaying s && isPaused s = false.

(** ** Clamping, as the specification words it *)

(** [min(max(v, lo), hi)] on the extended rationals; nothing is said of
    [NaN], which [Math.min] and [Math.max] hand on. *)
Definition clamp (lo hi : Q) (v : JS.number) : JS.number :=
  match v with
  | JS.NaN => JS.NaN
  | JS.NegInf => JS.Fin (Qmin lo hi)
  | JS.Fin q => JS.Fin (Qmin (Qmax q lo) hi)
  | JS.PosInf => JS.Fin hi
  end.

(** ** Tracks, playlists and their ids *)

(** The first track of the collection with the given id. *)
Definition trackById (id : string) (s : AudioStore.t) : option AudioTrack.t :=
  find (fun track => String.eqb (AudioTrack.id track) id) (tracks s).

(** [track.playCount || 0] *)
Definition playCountOr0 (track : AudioTrack.t) : Z :=
  match AudioTrack.playCount track with
  | Some n => n
  | None => 0
  end.

(** The play count the collection holds for an id (0 when it holds no such
    track). *)
Definition storedPlayCount (id : string) (s : AudioStore.t) : Z :=
  match trackById id s with
  | Some track => playCountOr0 track
  | None => 0
  end.

(** The list without its element at position [k]. *)
Definition remove_at {A : Type} (k : nat) (l : list A) : list A :=
  firstn k l ++ skipn (S k) l.

(** The list with [x] put in at position [k]. *)
Definition insert_at {A : Type} (k : nat) (x : A) (l : list A) : list A :=
  firstn k l ++ x :: skipn k l.

(** The track lists of the playlists, in order. *)
Definition playlistTracks (s : AudioStore.t) : list (list Playlist.entry) :=
  map Playlist.tracks (playlists s).

(** The track list of the first playlist with the given id. *)
Definition tracksOfPlaylist (playlistId : string) (s : AudioStore.t)
  : option (list Playlist.entry) :=
  option_map Playlist.tracks (usePlaylist.getPlaylistById playlistId s).

(** [{ tracks: newTracks }] as a [Partial<Playlist>]. *)
Definition tracksUpdate (newTracks : list Playlist.entry)
  : Playlist.partial :=
  Playlist.mkPartial None None None (Some newTracks) None None None.

(** ** Sample data *)

Definition sampleMetadata (title artist : string) : TrackMetadata.t :=
  TrackMetadata.mk title artist None None None (JS.Fin 180) None None None.

Definition sampleTrack (oid : nat) (id title artist : string) : AudioTrack.t :=
  AudioTrack.mk oid id title artist (JS.Fin 180)
    ("/audio/" ++ id ++ ".mp3")%string None
    (sampleMetadata title artist) (Some []) (Some (JS.Fin 0)) (Some 0)
    None.

Definition trackA : AudioTrack.t := sampleTrack 1 "A" "Song A" "Artist A".
Definition trackB : AudioTrack.t := sampleTrack 2 "B" "Song B" "Artist B".
Definition trackC : AudioTrack.t := sampleTrack 3 "C" "Song C" "Artist C".

Definition playlistABC : Playlist.t :=
  Playlist.mk "p1" "Mix" None [Some "A"; Some "B"; Some "C"]%string
    "2024-01-01T00:00:00.000Z" "2024-01-01T00:00:00.000Z" (Some false).

(** A store holding three tracks, all of them queued, and one playlist. *)
Definition sampleStore : AudioStore.t :=
  with_playlists [playlistABC]
    (with_tracks [trackA; trackB; trackC]
       (with_queue [trackA; trackB; trackC] (initial 2024))).

Definition sampleEnv : usePlaylist.env :=
  usePlaylist.mkEnv
    (fun k => ("gen" ++ String (Ascii.ascii_of_nat (48 + k)) EmptyString)%string)
    (fun _ => "2024-06-01T00:00:00.000Z"%string)
    100.

(** A mounted hook that has rendered while no track was loaded. *)
Definition idleHook : useAudioPlayer.t :=
  useAudioPlayer.mk EmptyString (Some JS.null).

(** The sample store at index 1 with repeat-all. *)
Definition loopingStore : AudioStore.t :=
  with_repeatMode all (with_currentIndex 1 sampleStore).

(** A single-track queue at its only index, with repeat-all. *)
Definition singleStore : AudioStore.t :=
  with_repeatMode all (with_queue [trackA] (initial 2024)).

(** The sample store while playing. *)
Definition playingStore : AudioStore.t := play sampleStore.

(** The sample store with track A loaded. *)
Definition loadedStore : AudioStore.t :=
  setCurrentTrack (JS.obj trackA) sampleStore.

(** The sample store played at double speed. *)
Definition fastStore : AudioStore.t :=
  setPlaybackRate (JS.Fin 2) (seek (JS.Fin 42) loadedStore).

(** ** Positions in the queue *)

(** [currentIndex] is an index of the queue. *)
Definition valid_position (s : AudioStore.t) : Prop :=
  0 <= currentIndex s < JS.length (queue s).

(** [currentTrack] is the queued track at [currentIndex]. *)
Definition loaded_at_index (s : AudioStore.t) : Prop :=
  exists track,
    JS.index (queue s) (currentIndex s) = Some track
    /\ currentTrack s = JS.obj track.

(** The sample store with shuffle on. *)
Definition shuffledStore : AudioStore.t := setShuffleMode true sampleStore.

(** The sample store with the last queued track, C, loaded. *)
Definition lastLoadedStore : AudioStore.t := setCurrentIndex 2 sampleStore.

(** A fourth track. *)
Definition trackD : AudioTrack.t := sampleTrack 4 "D" "Song D" "Artist D".

(** ** Order of sorted tracks *)

(** [y] may directly follow [x] in a list sorted by [sortBy]: ascending, the
    value of [y] is not smaller than that of [x]; descending, not larger. *)
Definition in_order (toLowerCase : string -> string)
  (Date_getTime : string -> JS.number) (sortBy : SortKey)
  (sortOrder : SortOrder) (x y : AudioTrack.t) : Prop :=
  let value := audioUtils.sortValueOf toLowerCase Date_getTime sortBy in
  match sortOrder with
  | asc => audioUtils.value_ltb (value y) (value x)
  | desc => audioUtils.value_ltb (value x) (value y)
  end = false.

(** Stand-ins for the platform functions, for the samples. *)
Definition sameString (s : string) : string := s.
Definition noDate (_ : string) : JS.number := JS.NaN.

(** ** The position after a move *)

(** [s'] is [s] after [set({ currentIndex: i, currentTrack: queue[i],
    currentTime: 0 })]: the index is [i], the loaded track is the queued
    track at [i] ([undefined] when the queue has none there), the time is 0,
    and every other field is as it was. *)
Definition moved_to (i : Z) (s s' : AudioStore.t) : Prop :=
  currentIndex s' = i
  /\ currentTrack s' = JS.at_index (queue s) i
  /\ (0 <= i < JS.length (queue s) ->
      exists track,
        nth_error (queue s) (Z.to_nat i) = Some track
        /\ currentTrack s' = JS.obj track)
  /\ (i < 0 \/ JS.length (queue s) <= i -> currentTrack s' = JS.undefined)
  /\ currentTime s' = JS.Fin 0
  /\ queue s' = queue s
  /\ isPlaying s' = isPlaying s
  /\ isPaused s' = isPaused s
  /\ duration s' = duration s
  /\ volume s' = volume s
  /\ playbackRate s' = playbackRate s
  /\ repeatMode s' = repeatMode s
  /\ shuffleMode s' = shuffleMode s
  /\ playlists s' = playlists s
  /\ tracks s' = tracks s
  /\ filterOptions s' = filterOptions s.

(** Three tracks queued with repeat-all, two steps forward, then track B
    deleted from the collection: the queue is [A; C] and [currentIndex] is
    still 2. *)
Definition staleStore : AudioStore.t :=
  deleteTrack "B"
    (nextTrack 0
       (nextTrack 0
          (setQueue [trackA; trackB; trackC]
             (setRepeatMode all (initial 2024))))).

(** Track C deleted as well: the queue is [A] and [currentIndex] is still
    2. *)
Definition staleSingleStore : AudioStore.t := deleteTrack "C" staleStore.

(** Neither of the two tracks belongs before the other when sorting by
    [sortBy]: neither value is smaller, so the comparison function of
    [sortTracks] returns 0 for them. *)
Definition ties (toLowerCase : string -> string)
  (Date_getTime : string -> JS.number) (sortBy : SortKey)
  (x y : AudioTrack.t) : bool :=
  let value := audioUtils.sortValueOf toLowerCase Date_getTime sortBy in
  negb (audioUtils.value_ltb (value x) (value y))
  && negb (audioUtils.value_ltb (value y) (value x)).

(** Three tracks under one title. *)
Definition takeOne : AudioTrack.t := sampleTrack 5 "T1" "Song B" "Artist A".
Definition takeTwo : AudioTrack.t := sampleTrack 6 "T2" "Song B" "Artist C".

(* ------------------------------------------------------------------------- *)
(** * Properties: proofs *)

(** ** Queue traversal *)

Lemma length_zero_iff (A : Type) (l : list A) :
  (JS.length l =? 0) = true <-> l = [].
Proof.
  unfold JS.length. rewrite Z.eqb_eq. destruct l; simpl; split;
    intros H; try reflexivity; try discriminate; lia.
Qed.

Lemma length_nonempty (A : Type) (l : list A) :
  l <> [] -> (JS.length l =? 0) = false.
Proof.
  intros H. destruct (JS.length l =? 0) eqn:E; [|reflexivity].
  apply length_zero_iff in E. contradiction.
Qed.

Lemma RepeatMode_eqb_eq (a b : RepeatMode) :
  RepeatMode_eqb a b = true <-> a = b.
Proof. destruct a, b; simpl; split; congruence. Qed.

Lemma nextTrack_step (u : Q) (s : AudioStore.t) :
  shuffleMode s = false -> queue s <> [] ->
  currentIndex s + 1 < JS.length (queue s) ->
  nextTrack u s = moveTo (currentIndex s + 1) s.
Proof.
  intros Hsh Hq Hlt. unfold nextTrack.
  rewrite (length_nonempty _ _ Hq), Hsh.
  destruct (currentIndex s + 1 >=? JS.length (queue s)) eqn:E;
    [apply Z.geb_le in E; lia | reflexivity].
Qed.

Lemma nextTrack_wrap (u : Q) (s : AudioStore.t) :
  shuffleMode s = false -> queue s <> [] ->
  currentIndex s + 1 >= JS.length (queue s) ->
  repeatMode s = all ->
  nextTrack u s = moveTo 0 s.
Proof.
  intros Hsh Hq Hge Hall. unfold nextTrack.
  rewrite (length_nonempty _ _ Hq), Hsh, Hall. simpl.
  destruct (currentIndex s + 1 >=? JS.length (queue s)) eqn:E;
    [reflexivity | rewrite Z.geb_leb in E; apply Z.leb_gt in E; lia].
Qed.

Lemma nextTrack_end (u : Q) (s : AudioStore.t) :
  shuffleMode s = false ->
  currentIndex s + 1 >= JS.length (queue s) ->
  repeatMode s <> all ->
  nextTrack u s = s.
Proof.
  intros Hsh Hge Hrep. unfold nextTrack.
  destruct (JS.length (queue s) =? 0); [reflexivity|].
  rewrite Hsh.
  destruct (currentIndex s + 1 >=? JS.length (queue s)) eqn:E.
  - destruct (RepeatMode_eqb (repeatMode s) all) eqn:R; [|reflexivity].
    apply RepeatMode_eqb_eq in R. contradiction.
  - rewrite Z.geb_leb in E. apply Z.leb_gt in E. lia.
Qed.

Lemma nextTrack_empty (u : Q) (s : AudioStore.t) :
  queue s = [] -> nextTrack u s = s.
Proof.
  intros Hq. unfold nextTrack. rewrite Hq. reflexivity.
Qed.

Lemma nextTracks_app (us vs : list Q) (s : AudioStore.t) :
  nextTracks (us ++ vs) s = nextTracks vs (nextTracks us s).
Proof.
  revert s. induction us as [|u us IH]; intros s; simpl; auto.
Qed.

Lemma visited_app (us vs : list Q) (s : AudioStore.t) :
  visited (us ++ vs) s = visited us s ++ visited vs (nextTracks us s).
Proof.
  revert s. induction us as [|u us IH]; intros s; simpl; [reflexivity|].
  now rewrite IH.
Qed.

(** [k] calls that stay below the end of the queue walk up one by one. *)
Lemma nextTracks_climb (us : list Q) :
  forall (s : AudioStore.t) (i : nat),
    shuffleMode s = false -> queue s <> [] ->
    currentIndex s = Z.of_nat i ->
    (i + List.length us < List.length (queue s))%nat ->
    same_settings s (nextTracks us s)
    /\ currentIndex (nextTracks us s) = Z.of_nat (i + List.length us)
    /\ visited us s = map Z.of_nat (seq (S i) (List.length us)).
Proof.
  induction us as [|u us IH]; intros s i Hsh Hq Hi Hlt; simpl.
  - repeat split. rewrite Hi. f_equal. lia.
  - simpl in Hlt.
    assert (Hstep : nextTrack u s = moveTo (currentIndex s + 1) s).
    { apply nextTrack_step; auto. unfold JS.length. lia. }
    rewrite Hstep.
    destruct (IH (moveTo (currentIndex s + 1) s) (S i))
      as (Hsame & Hidx & Hvis);
      try (simpl; auto; lia).
    destruct Hsame as (Hq' & Hr' & Hs').
    repeat split; simpl in *; try congruence.
    + rewrite Hidx. f_equal. lia.
    + rewrite Hvis. f_equal. lia.
Qed.

Lemma split_length (A : Type) (l : list A) (a b : nat) :
  List.length l = (a + S b)%nat ->
  exists l1 x l2, l = l1 ++ x :: l2
                  /\ List.length l1 = a /\ List.length l2 = b.
Proof.
  intros H.
  assert (Hsk : List.length (skipn a l) = S b) by (rewrite length_skipn; lia).
  destruct (skipn a l) as [|x l2] eqn:E; [discriminate|].
  exists (firstn a l), x, l2. repeat split.
  - rewrite <- E. symmetry. apply firstn_skipn.
  - rewrite length_firstn. lia.
  - simpl in Hsk. lia.
Qed.

(** With repeat-all, as many calls as the queue is long go once round. *)
Lemma nextTracks_round (us : list Q) (s : AudioStore.t) :
  shuffleMode s = false -> repeatMode s = all -> queue s <> [] ->
  0 <= currentIndex s < JS.length (queue s) ->
  List.length us = List.length (queue s) ->
  Permutation (visited us s) (indices (queue s))
  /\ currentIndex (nextTracks us s) = currentIndex s.
Proof.
  intros Hsh Hall Hq Hrange Hlen.
  unfold JS.length in Hrange.
  set (n := List.length (queue s)) in *.
  set (i := Z.to_nat (currentIndex s)).
  assert (Hi : currentIndex s = Z.of_nat i) by (unfold i; lia).
  assert (Hin : (i < n)%nat) by lia.
  destruct (split_length _ us (n - 1 - i) i) as (us1 & u & us2 & -> & L1 & L2);
    [lia|].
  (* up to the last index *)
  destruct (nextTracks_climb us1 s i Hsh Hq Hi) as (S1 & I1 & V1);
    [fold n; lia|].
  destruct S1 as (Q1 & R1 & H1).
  set (s1 := nextTracks us1 s) in *.
  (* the wrap *)
  assert (W : nextTrack u s1 = moveTo 0 s1).
  { apply nextTrack_wrap; try congruence.
    rewrite I1, Q1. unfold JS.length. fold n. lia. }
  (* from index 0 back up to the start *)
  destruct (nextTracks_climb us2 (moveTo 0 s1) 0%nat) as (S2 & I2 & V2);
    simpl; try congruence; try (rewrite Q1; fold n; lia).
  split.
  - rewrite visited_app. fold s1. simpl. rewrite W, V1, V2. simpl.
    unfold indices. fold n. rewrite L1, L2.
    replace (seq 0 n) with (seq 0 (S i) ++ seq (S i) (n - 1 - i))
      by (rewrite <- seq_app; f_equal; lia).
    rewrite map_app. apply Permutation_app_comm.
  - rewrite nextTracks_app. fold s1. simpl. rewrite W, I2, L2, Hi.
    reflexivity.
Qed.

(** The fields of the state after [moveTo]. *)
Lemma moveTo_moved (i : Z) (s : AudioStore.t) : moved_to i s (moveTo i s).
Proof.
  unfold moved_to, moveTo, JS.at_index, JS.index, JS.length.
  cbn [currentIndex currentTrack currentTime queue isPlaying isPaused
       duration volume playbackRate repeatMode shuffleMode playlists tracks
       filterOptions with_currentTime with_currentTrack with_currentIndex].
  split; [reflexivity|]. split; [reflexivity|]. split; [|split].
  - intros [H0 H1]. destruct (i <? 0) eqn:E; [apply Z.ltb_lt in E; lia|].
    destruct (nth_error (queue s) (Z.to_nat i)) as [track|] eqn:N.
    + exists track. split; reflexivity.
    + apply nth_error_None in N. lia.
  - intros [H | H].
    + destruct (i <? 0) eqn:E; [reflexivity | apply Z.ltb_ge in E; lia].
    + destruct (i <? 0); [reflexivity|].
      destruct (nth_error (queue s) (Z.to_nat i)) eqn:N; [|reflexivity].
      assert (nth_error (queue s) (Z.to_nat i) <> None) as Hn by congruence.
      apply nth_error_Some in Hn. lia.
  - repeat split.
Qed.

(** C1, as the code has it.  With [shuffleMode] off, on a non-empty queue,
    [nextTrack] moves to [currentIndex + 1] below the last index, and at the
    end moves to index 0 when [repeatMode] is [all]: the index is the new
    one, the loaded track is the queued track there, the time is 0 and
    every other field is as it was.  At the end without repeat-all, and on
    an empty queue, it leaves the whole state as it is.  Hence, on a
    non-empty queue with repeat-all, started at an index of the queue,
    [len(queue)] calls visit every index once and end at the index they
    started from. *)
Theorem nextTrack_sequential (u : Q) (s : AudioStore.t) :
  shuffleMode s = false ->
  (queue s <> [] -> currentIndex s + 1 < JS.length (queue s) ->
   moved_to (currentIndex s + 1) s (nextTrack u s))
  /\ (queue s <> [] -> currentIndex s + 1 >= JS.length (queue s) ->
      repeatMode s = all -> moved_to 0 s (nextTrack u s))
  /\ (currentIndex s + 1 >= JS.length (queue s) ->
      repeatMode s <> all -> nextTrack u s = s)
  /\ (queue s = [] -> nextTrack u s = s)
  /\ (queue s <> [] -> repeatMode s = all ->
      0 <= currentIndex s < JS.length (queue s) ->
      forall us, List.length us = List.length (queue s) ->
        Permutation (visited us s) (indices (queue s))
        /\ currentIndex (nextTracks us s) = currentIndex s).
Proof.
  intros Hsh. split; [|split; [|split; [|split]]].
  - intros Hq Hlt. rewrite (nextTrack_step u s Hsh Hq Hlt).
    apply moveTo_moved.
  - intros Hq Hge Hall. rewrite (nextTrack_wrap u s Hsh Hq Hge Hall).
    apply moveTo_moved.
  - intros. now apply nextTrack_end.
  - intros. now apply nextTrack_empty.
  - intros Hq Hall Hrange us Hlen. now apply nextTracks_round.
Qed.

(** C1 on the sample queue of three tracks, started at index 1 with
    position 42 s: one call loads C at index 2 from its start, three calls
    lead through 2, 0 and 1. *)
Lemma nextTrack_sequential_witness :
  shuffleMode (seek (JS.Fin 42) loopingStore) = false
  /\ currentIndex (nextTrack 0 (seek (JS.Fin 42) loopingStore)) = 2
  /\ currentTrack (nextTrack 0 (seek (JS.Fin 42) loopingStore))
     = JS.obj trackC
  /\ currentTime (nextTrack 0 (seek (JS.Fin 42) loopingStore)) = JS.Fin 0
  /\ Permutation (visited [0; 0; 0]%Q (seek (JS.Fin 42) loopingStore))
       [0; 1; 2]
  /\ currentIndex (nextTracks [0; 0; 0]%Q (seek (JS.Fin 42) loopingStore))
     = 1.
Proof.
  destruct (nextTrack_sequential 0 (seek (JS.Fin 42) loopingStore) eq_refl)
    as (Hstep & _ & _ & _ & Hround).
  assert (Hq : queue (seek (JS.Fin 42) loopingStore) <> [])
    by discriminate.
  assert (Hlt : currentIndex (seek (JS.Fin 42) loopingStore) + 1
                < JS.length (queue (seek (JS.Fin 42) loopingStore)))
    by reflexivity.
  assert (Hrange : 0 <= currentIndex (seek (JS.Fin 42) loopingStore)
                   < JS.length (queue (seek (JS.Fin 42) loopingStore)))
    by (split; [discriminate | reflexivity]).
  destruct (Hstep Hq Hlt) as (Hi & Ht & _ & _ & Htime & _).
  destruct (Hround Hq eq_refl Hrange [0; 0; 0]%Q eq_refl) as (Hperm & Hback).
  split; [reflexivity|]. split; [exact Hi|]. split; [exact Ht|].
  split; [exact Htime|]. split; [exact Hperm | exact Hback].
Defined.

(** C1 as it is worded fails where [currentIndex] is not an index of the
    queue, a state the store reaches by itself: after three tracks were
    queued with repeat-all, two steps forward and the deletion of track B,
    the queue is [A; C] at index 2; the two calls of a round visit 0 and 1
    and end at index 1, not at index 2 where they started. *)
Lemma nextTrack_round_from_stale_index :
  queue staleStore = [trackA; trackC]
  /\ repeatMode staleStore = all
  /\ shuffleMode staleStore = false
  /\ currentIndex staleStore = 2
  /\ visited [0; 0]%Q staleStore = [0; 1]
  /\ currentIndex (nextTracks [0; 0]%Q staleStore) = 1
  /\ currentIndex (nextTracks [0; 0]%Q staleStore)
     <> currentIndex staleStore.
Proof.
  repeat split. discriminate.
Qed.

Lemma previousTrack_step (u : Q) (s : AudioStore.t) :
  shuffleMode s = false -> queue s <> [] ->
  currentIndex s - 1 >= 0 ->
  previousTrack u s = moveTo (currentIndex s - 1) s.
Proof.
  intros Hsh Hq Hge. unfold previousTrack.
  rewrite (length_nonempty _ _ Hq), Hsh.
  destruct (currentIndex s - 1 <? 0) eqn:E;
    [apply Z.ltb_lt in E; lia | reflexivity].
Qed.

Lemma previousTrack_wrap (u : Q) (s : AudioStore.t) :
  shuffleMode s = false -> queue s <> [] ->
  currentIndex s - 1 < 0 ->
  repeatMode s = all ->
  previousTrack u s = moveTo (JS.length (queue s) - 1) s.
Proof.
  intros Hsh Hq Hlt Hall. unfold previousTrack.
  rewrite (length_nonempty _ _ Hq), Hsh, Hall. simpl.
  destruct (currentIndex s - 1 <? 0) eqn:E;
    [reflexivity | apply Z.ltb_ge in E; lia].
Qed.

Lemma previousTrack_end (u : Q) (s : AudioStore.t) :
  shuffleMode s = false ->
  currentIndex s - 1 < 0 ->
  repeatMode s <> all ->
  previousTrack u s = s.
Proof.
  intros Hsh Hlt Hrep. unfold previousTrack.
  destruct (JS.length (queue s) =? 0); [reflexivity|].
  rewrite Hsh.
  destruct (currentIndex s - 1 <? 0) eqn:E.
  - destruct (RepeatMode_eqb (repeatMode s) all) eqn:R; [|reflexivity].
    apply RepeatMode_eqb_eq in R. contradiction.
  - apply Z.ltb_ge in E. lia.
Qed.

Lemma previousTrack_empty (u : Q) (s : AudioStore.t) :
  queue s = [] -> previousTrack u s = s.
Proof.
  intros Hq. unfold previousTrack. rewrite Hq. reflexivity.
Qed.

(** C2, as the code has it.  With [shuffleMode] off, on a non-empty queue,
    [previousTrack] moves to [currentIndex - 1] when that is not negative,
    and otherwise moves to [len(queue) - 1] when [repeatMode] is [all]: the
    index is the new one, the loaded track is the queued track there
    ([undefined] where the queue has none), the time is 0 and every other
    field is as it was.  Below index 1 without repeat-all, and on an empty
    queue, it leaves the whole state as it is.  On a single-track queue
    with repeat-all, [nextTrack] moves to index 0 from every
    [currentIndex >= -1] and [previousTrack] from every
    [currentIndex <= 1], so both do at the only index of the queue; from a
    larger [currentIndex], [previousTrack] moves to [currentIndex - 1],
    where nothing is queued. *)
Theorem previousTrack_sequential (u : Q) (s : AudioStore.t) :
  shuffleMode s = false ->
  (queue s <> [] -> currentIndex s - 1 >= 0 ->
   moved_to (currentIndex s - 1) s (previousTrack u s))
  /\ (queue s <> [] -> currentIndex s - 1 < 0 -> repeatMode s = all ->
      moved_to (JS.length (queue s) - 1) s (previousTrack u s))
  /\ (currentIndex s - 1 < 0 -> repeatMode s <> all ->
      previousTrack u s = s)
  /\ (queue s = [] -> previousTrack u s = s)
  /\ (JS.length (queue s) = 1 -> repeatMode s = all ->
      (-1 <= currentIndex s -> moved_to 0 s (nextTrack u s))
      /\ (currentIndex s <= 1 -> moved_to 0 s (previousTrack u s))
      /\ (2 <= currentIndex s ->
          currentIndex (previousTrack u s) = currentIndex s - 1
          /\ currentTrack (previousTrack u s) = JS.undefined)).
Proof.
  intros Hsh. split; [|split; [|split; [|split]]].
  - intros Hq Hge. rewrite (previousTrack_step u s Hsh Hq Hge).
    apply moveTo_moved.
  - intros Hq Hlt Hall. rewrite (previousTrack_wrap u s Hsh Hq Hlt Hall).
    apply moveTo_moved.
  - intros. now apply previousTrack_end.
  - intros. now apply previousTrack_empty.
  - intros Hlen Hall.
    assert (Hq : queue s <> [])
      by (intros E; rewrite E in Hlen; discriminate).
    split; [|split].
    + intros Hi.
      destruct (Z_lt_ge_dec (currentIndex s + 1) (JS.length (queue s)))
        as [Hlt | Hge].
      * rewrite (nextTrack_step u s Hsh Hq Hlt).
        replace (currentIndex s + 1) with 0 by lia. apply moveTo_moved.
      * rewrite (nextTrack_wrap u s Hsh Hq Hge Hall). apply moveTo_moved.
    + intros Hi.
      destruct (Z_lt_ge_dec (currentIndex s - 1) 0) as [Hlt | Hge].
      * rewrite (previousTrack_wrap u s Hsh Hq Hlt Hall).
        replace (JS.length (queue s) - 1) with 0 by lia.
        apply moveTo_moved.
      * rewrite (previousTrack_step u s Hsh Hq Hge).
        replace (currentIndex s - 1) with 0 by lia. apply moveTo_moved.
    + intros Hi.
      assert (Hge : currentIndex s - 1 >= 0) by lia.
      rewrite (previousTrack_step u s Hsh Hq Hge).
      destruct (moveTo_moved (currentIndex s - 1) s)
        as (Hidx & _ & _ & Hout & _).
      split; [exact Hidx|]. apply Hout. right. lia.
Qed.

(** C2 on the sample queue at index 1 with position 42 s (one step back
    loads A at index 0 from its start), at index 0 with repeat-all (the
    step back loads C at index 2), and on a single-track queue. *)
Lemma previousTrack_sequential_witness :
  shuffleMode (seek (JS.Fin 42) loopingStore) = false
  /\ currentIndex (previousTrack 0 (seek (JS.Fin 42) loopingStore)) = 0
  /\ currentTrack (previousTrack 0 (seek (JS.Fin 42) loopingStore))
     = JS.obj trackA
  /\ currentTime (previousTrack 0 (seek (JS.Fin 42) loopingStore))
     = JS.Fin 0
  /\ currentIndex (previousTrack 0 (setRepeatMode all sampleStore)) = 2
  /\ currentTrack (previousTrack 0 (setRepeatMode all sampleStore))
     = JS.obj trackC
  /\ currentIndex (nextTrack 0 singleStore) = 0
  /\ currentTrack (nextTrack 0 singleStore) = JS.obj trackA
  /\ currentIndex (previousTrack 0 singleStore) = 0
  /\ currentTrack (previousTrack 0 singleStore) = JS.obj trackA.
Proof.
  destruct (previousTrack_sequential 0 (seek (JS.Fin 42) loopingStore)
              eq_refl) as (Hstep & _).
  destruct (previousTrack_sequential 0 (setRepeatMode all sampleStore)
              eq_refl) as (_ & Hwrap & _).
  destruct (previousTrack_sequential 0 singleStore eq_refl)
    as (_ & _ & _ & _ & Hsingle).
  assert (Hq : queue (seek (JS.Fin 42) loopingStore) <> [])
    by discriminate.
  assert (Hge : currentIndex (seek (JS.Fin 42) loopingStore) - 1 >= 0)
    by discriminate.
  assert (Hq' : queue (setRepeatMode all sampleStore) <> [])
    by discriminate.
  assert (Hlt : currentIndex (setRepeatMode all sampleStore) - 1 < 0)
    by reflexivity.
  assert (Hn1 : -1 <= currentIndex singleStore) by discriminate.
  assert (Hp1 : currentIndex singleStore <= 1) by discriminate.
  destruct (Hstep Hq Hge) as (Hi & Ht & _ & _ & Htime & _).
  destruct (Hwrap Hq' Hlt eq_refl) as (Hi' & Ht' & _).
  destruct (Hsingle eq_refl eq_refl) as (Hn & Hp & _).
  destruct (Hn Hn1) as (Hni & Hnt & _).
  destruct (Hp Hp1) as (Hpi & Hpt & _).
  split; [reflexivity|]. split; [exact Hi|]. split; [exact Ht|].
  split; [exact Htime|]. split; [exact Hi'|]. split; [exact Ht'|].
  split; [exact Hni|]. split; [exact Hnt|]. split; [exact Hpi|].
  exact Hpt.
Defined.

(** C2 as it is worded fails on a single-track queue whose [currentIndex]
    is not its index, a state the store reaches by itself: after three
    tracks were queued with repeat-all, two steps forward and the deletion
    of tracks B and C, the queue is [A] at index 2; [previousTrack] then
    sets the index to 1, not 0, and loads nothing. *)
Lemma previousTrack_single_from_stale_index :
  queue staleSingleStore = [trackA]
  /\ JS.length (queue staleSingleStore) = 1
  /\ repeatMode staleSingleStore = all
  /\ shuffleMode staleSingleStore = false
  /\ currentIndex staleSingleStore = 2
  /\ currentIndex (previousTrack 0 staleSingleStore) = 1
  /\ currentIndex (previousTrack 0 staleSingleStore) <> 0
  /\ currentTrack (previousTrack 0 staleSingleStore) = JS.undefined.
Proof.
  repeat split. discriminate.
Qed.

(** ** Volume and playback rate *)

Lemma Qltb_lt (a b : Q) : JS.Qltb a b = true <-> (a < b)%Q.
Proof.
  unfold JS.Qltb. rewrite negb_true_iff. split; intros H.
  - apply Qnot_le_lt. intros Hle. apply Qle_bool_iff in Hle. congruence.
  - destruct (Qle_bool b a) eqn:E; [|reflexivity].
    apply Qle_bool_iff in E. exfalso. exact (Qlt_not_le _ _ H E).
Qed.

Lemma Qltb_ge (a b : Q) : JS.Qltb a b = false <-> (b <= a)%Q.
Proof.
  unfold JS.Qltb. rewrite negb_false_iff. apply Qle_bool_iff.
Qed.

(** A comparison of rationals, turned into the order fact it stands for. *)
Ltac qcompare a b :=
  let C := fresh "C" in
  destruct (a ?= b)%Q eqn:C;
  [apply Qeq_alt in C | apply Qlt_alt in C | apply Qgt_alt in C].

Lemma Math_max_Fin (a b : Q) :
  JS.Math_max (JS.Fin a) (JS.Fin b) = JS.Fin (Qmax a b).
Proof.
  unfold JS.Math_max, Qmax, GenericMinMax.gmax.
  cbn [JS.is_nan orb JS.ltb].
  destruct (JS.Qltb a b) eqn:E.
  - apply Qltb_lt in E. qcompare a b; try reflexivity; lra.
  - apply Qltb_ge in E. qcompare a b; try reflexivity; lra.
Qed.

Lemma Math_min_Fin (a b : Q) :
  JS.Math_min (JS.Fin a) (JS.Fin b) = JS.Fin (Qmin a b).
Proof.
  unfold JS.Math_min, Qmin, GenericMinMax.gmin.
  cbn [JS.is_nan orb JS.ltb].
  destruct (JS.Qltb b a) eqn:E.
  - apply Qltb_lt in E. qcompare a b; try reflexivity; lra.
  - apply Qltb_ge in E. qcompare a b; try reflexivity; lra.
Qed.

(** [Math.min(Math.max(v, lo), hi)] is the clamp of the specification. *)
Lemma Math_min_max_clamp (lo hi : Q) (v : JS.number) :
  JS.Math_min (JS.Math_max v (JS.Fin lo)) (JS.Fin hi) = clamp lo hi v.
Proof.
  destruct v as [| |q|]; unfold clamp.
  - reflexivity.
  - change (JS.Math_max JS.NegInf (JS.Fin lo)) with (JS.Fin lo).
    apply Math_min_Fin.
  - rewrite Math_max_Fin. apply Math_min_Fin.
  - reflexivity.
Qed.

(** The clamp of a finite number lies between the bounds; it is the number
    itself when that lies between them, and the bound it passes
    otherwise. *)
Lemma clamp_range (lo hi q : Q) :
  (lo <= hi)%Q ->
  exists c, clamp lo hi (JS.Fin q) = JS.Fin c /\ (lo <= c <= hi)%Q
            /\ ((lo <= q <= hi)%Q -> c = q)
            /\ ((q < lo)%Q -> c = lo) /\ ((hi < q)%Q -> c = hi).
Proof.
  intros Hle. exists (Qmin (Qmax q lo) hi). split; [reflexivity|].
  unfold Qmin, Qmax, GenericMinMax.gmin, GenericMinMax.gmax.
  qcompare q lo.
  - qcompare q hi; repeat split; intros; try reflexivity; lra.
  - qcompare lo hi; repeat split; intros; try reflexivity; lra.
  - qcompare q hi; repeat split; intros; try reflexivity; lra.
Qed.


(** ** The transport flags *)

Lemma nextTrack_flags (u : Q) (s : AudioStore.t) :
  isPlaying (nextTrack u s) = isPlaying s
  /\ isPaused (nextTrack u s) = isPaused s.
Proof.
  unfold nextTrack.
  destruct (JS.length (queue s) =? 0), (shuffleMode s),
    (currentIndex s + 1 >=? JS.length (queue s)),
    (RepeatMode_eqb (repeatMode s) all); split; reflexivity.
Qed.

Lemma previousTrack_flags (u : Q) (s : AudioStore.t) :
  isPlaying (previousTrack u s) = isPlaying s
  /\ isPaused (previousTrack u s) = isPaused s.
Proof.
  unfold previousTrack.
  destruct (JS.length (queue s) =? 0), (shuffleMode s),
    (currentIndex s - 1 <? 0),
    (RepeatMode_eqb (repeatMode s) all); split; reflexivity.
Qed.

Lemma dispatch_exclusive (a : action) (s : AudioStore.t) :
  exclusive_flags s -> exclusive_flags (dispatch a s).
Proof.
  unfold exclusive_flags. intros H.
  destruct a; simpl; try assumption; try reflexivity.
  - (* togglePlayPause *) destruct (isPlaying s); reflexivity.
  - (* nextTrack *)
    destruct (nextTrack_flags u s) as [-> ->]. assumption.
  - (* previousTrack *)
    destruct (previousTrack_flags u s) as [-> ->]. assumption.
Qed.

Lemma dispatches_exclusive (acts : list action) (s : AudioStore.t) :
  exclusive_flags s -> exclusive_flags (dispatches acts s).
Proof.
  revert s. induction acts as [|a acts IH]; intros s H; simpl.
  - assumption.
  - apply IH, dispatch_exclusive, H.
Qed.

(** C9. [isPlaying] and [isPaused] are never both true: the store starts
    with neither, every action of the store keeps "not both" from any state
    that has it, so every state reached from the initial one (also after a
    restart) has it; and [stop] gives the stopped state, with both flags
    false and [currentTime] 0, and leaves [currentTrack] and [queue] as
    they are. *)
Theorem exclusive_flags_invariant (thisYear : Z) (a : action)
  (acts : list action) (s : AudioStore.t) :
  exclusive_flags (initial thisYear)
  /\ (exclusive_flags s -> exclusive_flags (dispatch a s))
  /\ exclusive_flags (dispatches acts (initial thisYear))
  /\ exclusive_flags (restart thisYear s)
  /\ isPlaying (stop s) = false
  /\ isPaused (stop s) = false
  /\ currentTime (stop s) = JS.Fin 0
  /\ currentTrack (stop s) = currentTrack s
  /\ queue (stop s) = queue s.
Proof.
  split; [reflexivity|].
  split; [apply dispatch_exclusive|].
  split; [apply dispatches_exclusive; reflexivity|].
  repeat split.
Qed.

(** C9 on the playing sample store. *)
Lemma exclusive_flags_invariant_witness :
  exclusive_flags playingStore
  /\ exclusive_flags (dispatch TogglePlayPause playingStore)
  /\ exclusive_flags (dispatch ClearQueue playingStore).
Proof.
  assert (H : exclusive_flags playingStore) by reflexivity.
  split; [exact H|]. split.
  - exact (proj1 (proj2
      (exclusive_flags_invariant 2024 TogglePlayPause [] playingStore)) H).
  - exact (proj1 (proj2
      (exclusive_flags_invariant 2024 ClearQueue [] playingStore)) H).
Defined.

(** ** Adding a track to a playlist *)

Lemma includes_appended (l : list Playlist.entry) (trackId : string) :
  Playlist.includes (l ++ [Some trackId]) trackId = true.
Proof.
  unfold Playlist.includes. rewrite existsb_app. simpl.
  rewrite String.eqb_refl. now rewrite orb_true_r.
Qed.

(** C10. [addTrackToPlaylist] does not append an id a playlist already
    holds: the track list of a playlist that contains [trackId] is the same
    after the call, and a second call with the same arguments leaves every
    track list as the first call made it. *)
Theorem addTrackToPlaylist_idempotent
  (playlistId trackId now now' : string) (s : AudioStore.t)
  (k : nat) (p : Playlist.t) :
  nth_error (playlists s) k = Some p ->
  Playlist.includes (Playlist.tracks p) trackId = true ->
  (exists p',
      nth_error (playlists (addTrackToPlaylist playlistId trackId now s)) k
      = Some p'
      /\ Playlist.tracks p' = Playlist.tracks p
      /\ Playlist.id p' = Playlist.id p)
  /\ map Playlist.tracks
       (playlists (addTrackToPlaylist playlistId trackId now'
                     (addTrackToPlaylist playlistId trackId now s)))
     = map Playlist.tracks
         (playlists (addTrackToPlaylist playlistId trackId now s)).
Proof.
  intros Hk Hin. split.
  - unfold addTrackToPlaylist. simpl.
    rewrite nth_error_map, Hk. simpl.
    eexists. split; [reflexivity|].
    destruct (String.eqb (Playlist.id p) playlistId); simpl.
    + now rewrite Hin.
    + split; reflexivity.
  - unfold addTrackToPlaylist. simpl.
    rewrite !map_map. apply map_ext. intros q.
    destruct (String.eqb (Playlist.id q) playlistId) eqn:E; simpl.
    + rewrite E. simpl.
      destruct (Playlist.includes (Playlist.tracks q) trackId) eqn:I.
      * now rewrite I.
      * now rewrite includes_appended.
    + now rewrite E.
Qed.

(** C10 on the sample playlist, which lists "B" already. *)
Lemma addTrackToPlaylist_idempotent_witness :
  nth_error (playlists sampleStore) 0 = Some playlistABC
  /\ Playlist.includes (Playlist.tracks playlistABC) "B" = true
  /\ exists p',
      nth_error
        (playlists (addTrackToPlaylist "p1" "B" "2024-02-02" sampleStore)) 0
      = Some p'
      /\ Playlist.tracks p' = Playlist.tracks playlistABC
      /\ Playlist.id p' = Playlist.id playlistABC.
Proof.
  split; [reflexivity|]. split; [reflexivity|].
  exact (proj1 (addTrackToPlaylist_idempotent "p1" "B" "2024-02-02"
                  "2024-02-03" sampleStore 0 playlistABC
                  eq_refl eq_refl)).
Defined.

(** ** Deleting a track *)

(** What [deleteTrack] does: no track with the id is left in the collection
    or in the queue, [currentTrack] becomes [null] when it had the id and is
    kept otherwise, and the playlists are the ones before the call. *)
Lemma deleteTrack_effect (id : string) (s : AudioStore.t) :
  (forall track, In track (tracks (deleteTrack id s)) ->
                 AudioTrack.id track <> id)
  /\ (forall track, In track (queue (deleteTrack id s)) ->
                    AudioTrack.id track <> id)
  /\ (currentTrack_has_id s id = true ->
      currentTrack (deleteTrack id s) = JS.null)
  /\ (currentTrack_has_id s id = false ->
      currentTrack (deleteTrack id s) = currentTrack s)
  /\ playlists (deleteTrack id s) = playlists s.
Proof.
  unfold deleteTrack. simpl. repeat split.
  - intros track Hin. apply filter_In in Hin. destruct Hin as [_ Hk].
    apply negb_true_iff, String.eqb_neq in Hk. exact Hk.
  - intros track Hin. apply filter_In in Hin. destruct Hin as [_ Hk].
    apply negb_true_iff, String.eqb_neq in Hk. exact Hk.
  - intros ->. reflexivity.
  - intros ->. reflexivity.
Qed.

(** C7, on the sample store with track A loaded: [deleteTrack("A")] takes
    the track out of the collection and of the queue and clears
    [currentTrack], but the playlist that lists "A" lists it still. *)
Lemma deleteTrack_leaves_playlists :
  trackById "A" (deleteTrack "A" loadedStore) = None
  /\ queue (deleteTrack "A" loadedStore) = [trackB; trackC]
  /\ currentTrack loadedStore = JS.obj trackA
  /\ currentTrack (deleteTrack "A" loadedStore) = JS.null
  /\ playlistTracks loadedStore = [[Some "A"; Some "B"; Some "C"]]%string
  /\ playlistTracks (deleteTrack "A" loadedStore)
     = [[Some "A"; Some "B"; Some "C"]]%string.
Proof. repeat split. Qed.

(** ** What the persist middleware keeps *)

Lemma partialize_eq_iff (s s' : AudioStore.t) :
  partialize s = partialize s'
  <-> volume s = volume s' /\ repeatMode s = repeatMode s'
      /\ shuffleMode s = shuffleMode s' /\ playlists s = playlists s'
      /\ tracks s = tracks s' /\ filterOptions s = filterOptions s'.
Proof.
  unfold partialize. split.
  - intros H. injection H as -> -> -> -> -> ->. repeat split.
  - intros (-> & -> & -> & -> & -> & ->). reflexivity.
Qed.

(** C4, as the code has it.  What survives a restart is exactly [volume],
    [repeatMode], [shuffleMode], [playlists], [tracks] and [filterOptions]:
    these come back as they were, every other field (among them
    [playbackRate], [currentTime] and [currentTrack]) comes back with its
    initial value, and two states are written alike exactly when they agree
    on the six. *)
Theorem restart_keeps_six_fields (thisYear : Z) (s s' : AudioStore.t) :
  (volume (restart thisYear s) = volume s
   /\ repeatMode (restart thisYear s) = repeatMode s
   /\ shuffleMode (restart thisYear s) = shuffleMode s
   /\ playlists (restart thisYear s) = playlists s
   /\ tracks (restart thisYear s) = tracks s
   /\ filterOptions (restart thisYear s) = filterOptions s)
  /\ (playbackRate (restart thisYear s) = JS.Fin 1
      /\ currentTime (restart thisYear s) = JS.Fin 0
      /\ currentTrack (restart thisYear s) = JS.null
      /\ isPlaying (restart thisYear s) = false
      /\ isPaused (restart thisYear s) = false
      /\ duration (restart thisYear s) = JS.Fin 0
      /\ queue (restart thisYear s) = []
      /\ currentIndex (restart thisYear s) = 0)
  /\ (partialize s = partialize s'
      <-> volume s = volume s' /\ repeatMode s = repeatMode s'
          /\ shuffleMode s = shuffleMode s' /\ playlists s = playlists s'
          /\ tracks s = tracks s' /\ filterOptions s = filterOptions s').
Proof.
  split; [repeat split|]. split; [repeat split|].
  apply partialize_eq_iff.
Qed.

(** C4 fails for [playbackRate]: a store set to double speed comes back at
    speed 1. *)
Lemma playbackRate_not_persisted :
  playbackRate fastStore = JS.Fin 2
  /\ playbackRate (restart 2024 fastStore) = JS.Fin 1
  /\ playbackRate (restart 2024 fastStore) <> playbackRate fastStore.
Proof.
  split; [reflexivity|]. split; [reflexivity|].
  vm_compute. congruence.
Qed.

(** ** Reordering a playlist *)

Lemma around_middle (A : Type) (l1 l2 : list A) (x : A) :
  firstn (List.length l1) (l1 ++ x :: l2) = l1
  /\ skipn (List.length l1) (l1 ++ x :: l2) = x :: l2
  /\ skipn (S (List.length l1)) (l1 ++ x :: l2) = l2.
Proof.
  assert (K : skipn (List.length l1) (l1 ++ x :: l2) = x :: l2).
  { rewrite skipn_app, Nat.sub_diag, skipn_all. reflexivity. }
  repeat split.
  - rewrite firstn_app, Nat.sub_diag, firstn_all. simpl.
    apply app_nil_r.
  - exact K.
  - change (S (List.length l1)) with (1 + List.length l1)%nat.
    rewrite <- skipn_skipn, K. reflexivity.
Qed.

(** [splice(from, 1)] at an index of the array takes out the element
    there. *)
Lemma splice_remove (A : Type) (l : list A) (from : Z) (x : A) :
  0 <= from < JS.length l ->
  nth_error l (Z.to_nat from) = Some x ->
  JS.splice l from 1 [] = (remove_at (Z.to_nat from) l, [x]).
Proof.
  intros Hr Hx. unfold JS.splice, JS.length in *.
  destruct (from <? 0) eqn:E; [apply Z.ltb_lt in E; lia|].
  rewrite Z.min_l by lia.
  replace (Z.min (Z.max 1 0) (Z.of_nat (List.length l) - from)) with 1
    by lia.
  change (Z.to_nat 1) with 1%nat.
  apply nth_error_split in Hx. destruct Hx as (l1 & l2 & Hl & Hlen).
  unfold remove_at. rewrite <- Hlen. subst l.
  destruct (around_middle _ l1 l2 x) as (F & K & K').
  rewrite F, K, K'. reflexivity.
Qed.

(** [splice(to, 0, x)] at an index up to the length puts [x] in there. *)
Lemma splice_insert (A : Type) (l : list A) (to : Z) (x : A) :
  0 <= to <= JS.length l ->
  fst (JS.splice l to 0 [x]) = insert_at (Z.to_nat to) x l.
Proof.
  intros Hr. unfold JS.splice, JS.length in *.
  destruct (to <? 0) eqn:E; [apply Z.ltb_lt in E; lia|].
  rewrite Z.min_l by lia.
  replace (Z.min (Z.max 0 0) (Z.of_nat (List.length l) - to)) with 0 by lia.
  reflexivity.
Qed.

Lemma remove_at_length (A : Type) (k : nat) (l : list A) :
  (k < List.length l)%nat ->
  List.length (remove_at k l) = (List.length l - 1)%nat.
Proof.
  intros H. unfold remove_at.
  rewrite length_app, length_firstn, length_skipn. lia.
Qed.

Lemma remove_at_insert_at (A : Type) (k : nat) (x : A) (l : list A) :
  (k <= List.length l)%nat ->
  remove_at k (insert_at k x l) = l.
Proof.
  intros H. unfold remove_at, insert_at.
  assert (Hk : List.length (firstn k l) = k)
    by (rewrite length_firstn; lia).
  destruct (around_middle _ (firstn k l) (skipn k l) x) as (F & _ & K').
  rewrite Hk in F, K'. rewrite F, K'. apply firstn_skipn.
Qed.

Lemma nth_error_insert_at (A : Type) (k : nat) (x : A) (l : list A) :
  (k <= List.length l)%nat ->
  nth_error (insert_at k x l) k = Some x.
Proof.
  intros H. unfold insert_at.
  rewrite nth_error_app2 by (rewrite length_firstn; lia).
  rewrite length_firstn, Nat.min_l by lia.
  now rewrite Nat.sub_diag.
Qed.

(** For indices of the list, [moveEntry] takes the element at [fromIndex]
    out and puts it in at [toIndex]. *)
Lemma moveEntry_valid (l : list Playlist.entry) (fromIndex toIndex : Z)
  (x : Playlist.entry) :
  0 <= fromIndex < JS.length l -> 0 <= toIndex < JS.length l ->
  nth_error l (Z.to_nat fromIndex) = Some x ->
  usePlaylist.moveEntry l fromIndex toIndex
  = insert_at (Z.to_nat toIndex) x (remove_at (Z.to_nat fromIndex) l).
Proof.
  intros Hf Ht Hx. unfold usePlaylist.moveEntry.
  rewrite (splice_remove _ l fromIndex x Hf Hx).
  apply splice_insert.
  unfold JS.length in *. rewrite remove_at_length by lia. lia.
Qed.

Lemma insert_at_Permutation (A : Type) (k : nat) (x : A) (l : list A) :
  Permutation (insert_at k x l) (x :: l).
Proof.
  unfold insert_at. rewrite <- (firstn_skipn k l) at 3.
  symmetry. apply Permutation_middle.
Qed.

Lemma remove_at_Permutation (A : Type) (k : nat) (x : A) (l : list A) :
  nth_error l k = Some x -> Permutation (x :: remove_at k l) l.
Proof.
  intros Hx. apply nth_error_split in Hx.
  destruct Hx as (l1 & l2 & -> & <-). unfold remove_at.
  destruct (around_middle _ l1 l2 x) as (F & _ & K'). rewrite F, K'.
  apply Permutation_middle.
Qed.

(** [updatePlaylist] with new tracks, seen from the playlist found by id. *)
Lemma find_updated (playlistId now : string)
  (newTracks : list Playlist.entry) (l : list Playlist.t) :
  find (fun q => String.eqb (Playlist.id q) playlistId)
    (map (fun q =>
            if String.eqb (Playlist.id q) playlistId
            then Playlist.spread q (tracksUpdate newTracks) now
            else q) l)
  = option_map (fun q => Playlist.spread q (tracksUpdate newTracks) now)
      (find (fun q => String.eqb (Playlist.id q) playlistId) l).
Proof.
  induction l as [|q l IH]; simpl; [reflexivity|].
  destruct (String.eqb (Playlist.id q) playlistId) eqn:E; simpl.
  - now rewrite E.
  - now rewrite E.
Qed.

(** C5, as the code has it.  For a playlist that exists and two indices of
    its track list, [reorderTracks] moves one entry: the entry that was at
    [fromIndex] is at [toIndex], the other entries keep their order (the
    list without the moved entry is the same before and after), no entry is
    lost or added, the other playlists and the rest of the state are
    untouched; [reorderTracks(p, 0, 2)] turns [A, B, C] into [B, C, A]. *)
Theorem reorderTracks_moves_one_entry
  (playlistId : string) (fromIndex toIndex : Z) (now : string)
  (s : AudioStore.t) (p : Playlist.t) :
  usePlaylist.getPlaylistById playlistId s = Some p ->
  0 <= fromIndex < JS.length (Playlist.tracks p) ->
  0 <= toIndex < JS.length (Playlist.tracks p) ->
  let moved := usePlaylist.moveEntry (Playlist.tracks p) fromIndex toIndex in
  let s' := usePlaylist.reorderTracks playlistId fromIndex toIndex now s in
  tracksOfPlaylist playlistId s' = Some moved
  /\ JS.index moved toIndex = JS.index (Playlist.tracks p) fromIndex
  /\ remove_at (Z.to_nat toIndex) moved
     = remove_at (Z.to_nat fromIndex) (Playlist.tracks p)
  /\ Permutation moved (Playlist.tracks p)
  /\ (forall k q, nth_error (playlists s) k = Some q ->
                  Playlist.id q <> playlistId ->
                  nth_error (playlists s') k = Some q)
  /\ s' = with_playlists (playlists s') s
  /\ usePlaylist.moveEntry [Some "A"; Some "B"; Some "C"]%string 0 2
     = [Some "B"; Some "C"; Some "A"]%string.
Proof.
  intros Hp Hf Ht moved s'.
  assert (Hs' : s' = updatePlaylist playlistId (tracksUpdate moved) now s).
  { unfold s', usePlaylist.reorderTracks. rewrite Hp. reflexivity. }
  destruct (nth_error (Playlist.tracks p) (Z.to_nat fromIndex)) as [x|] eqn:Hx.
  2:{ apply nth_error_None in Hx. unfold JS.length in Hf. lia. }
  assert (Hm : moved = insert_at (Z.to_nat toIndex) x
                         (remove_at (Z.to_nat fromIndex) (Playlist.tracks p)))
    by (apply moveEntry_valid; assumption).
  assert (Hlen : (Z.to_nat toIndex
                  <= List.length (remove_at (Z.to_nat fromIndex)
                                    (Playlist.tracks p)))%nat).
  { unfold JS.length in *. rewrite remove_at_length by lia. lia. }
  repeat split.
  - rewrite Hs'. unfold tracksOfPlaylist, usePlaylist.getPlaylistById,
      updatePlaylist. simpl. rewrite find_updated.
    unfold usePlaylist.getPlaylistById in Hp. rewrite Hp. reflexivity.
  - unfold JS.index.
    destruct (toIndex <? 0) eqn:E1; [apply Z.ltb_lt in E1; lia|].
    destruct (fromIndex <? 0) eqn:E2; [apply Z.ltb_lt in E2; lia|].
    rewrite Hx, Hm. now apply nth_error_insert_at.
  - rewrite Hm. now apply remove_at_insert_at.
  - rewrite Hm. rewrite insert_at_Permutation.
    now apply remove_at_Permutation.
  - intros k q Hk Hid. rewrite Hs'. unfold updatePlaylist. simpl.
    rewrite nth_error_map, Hk. simpl.
    apply String.eqb_neq in Hid. now rewrite Hid.
  - rewrite Hs'. reflexivity.
Qed.

(** C5 on the sample playlist: entry 0 moved to position 2. *)
Lemma reorderTracks_moves_one_entry_witness :
  usePlaylist.getPlaylistById "p1" sampleStore = Some playlistABC
  /\ tracksOfPlaylist "p1"
       (usePlaylist.reorderTracks "p1" 0 2 "2024-02-02" sampleStore)
     = Some [Some "B"; Some "C"; Some "A"]%string.
Proof.
  split; [reflexivity|].
  refine (proj1 (reorderTracks_moves_one_entry "p1" 0 2 "2024-02-02"
                   sampleStore playlistABC eq_refl _ _));
    vm_compute; split; congruence.
Defined.

(** C5 fails outside the range: [reorderTracks(p, 0, 5)] on [A, B, C] is
    not refused, [splice] puts the entry at the end. *)
Lemma reorderTracks_out_of_range :
  tracksOfPlaylist "p1" sampleStore
  = Some [Some "A"; Some "B"; Some "C"]%string
  /\ tracksOfPlaylist "p1"
       (usePlaylist.reorderTracks "p1" 0 5 "2024-02-02" sampleStore)
     = Some [Some "B"; Some "C"; Some "A"]%string
  /\ usePlaylist.reorderTracks "p1" 0 5 "2024-02-02" sampleStore
     <> sampleStore.
Proof.
  split; [reflexivity|]. split; [reflexivity|].
  intros H. apply (f_equal (tracksOfPlaylist "p1")) in H.
  vm_compute in H. congruence.
Qed.

(** Other indices outside the range: a negative [fromIndex] counts from the
    end, and one past the end moves nothing and inserts [undefined]. *)
Lemma reorderTracks_other_out_of_range :
  usePlaylist.moveEntry [Some "A"; Some "B"; Some "C"]%string (-1) 0
  = [Some "C"; Some "A"; Some "B"]%string
  /\ usePlaylist.moveEntry [Some "A"; Some "B"; Some "C"]%string 7 0
     = [None; Some "A"; Some "B"; Some "C"]%string.
Proof. split; reflexivity. Qed.

(** ** Export and import of a playlist *)

Lemma includes_In (l : list Playlist.entry) (trackId : string) :
  Playlist.includes l trackId = true <-> In (Some trackId) l.
Proof.
  unfold Playlist.includes. rewrite existsb_exists. split.
  - intros (e & Hin & He). destruct e as [x|]; simpl in He;
      [|discriminate].
    apply String.eqb_eq in He. now subst.
  - intros Hin. exists (Some trackId). split; [assumption|].
    simpl. apply String.eqb_refl.
Qed.

Lemma importedTracks_ids (e : usePlaylist.env)
  (l : list usePlaylist.trackData) :
  forall (k : nat) (track : AudioTrack.t),
    In track (usePlaylist.importedTracks_from e k l) ->
    exists j, AudioTrack.id track = usePlaylist.generateId e j.
Proof.
  induction l as [|td l IH]; intros k track Hin; simpl in Hin.
  - contradiction.
  - destruct Hin as [<- | Hin]; [exists k; reflexivity|].
    now apply (IH (S k)).
Qed.

Lemma find_app_none (A : Type) (f : A -> bool) (l1 l2 : list A) :
  find f l1 = None -> find f (l1 ++ l2) = find f l2.
Proof.
  induction l1 as [|a l1 IH]; simpl; [reflexivity|].
  destruct (f a); [discriminate | exact IH].
Qed.

Lemma filter_nothing (A : Type) (f : A -> bool) (l : list A) :
  (forall a, In a l -> f a = false) -> filter f l = [].
Proof.
  induction l as [|a l IH]; intros H; simpl; [reflexivity|].
  rewrite (H a (or_introl eq_refl)). apply IH.
  intros b Hb. apply H. now right.
Qed.

(** When the generated ids are new (no stored track and no playlist has
    one of them), [importPlaylist] adds one playlist and no track, and none
    of the ids the new playlist lists resolves to a track. *)
Lemma importPlaylist_resolves_nothing (data : usePlaylist.playlistData)
  (e : usePlaylist.env) (s : AudioStore.t) :
  (forall j track, In track (tracks s) ->
                   AudioTrack.id track <> usePlaylist.generateId e j) ->
  (forall p, In p (playlists s) ->
             Playlist.id p <> usePlaylist.importedPlaylistId data e) ->
  tracks (usePlaylist.importPlaylist data e s) = tracks s
  /\ getPlaylistTracks (usePlaylist.importedPlaylistId data e)
       (usePlaylist.importPlaylist data e s) = [].
Proof.
  intros Hfresh Hpl. split; [reflexivity|].
  unfold getPlaylistTracks, usePlaylist.importPlaylist,
    usePlaylist.createPlaylist, addPlaylist. simpl.
  rewrite find_app_none.
  - simpl. unfold usePlaylist.importedPlaylistId.
    rewrite String.eqb_refl. simpl.
    apply filter_nothing. intros track Hin.
    destruct (Playlist.includes _ (AudioTrack.id track)) eqn:I;
      [|reflexivity].
    apply includes_In, in_map_iff in I.
    destruct I as (imported & Hid & Himp).
    injection Hid as Hid.
    apply importedTracks_ids in Himp. destruct Himp as (j & Hj).
    exfalso. apply (Hfresh j track Hin). congruence.
  - destruct (find _ (playlists s)) as [p|] eqn:F; [|reflexivity].
    apply find_some in F. destruct F as [Hin Hid].
    apply String.eqb_eq in Hid. exfalso. exact (Hpl p Hin Hid).
Qed.

(** C6, on the sample store: the playlist "p1" resolves to three tracks
    and is exported with their titles and artists; importing the export
    adds a playlist that lists three new ids and adds no track, so the new
    playlist resolves to no track at all. *)
Lemma export_import_resolves_nothing :
  exists snap,
    usePlaylist.exportPlaylist "p1" "2024-06-01T00:00:00.000Z" sampleStore
    = Some snap
    /\ map usePlaylist.td_title
         (usePlaylist.pd_tracks (usePlaylist.playlist snap))
       = ["Song A"; "Song B"; "Song C"]%string
    /\ map usePlaylist.td_artist
         (usePlaylist.pd_tracks (usePlaylist.playlist snap))
       = ["Artist A"; "Artist B"; "Artist C"]%string
    /\ getPlaylistTracks "p1" sampleStore = [trackA; trackB; trackC]
    /\ usePlaylist.importedPlaylistId (usePlaylist.playlist snap) sampleEnv
       = "gen3"%string
    /\ tracksOfPlaylist "gen3"
         (usePlaylist.importPlaylist (usePlaylist.playlist snap) sampleEnv
            sampleStore)
       = Some [Some "gen0"; Some "gen1"; Some "gen2"]%string
    /\ tracks (usePlaylist.importPlaylist (usePlaylist.playlist snap)
                 sampleEnv sampleStore)
       = [trackA; trackB; trackC]
    /\ getPlaylistTracks "gen3"
         (usePlaylist.importPlaylist (usePlaylist.playlist snap) sampleEnv
            sampleStore)
       = [].
Proof.
  eexists. split; [reflexivity|]. repeat split.
Qed.

(** ** Play counts *)

Lemma Object_is_refl (r : JS.ref AudioTrack.t) :
  useAudioPlayer.Object_is r r = true.
Proof. destruct r; simpl; auto using Nat.eqb_refl. Qed.

(** The first track with the id, after [updateTrack] on that id. *)
Lemma trackById_updateTrack (fresh : nat) (id : string)
  (updates : AudioTrack.partial) (s : AudioStore.t) :
  AudioTrack.p_id updates = None ->
  trackById id (updateTrack fresh id updates s)
  = option_map (fun track => AudioTrack.spread fresh track updates)
      (trackById id s).
Proof.
  intros Hid. unfold trackById, updateTrack. simpl.
  induction (tracks s) as [|track l IH]; simpl; [reflexivity|].
  destruct (String.eqb (AudioTrack.id track) id) eqn:E; simpl.
  - unfold JS.over at 1. rewrite Hid, E. reflexivity.
  - rewrite E. exact IH.
Qed.

(** A render changes nothing once it has been done. *)
Lemma render_again (fresh fresh' : nat) (h : useAudioPlayer.t)
  (s : AudioStore.t) :
  useAudioPlayer.render fresh' (fst (useAudioPlayer.render fresh h s))
    (snd (useAudioPlayer.render fresh h s))
  = useAudioPlayer.render fresh h s.
Proof.
  unfold useAudioPlayer.render at 2 3 4.
  destruct (useAudioPlayer.trackChanged h s).
  - unfold useAudioPlayer.trackChangeEffect.
    destruct (currentTrack s) as [| |track] eqn:C; simpl;
      unfold useAudioPlayer.render, useAudioPlayer.trackChanged; simpl;
      rewrite ?C; simpl; rewrite ?Nat.eqb_refl; reflexivity.
  - simpl. unfold useAudioPlayer.render, useAudioPlayer.trackChanged.
    simpl. now rewrite Object_is_refl.
Qed.

(** C3, as the code has it.  [setCurrentTrack] itself changes no play
    count.  The track-change effect of the player hook runs when the
    assigned object is not the one loaded at the previous render; when that
    object is the stored track, the stored play count of its id then rises
    by exactly 1.  Rendering again changes nothing, and assigning the same
    object a second time changes nothing either: after both assignments the
    count has risen by exactly 1. *)
Theorem playCount_once_per_track_change (fresh fresh' : nat)
  (h : useAudioPlayer.t) (s : AudioStore.t) (track : AudioTrack.t) :
  trackById (AudioTrack.id track) s = Some track ->
  useAudioPlayer.trackChanged h (setCurrentTrack (JS.obj track) s) = true ->
  let once := useAudioPlayer.assign fresh track (h, s) in
  let twice := useAudioPlayer.assign fresh' track once in
  tracks (setCurrentTrack (JS.obj track) s) = tracks s
  /\ storedPlayCount (AudioTrack.id track) (snd once)
     = storedPlayCount (AudioTrack.id track) s + 1
  /\ useAudioPlayer.render fresh' (fst once) (snd once) = once
  /\ twice = once
  /\ storedPlayCount (AudioTrack.id track) (snd twice)
     = storedPlayCount (AudioTrack.id track) s + 1.
Proof.
  intros Hstored Hchanged once twice.
  assert (Honce :
    once = (useAudioPlayer.mk (AudioTrack.url track) (Some (JS.obj track)),
            updateTrack fresh (AudioTrack.id track)
              (useAudioPlayer.playCountUpdate
                 (useAudioPlayer.nextPlayCount track))
              (setCurrentTrack (JS.obj track) s))).
  { unfold once, useAudioPlayer.assign, useAudioPlayer.render. simpl fst.
    simpl snd. rewrite Hchanged. reflexivity. }
  assert (Hcount : storedPlayCount (AudioTrack.id track) (snd once)
                   = storedPlayCount (AudioTrack.id track) s + 1).
  { rewrite Honce. simpl snd. unfold storedPlayCount.
    rewrite trackById_updateTrack by reflexivity.
    change (trackById (AudioTrack.id track)
              (setCurrentTrack (JS.obj track) s))
      with (trackById (AudioTrack.id track) s).
    rewrite Hstored. simpl.
    unfold playCountOr0, useAudioPlayer.nextPlayCount. simpl.
    destruct (AudioTrack.playCount track); reflexivity. }
  assert (Htwice : twice = once).
  { unfold twice, useAudioPlayer.assign. rewrite Honce. simpl fst.
    simpl snd. unfold useAudioPlayer.render, useAudioPlayer.trackChanged.
    simpl. rewrite Nat.eqb_refl. reflexivity. }
  repeat split.
  - exact Hcount.
  - unfold once, useAudioPlayer.assign. apply render_again.
  - exact Htwice.
  - rewrite Htwice. exact Hcount.
Qed.

(** C3 on the sample store: track A assigned to an idle player. *)
Lemma playCount_once_per_track_change_witness :
  trackById "A" sampleStore = Some trackA
  /\ useAudioPlayer.trackChanged idleHook
       (setCurrentTrack (JS.obj trackA) sampleStore) = true
  /\ storedPlayCount "A"
       (snd (useAudioPlayer.assign 10 trackA (idleHook, sampleStore)))
     = storedPlayCount "A" sampleStore + 1.
Proof.
  split; [reflexivity|]. split; [reflexivity|].
  exact (proj1 (proj2
    (playCount_once_per_track_change 10 11 idleHook sampleStore trackA
       eq_refl eq_refl))).
Defined.

(** C3 fails for a repeated assignment: track A, assigned twice in a row,
    has its play count raised from 0 to 1, not to 2. *)
Lemma same_track_twice_counts_once :
  storedPlayCount "A" sampleStore = 0
  /\ storedPlayCount "A"
       (snd (useAudioPlayer.assign 11 trackA
               (useAudioPlayer.assign 10 trackA (idleHook, sampleStore))))
     = 1
  /\ storedPlayCount "A"
       (snd (useAudioPlayer.assign 11 trackA
               (useAudioPlayer.assign 10 trackA (idleHook, sampleStore))))
     <> storedPlayCount "A" sampleStore + 2.
Proof.
  split; [reflexivity|]. split; [reflexivity|].
  vm_compute. congruence.
Qed.

(** The count is taken from the assigned object, not from the stored
    track: going from A to B and back to the same object A (as the queue
    holds it) sets the stored count of A to 1 again. *)
Lemma queued_object_counts_from_itself :
  storedPlayCount "A"
    (snd (useAudioPlayer.assign 12 trackA
            (useAudioPlayer.assign 11 trackB
               (useAudioPlayer.assign 10 trackA (idleHook, sampleStore)))))
  = 1.
Proof. reflexivity. Qed.

(* ------------------------------------------------------------------------- *)
(** * Further properties of the store and of the hooks *)

(** ** Shuffle and positions *)

Lemma random_index_range (u : Q) (n : Z) :
  (0 <= u)%Q -> (u < 1)%Q -> 0 < n ->
  0 <= JS.random_index u n < n.
Proof.
  intros H0 H1 Hn. unfold JS.random_index.
  assert (Hq : (inject_Z 0 < inject_Z n)%Q) by (rewrite <- Zlt_Qlt; exact Hn).
  change (inject_Z 0) with 0%Q in Hq.
  split.
  - change 0 with (Qfloor 0). apply Qfloor_resp_le. nra.
  - rewrite Zlt_Qlt.
    apply Qle_lt_trans with (u * inject_Z n)%Q; [apply Qfloor_le | nra].
Qed.

Lemma index_in_range (A : Type) (l : list A) (i : Z) :
  0 <= i < JS.length l -> exists a, JS.index l i = Some a.
Proof.
  intros H. unfold JS.index, JS.length in *.
  destruct (i <? 0) eqn:E; [apply Z.ltb_lt in E; lia|].
  destruct (nth_error l (Z.to_nat i)) as [a|] eqn:N; [now exists a|].
  apply nth_error_None in N. lia.
Qed.

Lemma moveTo_loaded (i : Z) (s : AudioStore.t) :
  0 <= i < JS.length (queue s) ->
  valid_position (moveTo i s) /\ loaded_at_index (moveTo i s).
Proof.
  intros H. split; [exact H|].
  destruct (index_in_range _ _ _ H) as (a & Ha).
  exists a. simpl. unfold JS.at_index. now rewrite Ha.
Qed.

Lemma length_pos (A : Type) (l : list A) : l <> [] -> 0 < JS.length l.
Proof. destruct l; [contradiction | unfold JS.length; simpl; lia]. Qed.

Lemma nextTrack_shuffle (u : Q) (s : AudioStore.t) :
  shuffleMode s = true -> queue s <> [] ->
  nextTrack u s = moveTo (JS.random_index u (JS.length (queue s))) s.
Proof.
  intros Hsh Hq. unfold nextTrack.
  now rewrite (length_nonempty _ _ Hq), Hsh.
Qed.

Lemma previousTrack_shuffle (u : Q) (s : AudioStore.t) :
  shuffleMode s = true -> queue s <> [] ->
  previousTrack u s = moveTo (JS.random_index u (JS.length (queue s))) s.
Proof.
  intros Hsh Hq. unfold previousTrack.
  now rewrite (length_nonempty _ _ Hq), Hsh.
Qed.

(** X1. With shuffle on and a queue that is not empty, [nextTrack] and
    [previousTrack] do the same thing: whatever [currentIndex] was, they load
    the queued track at an index of the queue ([Math.random()] being in
    [0, 1)). *)
Theorem shuffle_loads_a_queued_track (u : Q) (s : AudioStore.t) :
  shuffleMode s = true -> queue s <> [] -> (0 <= u)%Q -> (u < 1)%Q ->
  previousTrack u s = nextTrack u s
  /\ queue (nextTrack u s) = queue s
  /\ valid_position (nextTrack u s)
  /\ loaded_at_index (nextTrack u s).
Proof.
  intros Hsh Hq H0 H1.
  rewrite (previousTrack_shuffle u s Hsh Hq), (nextTrack_shuffle u s Hsh Hq).
  split; [reflexivity|]. split; [reflexivity|].
  apply moveTo_loaded, random_index_range; auto using length_pos.
Qed.

(** X1 on the sample store with shuffle on and a draw of 0.5. *)
Lemma shuffle_loads_a_queued_track_witness :
  shuffleMode shuffledStore = true
  /\ valid_position (nextTrack 0.5 shuffledStore)
  /\ loaded_at_index (nextTrack 0.5 shuffledStore).
Proof.
  split; [reflexivity|].
  apply (shuffle_loads_a_queued_track 0.5 shuffledStore);
    [reflexivity | discriminate | lra | lra].
Defined.

Lemma valid_position_nonempty (s : AudioStore.t) :
  valid_position s -> queue s <> [].
Proof.
  unfold valid_position, JS.length. intros H E. rewrite E in H.
  simpl in H. lia.
Qed.

Lemma nextTrack_moves_or_stays (u : Q) (s : AudioStore.t) :
  valid_position s -> (0 <= u)%Q -> (u < 1)%Q ->
  nextTrack u s = s
  \/ exists i, 0 <= i < JS.length (queue s) /\ nextTrack u s = moveTo i s.
Proof.
  intros Hv H0 H1. pose proof (valid_position_nonempty s Hv) as Hq.
  unfold valid_position in Hv.
  destruct (shuffleMode s) eqn:Hsh.
  - right. eexists. split; [|apply nextTrack_shuffle; assumption].
    apply random_index_range; auto using length_pos.
  - destruct (Z_lt_ge_dec (currentIndex s + 1) (JS.length (queue s)))
      as [Hlt | Hge].
    + right. exists (currentIndex s + 1). split; [lia|].
      now apply nextTrack_step.
    + destruct (RepeatMode_eqb (repeatMode s) all) eqn:R.
      * right. exists 0. split; [lia|].
        apply nextTrack_wrap; auto. now apply RepeatMode_eqb_eq.
      * left. apply nextTrack_end; auto.
        intros E. apply RepeatMode_eqb_eq in E. congruence.
Qed.

Lemma previousTrack_moves_or_stays (u : Q) (s : AudioStore.t) :
  valid_position s -> (0 <= u)%Q -> (u < 1)%Q ->
  previousTrack u s = s
  \/ exists i,
       0 <= i < JS.length (queue s) /\ previousTrack u s = moveTo i s.
Proof.
  intros Hv H0 H1. pose proof (valid_position_nonempty s Hv) as Hq.
  unfold valid_position in Hv.
  destruct (shuffleMode s) eqn:Hsh.
  - right. eexists. split; [|apply previousTrack_shuffle; assumption].
    apply random_index_range; auto using length_pos.
  - destruct (Z_lt_ge_dec (currentIndex s - 1) 0) as [Hlt | Hge].
    + destruct (RepeatMode_eqb (repeatMode s) all) eqn:R.
      * right. exists (JS.length (queue s) - 1). split; [lia|].
        apply previousTrack_wrap; auto. now apply RepeatMode_eqb_eq.
      * left. apply previousTrack_end; auto.
        intros E. apply RepeatMode_eqb_eq in E. congruence.
    + right. exists (currentIndex s - 1). split; [lia|].
      now apply previousTrack_step.
Qed.

(** X2. From a state whose [currentIndex] is an index of the queue,
    [nextTrack] and [previousTrack] (in any mode) end at an index of the
    queue again, and whenever they change the state the loaded track is the
    queued track at the new index. *)
Theorem traversal_keeps_position (u : Q) (s : AudioStore.t) :
  valid_position s -> (0 <= u)%Q -> (u < 1)%Q ->
  valid_position (nextTrack u s)
  /\ valid_position (previousTrack u s)
  /\ (nextTrack u s = s \/ loaded_at_index (nextTrack u s))
  /\ (previousTrack u s = s \/ loaded_at_index (previousTrack u s)).
Proof.
  intros Hv H0 H1.
  destruct (nextTrack_moves_or_stays u s Hv H0 H1) as [-> | (i & Hi & ->)];
    destruct (previousTrack_moves_or_stays u s Hv H0 H1)
      as [-> | (j & Hj & ->)];
    repeat split; auto; try (exact Hi); try (exact Hj);
    try (right; exact (proj2 (moveTo_loaded _ _ Hi)));
    try (right; exact (proj2 (moveTo_loaded _ _ Hj)));
    unfold valid_position in Hv; simpl; lia.
Qed.

(** X2 on the sample store at index 1 with repeat-all. *)
Lemma traversal_keeps_position_witness :
  valid_position loopingStore
  /\ valid_position (nextTrack 0 loopingStore)
  /\ valid_position (previousTrack 0 loopingStore).
Proof.
  assert (Hv : valid_position loopingStore)
    by (vm_compute; split; congruence).
  split; [exact Hv|].
  destruct (traversal_keeps_position 0 loopingStore Hv) as (Hn & Hp & _);
    [lra | lra |].
  split; assumption.
Defined.

Lemma previousTrack_after_nextTrack (u u' : Q) (s : AudioStore.t) :
  shuffleMode s = false -> valid_position s ->
  (repeatMode s = all \/ currentIndex s + 1 < JS.length (queue s) ->
   previousTrack u' (nextTrack u s) = moveTo (currentIndex s) s)
  /\ (repeatMode s = all \/ 0 <= currentIndex s - 1 ->
      nextTrack u' (previousTrack u s) = moveTo (currentIndex s) s).
Proof.
  intros Hsh Hv. pose proof (valid_position_nonempty s Hv) as Hq.
  unfold valid_position in Hv. split; intros Hmove.
  - destruct (Z_lt_ge_dec (currentIndex s + 1) (JS.length (queue s)))
      as [Hlt | Hge].
    + rewrite (nextTrack_step u s Hsh Hq Hlt).
      rewrite previousTrack_step; simpl; auto; try lia.
      replace (currentIndex s + 1 - 1) with (currentIndex s) by lia.
      reflexivity.
    + destruct Hmove as [Hall | Hlt]; [|lia].
      rewrite (nextTrack_wrap u s Hsh Hq Hge Hall).
      rewrite previousTrack_wrap; simpl; auto; try lia.
      replace (JS.length (queue s) - 1) with (currentIndex s) by lia.
      reflexivity.
  - destruct (Z_lt_ge_dec (currentIndex s - 1) 0) as [Hlt | Hge].
    + destruct Hmove as [Hall | Hge]; [|lia].
      rewrite (previousTrack_wrap u s Hsh Hq Hlt Hall).
      rewrite nextTrack_wrap; simpl; auto; try lia.
      replace (currentIndex s) with 0 by lia. reflexivity.
    + rewrite (previousTrack_step u s Hsh Hq Hge).
      rewrite nextTrack_step; simpl; auto; try lia.
      replace (currentIndex s - 1 + 1) with (currentIndex s) by lia.
      reflexivity.
Qed.

(** X3. In sequential mode, from an index of the queue, [previousTrack]
    undoes [nextTrack] and [nextTrack] undoes [previousTrack] as far as the
    position goes, whenever the first call can move (always with
    repeat-all): after the two calls [currentIndex] is the starting index,
    [currentTrack] is the queued track at that index, [currentTime] is 0,
    and the queue and every other field are as they were. *)
Theorem previousTrack_undoes_nextTrack (u u' : Q) (s : AudioStore.t) :
  shuffleMode s = false -> valid_position s ->
  (repeatMode s = all \/ currentIndex s + 1 < JS.length (queue s) ->
   moved_to (currentIndex s) s (previousTrack u' (nextTrack u s)))
  /\ (repeatMode s = all \/ 0 <= currentIndex s - 1 ->
      moved_to (currentIndex s) s (nextTrack u' (previousTrack u s))).
Proof.
  intros Hsh Hv.
  destruct (previousTrack_after_nextTrack u u' s Hsh Hv) as (Hpn & Hnp).
  split; intros Hmove.
  - rewrite (Hpn Hmove). apply moveTo_moved.
  - rewrite (Hnp Hmove). apply moveTo_moved.
Qed.

(** X3 on the sample store at index 1 with repeat-all, no track loaded and
    position 42 s: forward and back, and back and forward, end at index 1
    with track B loaded from its start. *)
Lemma previousTrack_undoes_nextTrack_witness :
  shuffleMode (seek (JS.Fin 42) loopingStore) = false
  /\ valid_position (seek (JS.Fin 42) loopingStore)
  /\ currentTrack (seek (JS.Fin 42) loopingStore) = JS.null
  /\ currentIndex
       (previousTrack 0 (nextTrack 0 (seek (JS.Fin 42) loopingStore))) = 1
  /\ currentTrack
       (previousTrack 0 (nextTrack 0 (seek (JS.Fin 42) loopingStore)))
     = JS.obj trackB
  /\ currentTime
       (previousTrack 0 (nextTrack 0 (seek (JS.Fin 42) loopingStore)))
     = JS.Fin 0
  /\ currentIndex
       (nextTrack 0 (previousTrack 0 (seek (JS.Fin 42) loopingStore))) = 1
  /\ currentTrack
       (nextTrack 0 (previousTrack 0 (seek (JS.Fin 42) loopingStore)))
     = JS.obj trackB.
Proof.
  assert (Hv : valid_position (seek (JS.Fin 42) loopingStore))
    by (split; [discriminate | reflexivity]).
  destruct (previousTrack_undoes_nextTrack 0 0
              (seek (JS.Fin 42) loopingStore) eq_refl Hv) as (Hpn & Hnp).
  destruct (Hpn (or_introl eq_refl)) as (Hi & Ht & _ & _ & Htime & _).
  destruct (Hnp (or_introl eq_refl)) as (Hi' & Ht' & _).
  split; [reflexivity|]. split; [exact Hv|]. split; [reflexivity|].
  split; [exact Hi|]. split; [exact Ht|]. split; [exact Htime|].
  split; [exact Hi' | exact Ht'].
Defined.

(** ** Editing the queue *)

Lemma filteri_keep (A : Type) (index : Z) (l : list A) :
  forall k, index < k \/ k + JS.length l <= index ->
  JS.filteri_from (fun i => negb (i =? index)) k l = l.
Proof.
  unfold JS.length.
  induction l as [|a l IH]; intros k H; simpl; [reflexivity|].
  simpl in H. destruct (k =? index) eqn:E; [apply Z.eqb_eq in E; lia|].
  simpl. f_equal. apply IH. lia.
Qed.

Lemma filteri_remove (A : Type) (index : Z) (l : list A) :
  forall k, k <= index < k + JS.length l ->
  JS.filteri_from (fun i => negb (i =? index)) k l
  = remove_at (Z.to_nat (index - k)) l.
Proof.
  unfold JS.length.
  induction l as [|a l IH]; intros k H; simpl in H; [lia|].
  simpl. destruct (k =? index) eqn:E; simpl.
  - apply Z.eqb_eq in E. subst k. rewrite Z.sub_diag. simpl.
    unfold remove_at. simpl. apply filteri_keep. lia.
  - apply Z.eqb_neq in E. rewrite IH by lia.
    replace (Z.to_nat (index - k)) with (S (Z.to_nat (index - (k + 1))))
      by lia.
    reflexivity.
Qed.

Lemma nth_error_remove_at (A : Type) (l : list A) :
  forall n m,
    nth_error (remove_at n l) m
    = if (m <? n)%nat then nth_error l m else nth_error l (S m).
Proof.
  unfold remove_at.
  induction l as [|a l IH]; intros n m.
  - rewrite firstn_nil, skipn_nil. simpl.
    destruct (m <? n)%nat; destruct m; reflexivity.
  - destruct n as [|n]; [reflexivity|].
    destruct m as [|m]; [reflexivity|].
    simpl firstn. simpl skipn. simpl app. simpl nth_error.
    rewrite IH. reflexivity.
Qed.

Lemma index_remove_at (A : Type) (l : list A) (n i : Z) :
  0 <= n ->
  JS.index (remove_at (Z.to_nat n) l) i
  = if i <? n then JS.index l i else JS.index l (i + 1).
Proof.
  intros Hn. unfold JS.index.
  destruct (i <? 0) eqn:E.
  - apply Z.ltb_lt in E.
    destruct (i <? n) eqn:E'; [reflexivity|apply Z.ltb_ge in E'; lia].
  - apply Z.ltb_ge in E. rewrite nth_error_remove_at.
    destruct (i <? n) eqn:E'.
    + apply Z.ltb_lt in E'.
      destruct (Nat.ltb_spec (Z.to_nat i) (Z.to_nat n)); [reflexivity|lia].
    + apply Z.ltb_ge in E'.
      destruct (Nat.ltb_spec (Z.to_nat i) (Z.to_nat n)); [lia|].
      destruct (i + 1 <? 0) eqn:E''; [apply Z.ltb_lt in E''; lia|].
      f_equal. lia.
Qed.

(** X4. [removeFromQueue(index)] at an index of the queue takes that entry
    out.  An entry before the current one: [currentIndex] goes down by one
    and points at the same track as before.  An entry after it: nothing
    moves.  The current entry itself: [currentIndex] stays and points at
    the track that followed; when there is none (the last entry was
    current), [currentTrack] is [null] and [currentIndex] is one past the
    end of the new queue.  In all cases [currentTrack] is what
    [queue[currentIndex] || null] gives. *)
Theorem removeFromQueue_at_index (index : Z) (s : AudioStore.t) :
  0 <= index < JS.length (queue s) ->
  queue (removeFromQueue index s) = remove_at (Z.to_nat index) (queue s)
  /\ JS.length (queue (removeFromQueue index s)) = JS.length (queue s) - 1
  /\ currentTrack (removeFromQueue index s)
     = JS.at_index_or_null (queue (removeFromQueue index s))
         (currentIndex (removeFromQueue index s))
  /\ (index < currentIndex s ->
      currentIndex (removeFromQueue index s) = currentIndex s - 1
      /\ JS.index (queue (removeFromQueue index s)) (currentIndex s - 1)
         = JS.index (queue s) (currentIndex s))
  /\ (currentIndex s < index ->
      currentIndex (removeFromQueue index s) = currentIndex s
      /\ JS.index (queue (removeFromQueue index s)) (currentIndex s)
         = JS.index (queue s) (currentIndex s))
  /\ (currentIndex s = index ->
      currentIndex (removeFromQueue index s) = currentIndex s
      /\ JS.index (queue (removeFromQueue index s)) (currentIndex s)
         = JS.index (queue s) (currentIndex s + 1))
  /\ (currentIndex s = index -> index = JS.length (queue s) - 1 ->
      currentTrack (removeFromQueue index s) = JS.null
      /\ currentIndex (removeFromQueue index s)
         = JS.length (queue (removeFromQueue index s))).
Proof.
  intros Hr.
  assert (Hq : queue (removeFromQueue index s)
               = remove_at (Z.to_nat index) (queue s)).
  { unfold removeFromQueue. simpl. rewrite filteri_remove by lia.
    f_equal. lia. }
  assert (Hl : JS.length (queue (removeFromQueue index s))
               = JS.length (queue s) - 1).
  { rewrite Hq. unfold JS.length in *. rewrite remove_at_length by lia.
    lia. }
  split; [exact Hq|]. split; [exact Hl|]. split; [reflexivity|].
  assert (Hi : forall i, JS.index (queue (removeFromQueue index s)) i
                         = if i <? index then JS.index (queue s) i
                           else JS.index (queue s) (i + 1)).
  { intros i. rewrite Hq. apply index_remove_at. lia. }
  split; [|split; [|split]].
  - intros Hlt. unfold removeFromQueue at 1. simpl.
    destruct (index <? currentIndex s) eqn:E;
      [|apply Z.ltb_ge in E; lia].
    split; [reflexivity|]. rewrite Hi.
    destruct (currentIndex s - 1 <? index) eqn:E';
      [apply Z.ltb_lt in E'; lia|].
    f_equal. lia.
  - intros Hlt. unfold removeFromQueue at 1. simpl.
    destruct (index <? currentIndex s) eqn:E;
      [apply Z.ltb_lt in E; lia|].
    split; [reflexivity|]. rewrite Hi.
    destruct (currentIndex s <? index) eqn:E';
      [reflexivity|apply Z.ltb_ge in E'; lia].
  - intros Heq. unfold removeFromQueue at 1. simpl.
    destruct (index <? currentIndex s) eqn:E;
      [apply Z.ltb_lt in E; lia|].
    split; [reflexivity|]. rewrite Hi.
    destruct (currentIndex s <? index) eqn:E';
      [apply Z.ltb_lt in E'; lia|reflexivity].
  - intros Heq Hlast.
    assert (Hc : currentIndex (removeFromQueue index s) = currentIndex s).
    { unfold removeFromQueue. simpl.
      destruct (index <? currentIndex s) eqn:E;
        [apply Z.ltb_lt in E; lia|reflexivity]. }
    split; [|lia].
    change (currentTrack (removeFromQueue index s))
      with (JS.at_index_or_null (queue (removeFromQueue index s))
              (currentIndex (removeFromQueue index s))).
    unfold JS.at_index_or_null. rewrite Hc, Hi.
    destruct (currentIndex s <? index) eqn:E';
      [apply Z.ltb_lt in E'; lia|].
    unfold JS.index.
    destruct (currentIndex s + 1 <? 0); [reflexivity|].
    destruct (nth_error (queue s) (Z.to_nat (currentIndex s + 1))) eqn:N;
      [|reflexivity].
    assert (N' : nth_error (queue s) (Z.to_nat (currentIndex s + 1)) <> None)
      by congruence.
    apply nth_error_Some in N'. unfold JS.length in *. lia.
Qed.

(** X4 on the sample store with its last track loaded: removing entry 0
    keeps C current, removing entry 2 unloads it. *)
Lemma removeFromQueue_at_index_witness :
  0 <= 0 < JS.length (queue lastLoadedStore)
  /\ queue (removeFromQueue 0 lastLoadedStore) = [trackB; trackC]
  /\ currentTrack (removeFromQueue 2 lastLoadedStore) = JS.null.
Proof.
  assert (H0 : 0 <= 0 < JS.length (queue lastLoadedStore))
    by (vm_compute; split; congruence).
  assert (H2 : 0 <= 2 < JS.length (queue lastLoadedStore))
    by (vm_compute; split; congruence).
  split; [exact H0|]. split.
  - exact (proj1 (removeFromQueue_at_index 0 lastLoadedStore H0)).
  - destruct (removeFromQueue_at_index 2 lastLoadedStore H2)
      as (_ & _ & _ & _ & _ & _ & Hlast).
    apply Hlast; reflexivity.
Defined.

(** X5. [removeFromQueue(index)] with an index that is not one of the
    queue removes nothing, and still moves the position as if it had:
    [currentIndex] goes down by one exactly when [index < currentIndex],
    and [currentTrack] becomes what the queue holds at the resulting index
    ([null] when it holds nothing there).  So a negative index lowers every
    non-negative [currentIndex]; an index past the end keeps a
    [currentIndex] that is an index of the queue, and lowers one that lies
    beyond that index. *)
Theorem removeFromQueue_outside (index : Z) (s : AudioStore.t) :
  index < 0 \/ JS.length (queue s) <= index ->
  queue (removeFromQueue index s) = queue s
  /\ (index < currentIndex s ->
      currentIndex (removeFromQueue index s) = currentIndex s - 1)
  /\ (currentIndex s <= index ->
      currentIndex (removeFromQueue index s) = currentIndex s)
  /\ (index < 0 -> 0 <= currentIndex s ->
      currentIndex (removeFromQueue index s) = currentIndex s - 1)
  /\ (JS.length (queue s) <= index -> currentIndex s < JS.length (queue s) ->
      currentIndex (removeFromQueue index s) = currentIndex s)
  /\ currentTrack (removeFromQueue index s)
     = JS.at_index_or_null (queue s)
         (currentIndex (removeFromQueue index s))
  /\ (forall track,
        nth_error (queue s)
          (Z.to_nat (currentIndex (removeFromQueue index s))) = Some track ->
        0 <= currentIndex (removeFromQueue index s) ->
        currentTrack (removeFromQueue index s) = JS.obj track)
  /\ (currentIndex (removeFromQueue index s) < 0
      \/ JS.length (queue s) <= currentIndex (removeFromQueue index s) ->
      currentTrack (removeFromQueue index s) = JS.null).
Proof.
  intros Hout.
  assert (Hq : queue (removeFromQueue index s) = queue s).
  { unfold removeFromQueue. simpl. apply filteri_keep. lia. }
  assert (Hlower : index < currentIndex s ->
                   currentIndex (removeFromQueue index s)
                   = currentIndex s - 1).
  { intros Hlt. unfold removeFromQueue. simpl.
    destruct (index <? currentIndex s) eqn:E;
      [reflexivity | apply Z.ltb_ge in E; lia]. }
  assert (Hkeep : currentIndex s <= index ->
                  currentIndex (removeFromQueue index s) = currentIndex s).
  { intros Hle. unfold removeFromQueue. simpl.
    destruct (index <? currentIndex s) eqn:E;
      [apply Z.ltb_lt in E; lia | reflexivity]. }
  assert (Ht : currentTrack (removeFromQueue index s)
               = JS.at_index_or_null (queue s)
                   (currentIndex (removeFromQueue index s))).
  { rewrite <- Hq. reflexivity. }
  split; [exact Hq|]. split; [exact Hlower|]. split; [exact Hkeep|].
  split; [intros; apply Hlower; lia|].
  split; [intros; apply Hkeep; lia|].
  split; [exact Ht|]. split.
  - intros track Hn H0. rewrite Ht. unfold JS.at_index_or_null, JS.index.
    destruct (currentIndex (removeFromQueue index s) <? 0) eqn:E;
      [apply Z.ltb_lt in E; lia|].
    rewrite Hn. reflexivity.
  - intros Hnone. rewrite Ht. unfold JS.at_index_or_null, JS.index.
    destruct (currentIndex (removeFromQueue index s) <? 0) eqn:E;
      [reflexivity|].
    apply Z.ltb_ge in E.
    destruct (nth_error (queue s)
                (Z.to_nat (currentIndex (removeFromQueue index s))))
      eqn:N; [|reflexivity].
    assert (nth_error (queue s)
              (Z.to_nat (currentIndex (removeFromQueue index s))) <> None)
      as Hn by congruence.
    apply nth_error_Some in Hn. unfold JS.length in Hnone. lia.
Qed.

(** X5 on the sample store with its last track loaded:
    [removeFromQueue(-1)] removes nothing and loads B, [removeFromQueue(7)]
    changes neither queue nor index; and on the queue [A] left at index 2,
    [removeFromQueue(1)] removes nothing and lowers the index to 1. *)
Lemma removeFromQueue_outside_witness :
  queue (removeFromQueue (-1) lastLoadedStore) = queue lastLoadedStore
  /\ currentIndex (removeFromQueue (-1) lastLoadedStore) = 1
  /\ currentTrack (removeFromQueue (-1) lastLoadedStore) = JS.obj trackB
  /\ currentIndex (removeFromQueue 7 lastLoadedStore) = 2
  /\ queue (removeFromQueue 1 staleSingleStore) = [trackA]
  /\ currentIndex staleSingleStore = 2
  /\ currentIndex (removeFromQueue 1 staleSingleStore) = 1
  /\ currentTrack (removeFromQueue 1 staleSingleStore) = JS.null.
Proof.
  destruct (removeFromQueue_outside (-1) lastLoadedStore)
    as (Hq & Hi & _ & _ & _ & _ & Hobj & _); [left; lia|].
  destruct (removeFromQueue_outside 7 lastLoadedStore)
    as (_ & _ & Hk & _); [right; discriminate|].
  destruct (removeFromQueue_outside 1 staleSingleStore)
    as (Hq' & Hi' & _ & _ & _ & _ & _ & Hnull); [right; discriminate|].
  split; [exact Hq|]. split; [apply Hi; reflexivity|].
  split; [apply (Hobj trackB); [reflexivity | discriminate]|].
  split; [apply Hk; discriminate|].
  split; [exact Hq'|]. split; [reflexivity|].
  split; [apply Hi'; reflexivity|].
  apply Hnull. right. discriminate.
Defined.

Lemma length_app_one (A : Type) (l : list A) (a : A) :
  JS.length (l ++ [a]) = JS.length l + 1.
Proof. unfold JS.length. rewrite length_app. simpl. lia. Qed.

Lemma index_app_one (A : Type) (l : list A) (a : A) :
  JS.index (l ++ [a]) (JS.length l) = Some a.
Proof.
  unfold JS.index, JS.length.
  destruct (Z.of_nat (List.length l) <? 0) eqn:E;
    [apply Z.ltb_lt in E; lia|].
  rewrite Nat2Z.id, nth_error_app2, Nat.sub_diag by lia. reflexivity.
Qed.

(** X6. [addToQueue] puts the track at the end and leaves the position and
    the loaded track alone; in sequential mode, from the last index of the
    queue, the next [nextTrack] loads the added track (whatever
    [repeatMode] is). *)
Theorem addToQueue_then_nextTrack (u : Q) (track : AudioTrack.t)
  (s : AudioStore.t) :
  shuffleMode s = false -> valid_position s ->
  currentIndex s + 1 = JS.length (queue s) ->
  currentIndex (addToQueue track s) = currentIndex s
  /\ currentTrack (addToQueue track s) = currentTrack s
  /\ valid_position (addToQueue track s)
  /\ currentIndex (nextTrack u (addToQueue track s)) = JS.length (queue s)
  /\ currentTrack (nextTrack u (addToQueue track s)) = JS.obj track.
Proof.
  intros Hsh Hv Hlast. unfold valid_position in *.
  assert (Hn : nextTrack u (addToQueue track s)
               = moveTo (currentIndex s + 1) (addToQueue track s)).
  { apply (nextTrack_step u (addToQueue track s)); simpl.
    - exact Hsh.
    - intros E. apply app_eq_nil in E. destruct E as [_ E]. discriminate.
    - rewrite length_app_one. lia. }
  split; [reflexivity|]. split; [reflexivity|]. split.
  - simpl. rewrite length_app_one. lia.
  - rewrite Hn. simpl. split; [exact Hlast|].
    unfold JS.at_index. rewrite Hlast, index_app_one. reflexivity.
Qed.

(** X6 on the sample store with its last track loaded. *)
Lemma addToQueue_then_nextTrack_witness :
  shuffleMode lastLoadedStore = false /\ valid_position lastLoadedStore
  /\ currentTrack (nextTrack 0 (addToQueue trackD lastLoadedStore))
     = JS.obj trackD.
Proof.
  assert (Hv : valid_position lastLoadedStore)
    by (vm_compute; split; congruence).
  split; [reflexivity|]. split; [exact Hv|].
  apply (addToQueue_then_nextTrack 0 trackD lastLoadedStore eq_refl Hv).
  reflexivity.
Defined.

(** ** Starting playback *)

(** X7. [playPlaylist(tracks, startIndex)] makes [tracks] the queue, sets
    the position to [startIndex] (0 when it is not given), restarts the
    time and sets the flags to playing.  With [startIndex] an index of
    [tracks] the loaded track is the one there; with any other, and with an
    empty list, [currentTrack] is [undefined] while the flags still say
    playing. *)
Theorem playPlaylist_result (tracks : list AudioTrack.t)
  (startIndex : option Z) (s : AudioStore.t) :
  let i := match startIndex with Some i => i | None => 0 end in
  let s' := useAudioPlayer.playPlaylist tracks startIndex s in
  queue s' = tracks /\ currentIndex s' = i
  /\ currentTime s' = JS.Fin 0
  /\ isPlaying s' = true /\ isPaused s' = false
  /\ (0 <= i < JS.length tracks ->
      valid_position s' /\ loaded_at_index s')
  /\ (i < 0 \/ JS.length tracks <= i -> currentTrack s' = JS.undefined).
Proof.
  intros i s'. repeat split.
  - apply H.
  - apply H.
  - destruct (index_in_range _ _ _ H) as (a & Ha). exists a.
    subst s'. simpl. split; [exact Ha|].
    unfold JS.at_index. fold i. now rewrite Ha.
  - intros Hout. subst s'. simpl. fold i. unfold JS.at_index, JS.index.
    destruct (i <? 0) eqn:E; [reflexivity|].
    apply Z.ltb_ge in E.
    destruct (nth_error tracks (Z.to_nat i)) eqn:N; [|reflexivity].
    assert (N' : nth_error tracks (Z.to_nat i) <> None) by congruence.
    apply nth_error_Some in N'. unfold JS.length in Hout. lia.
Qed.

Lemma nextTrack_index_congr (u : Q) (s s' : AudioStore.t) :
  queue s' = queue s -> currentIndex s' = currentIndex s ->
  shuffleMode s' = shuffleMode s -> repeatMode s' = repeatMode s ->
  currentIndex (nextTrack u s') = currentIndex (nextTrack u s)
  /\ currentTrack (nextTrack u s') = currentTrack (nextTrack u s)
     \/ (nextTrack u s' = s' /\ nextTrack u s = s).
Proof.
  intros Hq Hi Hsh Hr. unfold nextTrack. rewrite Hq, Hi, Hsh, Hr.
  destruct (JS.length (queue s) =? 0); [right; split; reflexivity|].
  destruct (shuffleMode s).
  - left. simpl. rewrite Hq. split; reflexivity.
  - destruct (currentIndex s + 1 >=? JS.length (queue s)).
    + destruct (RepeatMode_eqb (repeatMode s) all).
      * left. simpl. rewrite Hq. split; reflexivity.
      * right. split; reflexivity.
    + left. simpl. rewrite Hq. split; reflexivity.
Qed.

(** X8. [playTrack(track)] loads the track and sets the flags to playing,
    but leaves the queue and [currentIndex] alone: a following [nextTrack]
    goes where it would have gone without the [playTrack] (to the entry
    after the old position, not after the played track), or stays with the
    played track when it cannot move. *)
Theorem playTrack_keeps_position (u : Q) (track : AudioTrack.t)
  (s : AudioStore.t) :
  let s' := useAudioPlayer.playTrack track s in
  currentTrack s' = JS.obj track
  /\ isCurrentTrack (AudioTrack.id track) s' = true
  /\ isPlaying s' = true /\ isPaused s' = false
  /\ queue s' = queue s /\ currentIndex s' = currentIndex s
  /\ (currentIndex (nextTrack u s') = currentIndex (nextTrack u s)
      /\ currentTrack (nextTrack u s') = currentTrack (nextTrack u s)
      \/ nextTrack u s' = s' /\ nextTrack u s = s).
Proof.
  intros s'. repeat split.
  - subst s'. unfold isCurrentTrack, currentTrack_has_id. simpl.
    apply String.eqb_refl.
  - apply nextTrack_index_congr; reflexivity.
Qed.

(** ** Playlists: ids that are not there, lookups after an edit *)

Lemma with_playlists_same (s : AudioStore.t) :
  with_playlists (playlists s) s = s.
Proof. destruct s; reflexivity. Qed.

Lemma with_tracks_same (s : AudioStore.t) : with_tracks (tracks s) s = s.
Proof. destruct s; reflexivity. Qed.

Lemma map_unchanged (A : Type) (f : A -> A) (l : list A) :
  (forall a, In a l -> f a = a) -> map f l = l.
Proof.
  intros H. rewrite <- (map_id l) at 2. apply map_ext_in. exact H.
Qed.

Lemma filter_everything (A : Type) (f : A -> bool) (l : list A) :
  (forall a, In a l -> f a = true) -> filter f l = l.
Proof.
  induction l as [|a l IH]; intros H; simpl; [reflexivity|].
  rewrite (H a (or_introl eq_refl)). f_equal. apply IH.
  intros b Hb. apply H. now right.
Qed.

Lemma no_playlist_with_id (id : string) (s : AudioStore.t) :
  usePlaylist.getPlaylistById id s = None ->
  forall p, In p (playlists s) -> String.eqb (Playlist.id p) id = false.
Proof.
  intros H p Hin. unfold usePlaylist.getPlaylistById in H.
  exact (find_none _ _ H p Hin).
Qed.

Lemma playlists_map_missing (id : string) (f : Playlist.t -> Playlist.t)
  (s : AudioStore.t) :
  usePlaylist.getPlaylistById id s = None ->
  with_playlists
    (map (fun p => if String.eqb (Playlist.id p) id then f p else p)
       (playlists s)) s = s.
Proof.
  intros H. rewrite map_unchanged; [apply with_playlists_same|].
  intros p Hin. now rewrite (no_playlist_with_id id s H p Hin).
Qed.

(** X9. An action on a playlist id that no playlist has changes nothing:
    [updatePlaylist], [deletePlaylist], [addTrackToPlaylist],
    [removeTrackFromPlaylist] and the hook's [editPlaylist],
    [clearPlaylist], [reorderTracks] and [duplicatePlaylist] return the
    state as it is (not even a date is touched), [exportPlaylist] gives
    [null] and [getPlaylistTracks] the empty list. *)
Theorem missing_playlist_id_changes_nothing
  (id trackId now newId created updated : string)
  (updates : Playlist.partial) (name : option string)
  (description : option (option string)) (fromIndex toIndex : Z)
  (newName : option string) (s : AudioStore.t) :
  usePlaylist.getPlaylistById id s = None ->
  updatePlaylist id updates now s = s
  /\ deletePlaylist id s = s
  /\ addTrackToPlaylist id trackId now s = s
  /\ removeTrackFromPlaylist id trackId now s = s
  /\ usePlaylist.editPlaylist id name description now s = s
  /\ usePlaylist.clearPlaylist id now s = s
  /\ usePlaylist.reorderTracks id fromIndex toIndex now s = s
  /\ usePlaylist.duplicatePlaylist id newName newId created updated s = s
  /\ usePlaylist.exportPlaylist id now s = None
  /\ getPlaylistTracks id s = [].
Proof.
  intros H.
  assert (Hupd : forall u, updatePlaylist id u now s = s)
    by (intros u; apply (playlists_map_missing id _ s H)).
  repeat split.
  - apply Hupd.
  - unfold deletePlaylist. rewrite filter_everything;
      [apply with_playlists_same|].
    intros p Hin. now rewrite (no_playlist_with_id id s H p Hin).
  - apply (playlists_map_missing id _ s H).
  - apply (playlists_map_missing id _ s H).
  - apply Hupd.
  - apply Hupd.
  - unfold usePlaylist.reorderTracks. now rewrite H.
  - unfold usePlaylist.duplicatePlaylist. now rewrite H.
  - unfold usePlaylist.exportPlaylist. now rewrite H.
  - unfold getPlaylistTracks. unfold usePlaylist.getPlaylistById in H.
    now rewrite H.
Qed.

(** X9 on the sample store, which has no playlist "p9". *)
Lemma missing_playlist_id_changes_nothing_witness :
  usePlaylist.getPlaylistById "p9" sampleStore = None
  /\ addTrackToPlaylist "p9" "A" "2024-02-02" sampleStore = sampleStore.
Proof.
  split; [reflexivity|].
  exact (proj1 (proj2 (proj2
    (missing_playlist_id_changes_nothing "p9" "A" "2024-02-02" "n" "c" "u"
       (tracksUpdate []) None None 0 0 None sampleStore eq_refl)))).
Defined.

Lemma updateTrack_map_missing (fresh : nat) (id : string)
  (updates : AudioTrack.partial) (l : list AudioTrack.t) :
  (forall track, In track l -> AudioTrack.id track <> id) ->
  updateTrack_map fresh id updates l = l.
Proof.
  induction l as [|track l IH]; intros H; simpl; [reflexivity|].
  destruct (String.eqb (AudioTrack.id track) id) eqn:E.
  - apply String.eqb_eq in E. exfalso.
    exact (H track (or_introl eq_refl) E).
  - f_equal. apply IH. intros t Ht. apply H. now right.
Qed.

(** X10. [updateTrack] on an id that no track of the collection has
    returns the state as it is; so does [deleteTrack] when neither the
    collection nor the queue has the id and the loaded track is another
    one. *)
Theorem missing_track_id_changes_nothing (fresh : nat) (id : string)
  (updates : AudioTrack.partial) (s : AudioStore.t) :
  (forall track, In track (tracks s) -> AudioTrack.id track <> id) ->
  updateTrack fresh id updates s = s
  /\ ((forall track, In track (queue s) -> AudioTrack.id track <> id) ->
      currentTrack_has_id s id = false ->
      deleteTrack id s = s).
Proof.
  intros Ht. split.
  - unfold updateTrack. rewrite updateTrack_map_missing by exact Ht.
    apply with_tracks_same.
  - intros Hq Hc. unfold deleteTrack. rewrite Hc.
    rewrite !filter_everything.
    + destruct s; reflexivity.
    + intros track Hin. apply negb_true_iff, String.eqb_neq. now apply Ht.
    + intros track Hin. apply negb_true_iff, String.eqb_neq. now apply Hq.
Qed.

(** X10 on the sample store, which has no track "Z". *)
Lemma missing_track_id_changes_nothing_witness :
  deleteTrack "Z" sampleStore = sampleStore
  /\ updateTrack 50 "Z" (useAudioPlayer.playCountUpdate 7) sampleStore
     = sampleStore.
Proof.
  assert (Ht : forall track, In track (tracks sampleStore) ->
                             AudioTrack.id track <> "Z"%string).
  { intros track [<- | [<- | [<- | []]]]; discriminate. }
  destruct (missing_track_id_changes_nothing 50 "Z"
              (useAudioPlayer.playCountUpdate 7) sampleStore Ht)
    as (Hu & Hd).
  split; [|exact Hu].
  apply Hd; [|reflexivity].
  intros track [<- | [<- | [<- | []]]]; discriminate.
Defined.

Lemma find_map_same_id (id : string) (f : Playlist.t -> Playlist.t)
  (l : list Playlist.t) :
  (forall p, Playlist.id (f p) = Playlist.id p) ->
  find (fun q => String.eqb (Playlist.id q) id)
    (map (fun q => if String.eqb (Playlist.id q) id then f q else q) l)
  = option_map f (find (fun q => String.eqb (Playlist.id q) id) l).
Proof.
  intros Hf. induction l as [|q l IH]; simpl; [reflexivity|].
  destruct (String.eqb (Playlist.id q) id) eqn:E; simpl.
  - now rewrite Hf, E.
  - now rewrite E.
Qed.

Lemma find_map_other_id (id id' : string) (f : Playlist.t -> Playlist.t)
  (l : list Playlist.t) :
  id' <> id ->
  (forall p, Playlist.id (f p) = Playlist.id p) ->
  find (fun q => String.eqb (Playlist.id q) id')
    (map (fun q => if String.eqb (Playlist.id q) id then f q else q) l)
  = find (fun q => String.eqb (Playlist.id q) id') l.
Proof.
  intros Hne Hf. induction l as [|q l IH]; simpl; [reflexivity|].
  destruct (String.eqb (Playlist.id q) id) eqn:E; simpl.
  - rewrite Hf. apply String.eqb_eq in E.
    destruct (String.eqb (Playlist.id q) id') eqn:E'.
    + apply String.eqb_eq in E'. congruence.
    + exact IH.
  - destruct (String.eqb (Playlist.id q) id'); [reflexivity | exact IH].
Qed.

Lemma find_filter_other (id id' : string) (l : list Playlist.t) :
  id' <> id ->
  find (fun q => String.eqb (Playlist.id q) id')
    (filter (fun q => negb (String.eqb (Playlist.id q) id)) l)
  = find (fun q => String.eqb (Playlist.id q) id') l.
Proof.
  intros Hne. induction l as [|q l IH]; simpl; [reflexivity|].
  destruct (String.eqb (Playlist.id q) id) eqn:E; simpl.
  - apply String.eqb_eq in E.
    destruct (String.eqb (Playlist.id q) id') eqn:E'.
    + apply String.eqb_eq in E'. congruence.
    + exact IH.
  - destruct (String.eqb (Playlist.id q) id'); [reflexivity | exact IH].
Qed.

Lemma find_filter_same (id : string) (l : list Playlist.t) :
  find (fun q => String.eqb (Playlist.id q) id)
    (filter (fun q => negb (String.eqb (Playlist.id q) id)) l) = None.
Proof.
  induction l as [|q l IH]; simpl; [reflexivity|].
  destruct (String.eqb (Playlist.id q) id) eqn:E; simpl.
  - exact IH.
  - now rewrite E.
Qed.

(** X11. After [deletePlaylist(id)] no playlist has the id (all of them go
    when several had it): looking it up gives nothing and it resolves to no
    track; a lookup of any other id gives what it gave before, and the
    tracks, the queue and the loaded track are untouched. *)
Theorem deletePlaylist_lookup (id id' : string) (s : AudioStore.t) :
  usePlaylist.getPlaylistById id (deletePlaylist id s) = None
  /\ getPlaylistTracks id (deletePlaylist id s) = []
  /\ (forall p, In p (playlists (deletePlaylist id s)) ->
                Playlist.id p <> id /\ In p (playlists s))
  /\ (id' <> id ->
      usePlaylist.getPlaylistById id' (deletePlaylist id s)
      = usePlaylist.getPlaylistById id' s)
  /\ (id' <> id ->
      getPlaylistTracks id' (deletePlaylist id s) = getPlaylistTracks id' s)
  /\ deletePlaylist id s = with_playlists (playlists (deletePlaylist id s)) s.
Proof.
  unfold usePlaylist.getPlaylistById, getPlaylistTracks, deletePlaylist.
  simpl. rewrite find_filter_same. repeat split.
  - apply filter_In in H. destruct H as [_ H].
    apply negb_true_iff, String.eqb_neq in H. exact H.
  - apply filter_In in H. tauto.
  - intros Hne. now apply find_filter_other.
  - intros Hne. now rewrite find_filter_other.
Qed.

Lemma filter_not_includes (l : list Playlist.entry) (trackId : string) :
  Playlist.includes
    (filter (fun id => negb (Playlist.entry_eqb id (Some trackId))) l)
    trackId = false.
Proof.
  destruct (Playlist.includes _ trackId) eqn:I; [|reflexivity].
  apply includes_In, filter_In in I. destruct I as [_ I].
  simpl in I. rewrite String.eqb_refl in I. discriminate.
Qed.

Lemma filter_absent (l : list Playlist.entry) (trackId : string) :
  Playlist.includes l trackId = false ->
  filter (fun id => negb (Playlist.entry_eqb id (Some trackId))) l = l.
Proof.
  intros H. apply filter_everything. intros e Hin.
  destruct e as [x|]; simpl; [|reflexivity].
  apply negb_true_iff. destruct (String.eqb x trackId) eqn:E;
    [|reflexivity].
  apply String.eqb_eq in E. subst x.
  apply includes_In in Hin. congruence.
Qed.

(** X12. After [removeTrackFromPlaylist(playlistId, trackId)] no playlist
    with that id lists the track any more (every occurrence goes), and the
    other entries keep their order.  For a playlist that did not list the
    track, adding it and removing it again gives back the track list it
    had. *)
Theorem removeTrackFromPlaylist_removes
  (playlistId trackId now now' : string) (s : AudioStore.t)
  (p : Playlist.t) :
  usePlaylist.getPlaylistById playlistId s = Some p ->
  tracksOfPlaylist playlistId
    (removeTrackFromPlaylist playlistId trackId now s)
  = Some (filter (fun id => negb (Playlist.entry_eqb id (Some trackId)))
            (Playlist.tracks p))
  /\ (forall q,
        In q (playlists (removeTrackFromPlaylist playlistId trackId now s)) ->
        Playlist.id q = playlistId ->
        Playlist.includes (Playlist.tracks q) trackId = false)
  /\ (Playlist.includes (Playlist.tracks p) trackId = false ->
      tracksOfPlaylist playlistId
        (removeTrackFromPlaylist playlistId trackId now'
           (addTrackToPlaylist playlistId trackId now s))
      = Some (Playlist.tracks p)).
Proof.
  intros Hp. unfold usePlaylist.getPlaylistById in Hp. split; [|split].
  - unfold tracksOfPlaylist, usePlaylist.getPlaylistById,
      removeTrackFromPlaylist. simpl.
    rewrite find_map_same_id by reflexivity. now rewrite Hp.
  - intros q Hin Hid. unfold removeTrackFromPlaylist in Hin. simpl in Hin.
    apply in_map_iff in Hin. destruct Hin as (q0 & Hq & _).
    destruct (String.eqb (Playlist.id q0) playlistId) eqn:E.
    + subst q. simpl. apply filter_not_includes.
    + subst q. apply String.eqb_neq in E. contradiction.
  - intros Hno. unfold tracksOfPlaylist, usePlaylist.getPlaylistById,
      removeTrackFromPlaylist, addTrackToPlaylist. simpl.
    rewrite find_map_same_id by reflexivity.
    rewrite find_map_same_id by reflexivity.
    rewrite Hp. simpl. rewrite Hno. f_equal.
    rewrite filter_app. simpl. rewrite String.eqb_refl. simpl.
    rewrite app_nil_r. now apply filter_absent.
Qed.

(** X12 on the sample playlist: "D" added and removed again, "B"
    removed. *)
Lemma removeTrackFromPlaylist_removes_witness :
  usePlaylist.getPlaylistById "p1" sampleStore = Some playlistABC
  /\ tracksOfPlaylist "p1"
       (removeTrackFromPlaylist "p1" "B" "2024-02-02" sampleStore)
     = Some [Some "A"; Some "C"]%string
  /\ tracksOfPlaylist "p1"
       (removeTrackFromPlaylist "p1" "D" "2024-02-03"
          (addTrackToPlaylist "p1" "D" "2024-02-02" sampleStore))
     = Some [Some "A"; Some "B"; Some "C"]%string.
Proof.
  destruct (removeTrackFromPlaylist_removes "p1" "B" "2024-02-02"
              "2024-02-03" sampleStore playlistABC eq_refl) as (HB & _).
  destruct (removeTrackFromPlaylist_removes "p1" "D" "2024-02-02"
              "2024-02-03" sampleStore playlistABC eq_refl)
    as (_ & _ & HD).
  split; [reflexivity|]. split; [exact HB|]. apply HD. reflexivity.
Defined.

(** X13. After [addTrackToPlaylist(playlistId, trackId)] on a playlist that
    exists, [getPlaylistTracks(playlistId)] holds every track of the
    collection with that id and all it held before; when no track has the
    id (a dangling id), it gives exactly what it gave before. *)
Theorem addTrackToPlaylist_resolves (playlistId trackId now : string)
  (s : AudioStore.t) (p : Playlist.t) :
  usePlaylist.getPlaylistById playlistId s = Some p ->
  (forall track, In track (tracks s) -> AudioTrack.id track = trackId ->
     In track
       (getPlaylistTracks playlistId
          (addTrackToPlaylist playlistId trackId now s)))
  /\ (forall track, In track (getPlaylistTracks playlistId s) ->
        In track
          (getPlaylistTracks playlistId
             (addTrackToPlaylist playlistId trackId now s)))
  /\ ((forall track, In track (tracks s) -> AudioTrack.id track <> trackId) ->
      getPlaylistTracks playlistId
        (addTrackToPlaylist playlistId trackId now s)
      = getPlaylistTracks playlistId s).
Proof.
  intros Hp. unfold usePlaylist.getPlaylistById in Hp.
  unfold getPlaylistTracks, addTrackToPlaylist. simpl.
  rewrite find_map_same_id by reflexivity. rewrite Hp. simpl.
  destruct (Playlist.includes (Playlist.tracks p) trackId) eqn:I.
  - repeat split; intros.
    + apply filter_In. split; [assumption|]. now subst trackId.
    + assumption.
  - split; [|split].
    + intros track Hin Hid. apply filter_In. split; [assumption|].
      subst trackId. apply includes_appended.
    + intros track Hin. apply filter_In in Hin. destruct Hin as [Hin Hi].
      apply filter_In. split; [assumption|].
      apply includes_In. apply in_or_app. left. now apply includes_In.
    + intros Hnone. apply filter_ext_in. intros track Hin.
      unfold Playlist.includes. rewrite existsb_app. simpl.
      rewrite orb_false_r.
      destruct (String.eqb (AudioTrack.id track) trackId) eqn:E.
      * apply String.eqb_eq in E. exfalso. exact (Hnone track Hin E).
      * apply orb_false_r.
Qed.

(** X13 on the sample store: "D" is not a track, "A" is. *)
Lemma addTrackToPlaylist_resolves_witness :
  usePlaylist.getPlaylistById "p1" sampleStore = Some playlistABC
  /\ getPlaylistTracks "p1"
       (addTrackToPlaylist "p1" "D" "2024-02-02" sampleStore)
     = getPlaylistTracks "p1" sampleStore.
Proof.
  split; [reflexivity|].
  apply (addTrackToPlaylist_resolves "p1" "D" "2024-02-02" sampleStore
           playlistABC eq_refl).
  intros track [<- | [<- | [<- | []]]]; discriminate.
Defined.

Lemma splice_parts (A : Type) (arr : list A) (start deleteCount : Z)
  (items : list A) :
  exists before removed after,
    arr = before ++ removed ++ after
    /\ JS.splice arr start deleteCount items
       = (before ++ items ++ after, removed)
    /\ (List.length removed <= Z.to_nat (Z.max deleteCount 0))%nat.
Proof.
  unfold JS.splice.
  set (n := Z.to_nat _). set (m := Z.to_nat _).
  exists (firstn n arr), (firstn m (skipn n arr)), (skipn m (skipn n arr)).
  split; [|split].
  - now rewrite !firstn_skipn.
  - reflexivity.
  - rewrite length_firstn. unfold m. lia.
Qed.

(** Whatever the indices, [moveEntry] keeps the ids of the list. *)
Lemma moveEntry_members (l : list Playlist.entry) (fromIndex toIndex : Z)
  (x : string) :
  In (Some x) (usePlaylist.moveEntry l fromIndex toIndex) <-> In (Some x) l.
Proof.
  unfold usePlaylist.moveEntry.
  destruct (splice_parts _ l fromIndex 1 []) as (b & r & a & Hl & -> & Hr).
  cbv beta iota zeta. change (b ++ [] ++ a) with (b ++ a).
  match goal with
  | |- context [JS.splice (b ++ a) toIndex 0 ?items] =>
      destruct (splice_parts _ (b ++ a) toIndex 0 items)
        as (b' & r' & a' & Hl' & -> & Hr')
  end.
  simpl fst.
  destruct r' as [|e' r']; [|simpl in Hr'; lia]. simpl in Hl'.
  assert (Hmem : In (Some x) b' \/ In (Some x) a'
                 <-> In (Some x) b \/ In (Some x) a)
    by (rewrite <- (in_app_iff b' a'), <- (in_app_iff b a), Hl'; tauto).
  rewrite Hl, !in_app_iff. simpl In.
  destruct r as [|e [|e2 r]].
  - simpl. split; [intros [H|[H|H]]|intros [H|[[]|H]]];
      try discriminate; tauto.
  - simpl. tauto.
  - simpl in Hr. change (Z.to_nat (Z.max 1 0)) with 1%nat in Hr. lia.
Qed.

Lemma includes_moveEntry (l : list Playlist.entry) (fromIndex toIndex : Z)
  (x : string) :
  Playlist.includes (usePlaylist.moveEntry l fromIndex toIndex) x
  = Playlist.includes l x.
Proof.
  destruct (Playlist.includes l x) eqn:I.
  - apply includes_In. apply moveEntry_members. now apply includes_In.
  - destruct (Playlist.includes
                (usePlaylist.moveEntry l fromIndex toIndex) x) eqn:I';
      [|reflexivity].
    apply includes_In, moveEntry_members, includes_In in I'. congruence.
Qed.

(** X14. [reorderTracks] never changes what a playlist resolves to, for
    any indices: [getPlaylistTracks] gives the tracks in the order of the
    collection, not of the playlist, so after a reorder it gives the same
    list as before, for the reordered playlist and for every other. *)
Theorem reorderTracks_keeps_resolution
  (playlistId id' : string) (fromIndex toIndex : Z) (now : string)
  (s : AudioStore.t) :
  getPlaylistTracks id'
    (usePlaylist.reorderTracks playlistId fromIndex toIndex now s)
  = getPlaylistTracks id' s.
Proof.
  unfold usePlaylist.reorderTracks.
  destruct (usePlaylist.getPlaylistById playlistId s) as [p|] eqn:Hp;
    [|reflexivity].
  unfold usePlaylist.getPlaylistById in Hp.
  unfold getPlaylistTracks, updatePlaylist. simpl.
  destruct (String.eqb id' playlistId) eqn:E.
  - apply String.eqb_eq in E. subst id'.
    rewrite find_map_same_id by reflexivity. rewrite Hp. simpl.
    apply filter_ext. intros track. apply includes_moveEntry.
  - apply String.eqb_neq in E.
    now rewrite find_map_other_id by (auto; reflexivity).
Qed.

Lemma find_app_some (A : Type) (f : A -> bool) (l1 l2 : list A) (a : A) :
  find f l1 = Some a -> find f (l1 ++ l2) = Some a.
Proof.
  induction l1 as [|b l1 IH]; simpl; [discriminate|].
  destruct (f b); [auto | exact IH].
Qed.

Lemma find_app_other (A : Type) (f : A -> bool) (l1 : list A) (a : A) :
  f a = false -> find f (l1 ++ [a]) = find f l1.
Proof.
  intros Ha. induction l1 as [|b l1 IH]; simpl.
  - now rewrite Ha.
  - destruct (f b); [reflexivity | exact IH].
Qed.

(** X15. After [addPlaylist] with a generated id that no playlist has, a
    lookup of that id gives the new playlist, made of the data passed in
    and of the two dates.  When a playlist has the id already, the lookup
    keeps giving that one: the new playlist is in the list, but the hook
    cannot reach it by id.  Lookups of other ids are as before. *)
Theorem addPlaylist_lookup (playlistData : Playlist.data)
  (newId created updated id' : string) (s : AudioStore.t) :
  let s' := addPlaylist playlistData newId created updated s in
  (usePlaylist.getPlaylistById newId s = None ->
   usePlaylist.getPlaylistById newId s'
   = Some (Playlist.mk newId (Playlist.d_name playlistData)
             (Playlist.d_description playlistData)
             (Playlist.d_tracks playlistData) created updated
             (Playlist.d_isDefault playlistData)))
  /\ (forall p, usePlaylist.getPlaylistById newId s = Some p ->
                usePlaylist.getPlaylistById newId s' = Some p)
  /\ (id' <> newId ->
      usePlaylist.getPlaylistById id' s'
      = usePlaylist.getPlaylistById id' s)
  /\ List.length (playlists s') = S (List.length (playlists s)).
Proof.
  intros s'. subst s'. unfold usePlaylist.getPlaylistById, addPlaylist.
  simpl. repeat split.
  - intros H. rewrite find_app_none by exact H. simpl.
    now rewrite String.eqb_refl.
  - intros p H. now apply find_app_some.
  - intros H. apply find_app_other. simpl. apply String.eqb_neq. congruence.
  - rewrite length_app. simpl. lia.
Qed.

(** X16. [duplicatePlaylist(id, newName)] on a playlist that exists, with
    a generated id that is new, adds a playlist with the same description
    and track list, never marked as default, named [newName] or, when that
    is missing or empty, after the original with " (Copy)"; the copy
    resolves to the same tracks as the original, which is still there. *)
Theorem duplicatePlaylist_copies (id : string) (newName : option string)
  (newId created updated : string) (s : AudioStore.t) (p : Playlist.t) :
  usePlaylist.getPlaylistById id s = Some p ->
  usePlaylist.getPlaylistById newId s = None ->
  let s' :=
    usePlaylist.duplicatePlaylist id newName newId created updated s in
  usePlaylist.getPlaylistById newId s'
  = Some (Playlist.mk newId (usePlaylist.duplicatedName p newName)
            (Playlist.description p) (Playlist.tracks p) created updated
            (Some false))
  /\ getPlaylistTracks newId s' = getPlaylistTracks id s
  /\ usePlaylist.getPlaylistById id s' = Some p
  /\ usePlaylist.duplicatedName p None
     = (Playlist.name p ++ " (Copy)")%string
  /\ usePlaylist.duplicatedName p (Some EmptyString)
     = (Playlist.name p ++ " (Copy)")%string.
Proof.
  intros Hp Hnew s'.
  assert (Hs' : s' = addPlaylist
                       (Playlist.mkData (usePlaylist.duplicatedName p newName)
                          (Playlist.description p) (Playlist.tracks p)
                          (Some false))
                       newId created updated s).
  { unfold s', usePlaylist.duplicatePlaylist. now rewrite Hp. }
  unfold usePlaylist.getPlaylistById in *.
  assert (Hfind : find (fun q => String.eqb (Playlist.id q) newId)
                    (playlists s')
                  = Some (Playlist.mk newId
                            (usePlaylist.duplicatedName p newName)
                            (Playlist.description p) (Playlist.tracks p)
                            created updated (Some false))).
  { rewrite Hs'. unfold addPlaylist. simpl.
    rewrite find_app_none by exact Hnew. simpl.
    now rewrite String.eqb_refl. }
  split; [exact Hfind|]. split; [|split; [|split; reflexivity]].
  - unfold getPlaylistTracks. rewrite Hfind, Hp. simpl.
    rewrite Hs'. reflexivity.
  - rewrite Hs'. unfold addPlaylist. simpl. now apply find_app_some.
Qed.

(** X16 on the sample playlist, copied under the new id "p2". *)
Lemma duplicatePlaylist_copies_witness :
  usePlaylist.getPlaylistById "p1" sampleStore = Some playlistABC
  /\ usePlaylist.getPlaylistById "p2" sampleStore = None
  /\ getPlaylistTracks "p2"
       (usePlaylist.duplicatePlaylist "p1" None "p2" "2024-03-01"
          "2024-03-01" sampleStore)
     = getPlaylistTracks "p1" sampleStore.
Proof.
  split; [reflexivity|]. split; [reflexivity|].
  exact (proj1 (proj2
    (duplicatePlaylist_copies "p1" None "p2" "2024-03-01" "2024-03-01"
       sampleStore playlistABC eq_refl eq_refl))).
Defined.

(** X17. [exportPlaylist] gives [null] exactly for an id no playlist has.
    Otherwise the snapshot carries the playlist's name and description and
    one entry per resolved track, in the order of the collection; every
    entry is made of a stored track whose id the playlist lists, so ids
    without a track are left out, and [totalTracks] counts the entries. *)
Theorem exportPlaylist_snapshot (id now : string) (s : AudioStore.t) :
  match usePlaylist.exportPlaylist id now s with
  | None => usePlaylist.getPlaylistById id s = None
  | Some snap =>
      exists p,
        usePlaylist.getPlaylistById id s = Some p
        /\ usePlaylist.pd_name (usePlaylist.playlist snap) = Playlist.name p
        /\ usePlaylist.pd_description (usePlaylist.playlist snap)
           = Playlist.description p
        /\ usePlaylist.pd_tracks (usePlaylist.playlist snap)
           = map (fun track =>
                    usePlaylist.mkTrackData (AudioTrack.title track)
                      (AudioTrack.artist track) (AudioTrack.duration track)
                      (AudioTrack.url track))
               (getPlaylistTracks id s)
        /\ usePlaylist.totalTracks (usePlaylist.metadata snap)
           = JS.length (usePlaylist.pd_tracks (usePlaylist.playlist snap))
        /\ (forall td,
              In td (usePlaylist.pd_tracks (usePlaylist.playlist snap)) ->
              exists track,
                In track (tracks s)
                /\ Playlist.includes (Playlist.tracks p)
                     (AudioTrack.id track) = true
                /\ usePlaylist.td_title td = AudioTrack.title track
                /\ usePlaylist.td_artist td = AudioTrack.artist track
                /\ usePlaylist.td_url td = AudioTrack.url track)
  end.
Proof.
  unfold usePlaylist.exportPlaylist.
  destruct (usePlaylist.getPlaylistById id s) as [p|] eqn:Hp;
    [|reflexivity].
  exists p. simpl. repeat split.
  - unfold JS.length. now rewrite length_map.
  - intros td Hin. apply in_map_iff in Hin.
    destruct Hin as (track & <- & Hin).
    unfold usePlaylist.getTracksForPlaylist, getPlaylistTracks in Hin.
    unfold usePlaylist.getPlaylistById in Hp. rewrite Hp in Hin.
    apply filter_In in Hin. destruct Hin as [Hin Hinc].
    exists track. repeat split; assumption.
Qed.

(** ** Volume, rate and time *)

(** Case analysis on every comparison of two rationals in the goal, the
    innermost first. *)
Ltac qcases :=
  repeat
    match goal with
    | |- context [(?a ?= ?b)%Q] =>
        lazymatch a with
        | context [Qcompare] => fail
        | _ =>
            lazymatch b with
            | context [Qcompare] => fail
            | _ => qcompare a b; cbv beta iota
            end
        end
    end.

Lemma clamp_idempotent (lo hi : Q) (v : JS.number) :
  (lo <= hi)%Q -> clamp lo hi (clamp lo hi v) = clamp lo hi v.
Proof.
  intros Hle. destruct v as [| |q|]; unfold clamp; try reflexivity;
    unfold Qmin, Qmax, GenericMinMax.gmin, GenericMinMax.gmax;
    qcases; try reflexivity; lra.
Qed.

Lemma clamp_not_NaN (lo hi : Q) (v : JS.number) :
  (lo <= hi)%Q -> v <> JS.NaN ->
  exists c, clamp lo hi v = JS.Fin c /\ (lo <= c <= hi)%Q.
Proof.
  intros Hle Hv. destruct v as [| |q|].
  - contradiction.
  - exists (Qmin lo hi). split; [reflexivity|].
    unfold Qmin, GenericMinMax.gmin. qcases; lra.
  - destruct (clamp_range lo hi q Hle) as (c & Hc & Hr & _).
    exists c. split; assumption.
  - exists hi. split; [reflexivity|]. lra.
Qed.

(** X18. The hook clamps before it calls the store, and the store clamps
    again: [handleVolumeChange(v)] is [setVolume(v)] and
    [handlePlaybackRateChange(r)] is [setPlaybackRate(r)].  What is stored
    is within [0, 1] (within [0.25, 4] for the rate) for every input but
    [NaN], which is stored as it is. *)
Theorem volume_and_rate_stay_in_range (v r : JS.number) (s : AudioStore.t) :
  useAudioPlayer.handleVolumeChange v s = setVolume v s
  /\ useAudioPlayer.handlePlaybackRateChange r s = setPlaybackRate r s
  /\ volume (setVolume JS.NaN s) = JS.NaN
  /\ playbackRate (setPlaybackRate JS.NaN s) = JS.NaN
  /\ (v <> JS.NaN ->
      exists c, volume (setVolume v s) = JS.Fin c /\ (0 <= c <= 1)%Q)
  /\ (r <> JS.NaN ->
      exists c, playbackRate (setPlaybackRate r s) = JS.Fin c
                /\ (0.25 <= c <= 4)%Q).
Proof.
  unfold useAudioPlayer.handleVolumeChange,
    useAudioPlayer.handlePlaybackRateChange, audioUtils.normalizeVolume,
    audioUtils.normalizePlaybackRate, setVolume, setPlaybackRate.
  rewrite !Math_min_max_clamp.
  rewrite !clamp_idempotent by lra.
  split; [reflexivity|]. split; [reflexivity|].
  split; [reflexivity|]. split; [reflexivity|]. split.
  - intros Hv. simpl. apply clamp_not_NaN; [lra | exact Hv].
  - intros Hr. simpl. apply clamp_not_NaN; [lra | exact Hr].
Qed.

Lemma ltb_irrefl (x : JS.number) : JS.ltb x x = false.
Proof.
  destruct x as [| |q|]; simpl; try reflexivity.
  apply Qltb_ge. lra.
Qed.

Lemma ltb_asym (x y : JS.number) : JS.ltb x y = true -> JS.ltb y x = false.
Proof.
  destruct x as [| |a|], y as [| |b|]; simpl; try congruence.
  intros H. apply Qltb_lt in H. apply Qltb_ge. lra.
Qed.

Lemma ltb_Math_max (a b : JS.number) : JS.ltb (JS.Math_max a b) a = false.
Proof.
  unfold JS.Math_max.
  destruct (JS.is_nan a || JS.is_nan b); [reflexivity|].
  destruct (JS.ltb a b) eqn:E; [now apply ltb_asym | apply ltb_irrefl].
Qed.

Lemma ltb_Math_min (a b : JS.number) : JS.ltb a (JS.Math_min a b) = false.
Proof.
  unfold JS.Math_min.
  destruct (JS.is_nan a || JS.is_nan b);
    [destruct a; reflexivity|].
  destruct (JS.ltb b a) eqn:E; [now apply ltb_asym | apply ltb_irrefl].
Qed.

Lemma dispatch_duration (a : action) (s : AudioStore.t) :
  duration (dispatch a s) = duration s.
Proof.
  destruct a; try reflexivity.
  - simpl. unfold nextTrack.
    destruct (JS.length (queue s) =? 0), (shuffleMode s),
      (currentIndex s + 1 >=? JS.length (queue s)),
      (RepeatMode_eqb (repeatMode s) all); reflexivity.
  - simpl. unfold previousTrack.
    destruct (JS.length (queue s) =? 0), (shuffleMode s),
      (currentIndex s - 1 <? 0),
      (RepeatMode_eqb (repeatMode s) all); reflexivity.
Qed.

Lemma dispatches_duration (acts : list action) (s : AudioStore.t) :
  duration (dispatches acts s) = duration s.
Proof.
  revert s. induction acts as [|a acts IH]; intros s; simpl;
    [reflexivity|].
  now rewrite IH, dispatch_duration.
Qed.

(** X19. No action of the store writes [duration]: it is the same after
    every action, so it is 0 in every state reached from the initial one,
    and 0 again after a restart. *)
Theorem duration_is_never_set (thisYear : Z) (a : action)
  (acts : list action) (s : AudioStore.t) :
  duration (dispatch a s) = duration s
  /\ duration (dispatches acts (initial thisYear)) = JS.Fin 0
  /\ duration (restart thisYear s) = JS.Fin 0.
Proof.
  split; [apply dispatch_duration|].
  split; [apply dispatches_duration | reflexivity].
Qed.

(** X20. The media-session handlers: "seekbackward" never seeks below 0
    and "seekforward" never seeks beyond the [duration] of the store; the
    step is 10 when the offset is missing or 0.  As the store's [duration]
    is 0 in every state reached from the initial one, "seekforward" there
    never seeks to a time after 0. *)
Theorem media_session_seek_bounds (thisYear : Z) (acts : list action)
  (seekOffset : option JS.number) (s : AudioStore.t) :
  JS.ltb (currentTime (useAudioPlayer.seekbackward seekOffset s)) (JS.Fin 0)
  = false
  /\ JS.ltb (duration s)
       (currentTime (useAudioPlayer.seekforward seekOffset s)) = false
  /\ useAudioPlayer.skipTime None = JS.Fin 10
  /\ useAudioPlayer.skipTime (Some (JS.Fin 0)) = JS.Fin 10
  /\ JS.ltb (JS.Fin 0)
       (currentTime
          (useAudioPlayer.seekforward seekOffset
             (dispatches acts (initial thisYear)))) = false.
Proof.
  split; [apply ltb_Math_max|]. split; [apply ltb_Math_min|].
  split; [reflexivity|]. split; [reflexivity|].
  rewrite <- (dispatches_duration acts (initial thisYear)) at 1.
  apply ltb_Math_min.
Qed.

(** ** The end of a track, and toggling *)


(** X22. [togglePlayPause] twice gives back the state exactly when the
    state was playing or paused (one flag set).  From the stopped state,
    with both flags off, the first call starts playing and the second
    pauses: toggling never leads back to stopped. *)
Theorem togglePlayPause_twice (s : AudioStore.t) :
  (togglePlayPause (togglePlayPause s) = s
   <-> isPaused s = negb (isPlaying s))
  /\ isPlaying (togglePlayPause (togglePlayPause s)) = isPlaying s
  /\ isPaused (togglePlayPause (togglePlayPause s)) = negb (isPlaying s)
  /\ (isPlaying s = false ->
      isPlaying (togglePlayPause s) = true
      /\ isPaused (togglePlayPause s) = false).
Proof.
  destruct s as [ct pl pa tm du vo ra re sh qu ci pls trs fo].
  unfold togglePlayPause. simpl. repeat split.
  - intros H. injection H as H1 H2. rewrite negb_involutive in H1.
    congruence.
  - intros ->. now rewrite negb_involutive.
  - apply negb_involutive.
  - now rewrite H.
  - assumption.
Qed.

(** ** Sorting and filtering the collection *)

Lemma sort_insert_Permutation (A : Type) (compare : A -> A -> Z) (a : A)
  (l : list A) :
  Permutation (JS.sort_insert compare a l) (a :: l).
Proof.
  induction l as [|b l IH]; simpl; [reflexivity|].
  destruct (compare a b >? 0); [|reflexivity].
  rewrite IH. apply perm_swap.
Qed.

Lemma sort_Permutation (A : Type) (compare : A -> A -> Z) (l : list A) :
  Permutation (JS.sort compare l) l.
Proof.
  induction l as [|a l IH]; simpl; [reflexivity|].
  rewrite sort_insert_Permutation. now constructor.
Qed.

Lemma sort_insert_Sorted (A : Type) (compare : A -> A -> Z) (a : A)
  (l : list A) :
  (forall x y, compare x y > 0 -> compare y x <= 0) ->
  Sorted (fun x y => compare x y <= 0) l ->
  Sorted (fun x y => compare x y <= 0) (JS.sort_insert compare a l).
Proof.
  intros Hasym. induction l as [|b l IH]; intros Hs; simpl.
  - repeat constructor.
  - destruct (compare a b >? 0) eqn:E.
    + apply Z.gtb_lt in E. inversion Hs as [|? ? Hs' Hhd]; subst.
      constructor; [now apply IH|].
      destruct l as [|c l]; simpl.
      * constructor. apply Hasym. lia.
      * destruct (compare a c >? 0).
        -- inversion Hhd; subst. now constructor.
        -- constructor. apply Hasym. lia.
    + constructor; [exact Hs|]. constructor.
      destruct (Z.gtb_spec (compare a b) 0); [discriminate | lia].
Qed.

Lemma sort_Sorted (A : Type) (compare : A -> A -> Z) (l : list A) :
  (forall x y, compare x y > 0 -> compare y x <= 0) ->
  Sorted (fun x y => compare x y <= 0) (JS.sort compare l).
Proof.
  intros Hasym. induction l as [|a l IH]; simpl; [constructor|].
  now apply sort_insert_Sorted.
Qed.

Lemma sort_of_Sorted (A : Type) (compare : A -> A -> Z) (l : list A) :
  Sorted (fun x y => compare x y <= 0) l -> JS.sort compare l = l.
Proof.
  induction l as [|a l IH]; intros Hs; simpl; [reflexivity|].
  inversion Hs as [|? ? Hs' Hhd]; subst. rewrite IH by exact Hs'.
  destruct l as [|b l]; simpl; [reflexivity|].
  inversion Hhd; subst.
  destruct (Z.gtb_spec (compare a b) 0); [lia | reflexivity].
Qed.

Lemma String_ltb_asym (x y : string) :
  String.ltb x y = true -> String.ltb y x = false.
Proof.
  unfold String.ltb. rewrite (String.compare_antisym x y).
  destruct (String.compare y x); simpl; congruence.
Qed.

Lemma value_ltb_asym (a b : audioUtils.sortValue) :
  audioUtils.value_ltb a b = true -> audioUtils.value_ltb b a = false.
Proof.
  destruct a, b; simpl; try congruence.
  - apply String_ltb_asym.
  - apply ltb_asym.
Qed.

Lemma sort_insert_filter (A : Type) (compare : A -> A -> Z)
  (P : A -> bool) (a : A) (l : list A) :
  (forall b, P a = true -> P b = true -> compare a b <= 0) ->
  filter P (JS.sort_insert compare a l) = filter P (a :: l).
Proof.
  intros Htie. induction l as [|b l IH]; [reflexivity|].
  cbn [JS.sort_insert]. destruct (Z.gtb_spec (compare a b) 0) as [Hgt|Hle];
    [|reflexivity].
  cbn [filter] in *. rewrite IH.
  destruct (P a) eqn:Pa, (P b) eqn:Pb; try reflexivity.
  specialize (Htie b eq_refl Pb). lia.
Qed.

Lemma sort_filter (A : Type) (compare : A -> A -> Z) (P : A -> bool)
  (l : list A) :
  (forall a b, P a = true -> P b = true -> compare a b <= 0) ->
  filter P (JS.sort compare l) = filter P l.
Proof.
  intros Htie. induction l as [|a l IH]; [reflexivity|].
  cbn [JS.sort]. rewrite sort_insert_filter by (intros b; apply Htie).
  cbn [filter]. now rewrite IH.
Qed.

Lemma String_ltb_irrefl (x : string) : String.ltb x x = false.
Proof.
  destruct (String.ltb x x) eqn:E; [|reflexivity].
  pose proof (String_ltb_asym _ _ E). congruence.
Qed.

Lemma String_tie_eq (x a : string) :
  String.ltb x a = false -> String.ltb a x = false -> x = a.
Proof.
  unfold String.ltb. rewrite (String.compare_antisym a x).
  destruct (String.compare x a) eqn:E; simpl; try discriminate.
  intros _ _. now apply String.compare_eq_iff.
Qed.

Lemma ltb_tie_trans (x a b : JS.number) :
  x <> JS.NaN ->
  JS.ltb x a = false -> JS.ltb a x = false ->
  JS.ltb x b = false -> JS.ltb b x = false ->
  JS.ltb a b = false.
Proof.
  destruct x as [| |x|], a as [| |a|], b as [| |b|]; simpl;
    try congruence.
  intros _ H1 H2 H3 H4.
  apply Qltb_ge in H1, H2, H3, H4. apply Qltb_ge. lra.
Qed.

Lemma value_tie_trans (x a b : audioUtils.sortValue) :
  match x, a, b with
  | audioUtils.VString _, audioUtils.VString _, audioUtils.VString _ => True
  | audioUtils.VNumber _, audioUtils.VNumber _, audioUtils.VNumber _ => True
  | _, _, _ => False
  end ->
  x <> audioUtils.VNumber JS.NaN ->
  audioUtils.value_ltb x a = false -> audioUtils.value_ltb a x = false ->
  audioUtils.value_ltb x b = false -> audioUtils.value_ltb b x = false ->
  audioUtils.value_ltb a b = false.
Proof.
  destruct x as [x|x], a as [a|a], b as [b|b]; simpl; try tauto.
  - intros _ _ H1 H2 H3 H4.
    rewrite <- (String_tie_eq x a H1 H2), <- (String_tie_eq x b H3 H4).
    apply String_ltb_irrefl.
  - intros _ Hx. apply ltb_tie_trans. congruence.
Qed.

Section SortAndFilter.

Variable toLowerCase : string -> string.
Variable trim : string -> string.
Variable Date_getTime : string -> JS.number.

Lemma compareTracks_asym (sortBy : SortKey) (sortOrder : SortOrder)
  (x y : AudioTrack.t) :
  audioUtils.compareTracks toLowerCase Date_getTime sortBy sortOrder x y > 0 ->
  audioUtils.compareTracks toLowerCase Date_getTime sortBy sortOrder y x <= 0.
Proof.
  unfold audioUtils.compareTracks.
  destruct (audioUtils.value_ltb _ _) eqn:E1 at 1.
  - rewrite (value_ltb_asym _ _ E1), E1. destruct sortOrder; lia.
  - destruct (audioUtils.value_ltb _ _) eqn:E2 at 1.
    + rewrite E2. destruct sortOrder; lia.
    + rewrite E2, E1. lia.
Qed.

Lemma compareTracks_order (sortBy : SortKey) (sortOrder : SortOrder)
  (x y : AudioTrack.t) :
  audioUtils.compareTracks toLowerCase Date_getTime sortBy sortOrder x y
  <= 0 ->
  in_order toLowerCase Date_getTime sortBy sortOrder x y.
Proof.
  unfold audioUtils.compareTracks, in_order.
  destruct (audioUtils.value_ltb
              (audioUtils.sortValueOf toLowerCase Date_getTime sortBy x)
              (audioUtils.sortValueOf toLowerCase Date_getTime sortBy y))
    eqn:E1.
  - destruct sortOrder; [|lia]. intros _. now apply value_ltb_asym.
  - destruct (audioUtils.value_ltb
                (audioUtils.sortValueOf toLowerCase Date_getTime sortBy y)
                (audioUtils.sortValueOf toLowerCase Date_getTime sortBy x))
      eqn:E2; destruct sortOrder; try lia; reflexivity.
Qed.

Lemma in_order_compareTracks (sortBy : SortKey) (sortOrder : SortOrder)
  (x y : AudioTrack.t) :
  in_order toLowerCase Date_getTime sortBy sortOrder x y ->
  audioUtils.compareTracks toLowerCase Date_getTime sortBy sortOrder x y
  <= 0.
Proof.
  unfold audioUtils.compareTracks, in_order.
  destruct (audioUtils.value_ltb
              (audioUtils.sortValueOf toLowerCase Date_getTime sortBy x)
              (audioUtils.sortValueOf toLowerCase Date_getTime sortBy y))
    eqn:E1;
    destruct (audioUtils.value_ltb
                (audioUtils.sortValueOf toLowerCase Date_getTime sortBy y)
                (audioUtils.sortValueOf toLowerCase Date_getTime sortBy x))
      eqn:E2;
    destruct sortOrder; intros H; try discriminate; lia.
Qed.

Lemma ties_compareTracks (sortBy : SortKey) (sortOrder : SortOrder)
  (x a b : AudioTrack.t) :
  audioUtils.sortValueOf toLowerCase Date_getTime sortBy x
  <> audioUtils.VNumber JS.NaN ->
  ties toLowerCase Date_getTime sortBy x a = true ->
  ties toLowerCase Date_getTime sortBy x b = true ->
  audioUtils.compareTracks toLowerCase Date_getTime sortBy sortOrder a b
  <= 0.
Proof.
  unfold ties. cbv zeta. intros Hx Ha Hb.
  apply andb_true_iff in Ha, Hb. destruct Ha as (Ha1 & Ha2).
  destruct Hb as (Hb1 & Hb2).
  apply negb_true_iff in Ha1, Ha2, Hb1, Hb2.
  assert (Hkind :
    forall u v w : AudioTrack.t,
      match audioUtils.sortValueOf toLowerCase Date_getTime sortBy u,
            audioUtils.sortValueOf toLowerCase Date_getTime sortBy v,
            audioUtils.sortValueOf toLowerCase Date_getTime sortBy w with
      | audioUtils.VString _, audioUtils.VString _, audioUtils.VString _ =>
          True
      | audioUtils.VNumber _, audioUtils.VNumber _, audioUtils.VNumber _ =>
          True
      | _, _, _ => False
      end) by (intros; destruct sortBy; exact I).
  pose proof (value_tie_trans _ _ _ (Hkind x a b) Hx Ha1 Ha2 Hb1 Hb2) as Hab.
  pose proof (value_tie_trans _ _ _ (Hkind x b a) Hx Hb1 Hb2 Ha1 Ha2) as Hba.
  unfold audioUtils.compareTracks. cbv zeta. rewrite Hab, Hba. lia.
Qed.

(** X24. [sortTracks] returns the same tracks, each as often as it came in
    (whatever the comparison does).  When no value compared is [NaN] (only
    a date that cannot be read gives one): the order is one in which no
    track is directly followed by one that belongs before it (ascending,
    the value of the next track is never smaller; descending, never
    larger); a list that is in this order already comes back as it is;
    the tracks that tie with a given track of the list come out in the
    order in which they came in, so tracks that compare equal are not
    swapped; and sorting the result again changes nothing. *)
Theorem sortTracks_sorts (tracks : list AudioTrack.t) (sortBy : SortKey)
  (sortOrder : SortOrder) :
  Permutation
    (audioUtils.sortTracks toLowerCase Date_getTime tracks sortBy sortOrder)
    tracks
  /\ ((forall track,
         In track tracks ->
         audioUtils.sortValueOf toLowerCase Date_getTime sortBy track
         <> audioUtils.VNumber JS.NaN) ->
      Sorted (in_order toLowerCase Date_getTime sortBy sortOrder)
        (audioUtils.sortTracks toLowerCase Date_getTime tracks sortBy
           sortOrder)
      /\ (Sorted (in_order toLowerCase Date_getTime sortBy sortOrder)
            tracks ->
          audioUtils.sortTracks toLowerCase Date_getTime tracks sortBy
            sortOrder
          = tracks)
      /\ (forall x,
            In x tracks ->
            filter (ties toLowerCase Date_getTime sortBy x)
              (audioUtils.sortTracks toLowerCase Date_getTime tracks sortBy
                 sortOrder)
            = filter (ties toLowerCase Date_getTime sortBy x) tracks)
      /\ audioUtils.sortTracks toLowerCase Date_getTime
           (audioUtils.sortTracks toLowerCase Date_getTime tracks sortBy
              sortOrder)
           sortBy sortOrder
         = audioUtils.sortTracks toLowerCase Date_getTime tracks sortBy
             sortOrder).
Proof.
  unfold audioUtils.sortTracks.
  pose proof
    (sort_Sorted _
       (audioUtils.compareTracks toLowerCase Date_getTime sortBy sortOrder)
       tracks (compareTracks_asym sortBy sortOrder)) as Hs.
  split; [apply sort_Permutation|]. intros Hnan.
  split; [|split; [|split]].
  - eapply Sorted_ind with
      (P := fun l => Sorted _ l); [constructor| |exact Hs].
    intros a l _ IH Hhd. constructor; [exact IH|].
    destruct Hhd; constructor. now apply compareTracks_order.
  - intros Hin. apply sort_of_Sorted.
    eapply Sorted_ind with
      (P := fun l => Sorted _ l); [constructor| |exact Hin].
    intros a l _ IH Hhd. constructor; [exact IH|].
    destruct Hhd; constructor. now apply in_order_compareTracks.
  - intros x Hx. apply sort_filter. intros a b Ha Hb.
    apply (ties_compareTracks sortBy sortOrder x a b (Hnan x Hx) Ha Hb).
  - now apply sort_of_Sorted.
Qed.

Lemma leb_inject (a b : Z) :
  JS.leb (JS.Fin (inject_Z a)) (JS.Fin (inject_Z b)) = (a <=? b).
Proof.
  simpl. destruct (Z.leb_spec a b) as [H|H].
  - apply Qle_bool_iff. now rewrite <- Zle_Qle.
  - destruct (Qle_bool (inject_Z a) (inject_Z b)) eqn:E; [|reflexivity].
    apply Qle_bool_iff in E. rewrite <- Zle_Qle in E. lia.
Qed.

Lemma ltb_inject (a b : Z) :
  JS.ltb (JS.Fin (inject_Z a)) (JS.Fin (inject_Z b)) = (a <? b).
Proof.
  simpl. unfold JS.Qltb.
  change (Qle_bool (inject_Z b) (inject_Z a))
    with (JS.leb (JS.Fin (inject_Z b)) (JS.Fin (inject_Z a))).
  rewrite leb_inject. destruct (Z.leb_spec b a), (Z.ltb_spec a b);
    simpl; try reflexivity; lia.
Qed.

Lemma filterTracksBySearch_incl (tracks : list AudioTrack.t)
  (search : string) :
  incl (audioUtils.filterTracksBySearch toLowerCase trim tracks search)
    tracks.
Proof.
  unfold audioUtils.filterTracksBySearch.
  destruct (negb _); [apply incl_refl | apply incl_filter].
Qed.

Lemma applyFilters_incl (thisYear : Z) (s : AudioStore.t) :
  incl (applyFilters toLowerCase trim thisYear s) (tracks s).
Proof.
  unfold applyFilters.
  repeat match goal with
         | |- incl (if ?c then _ else _) _ => destruct c
         | |- incl (filter _ _) _ =>
             eapply incl_tran; [apply incl_filter|]
         | |- incl (audioUtils.filterTracksBySearch _ _ _ _) _ =>
             eapply incl_tran; [apply filterTracksBySearch_incl|]
         end;
    apply incl_refl.
Qed.

(** The filters under the default options of the year [savedYear], applied
    in the year [thisYear]. *)
Lemma applyFilters_default (savedYear thisYear : Z) (s : AudioStore.t) :
  filterOptions s = defaultFilterOptions savedYear ->
  applyFilters toLowerCase trim thisYear s
  = if savedYear <? thisYear
    then filter (yearWithin (FilterOptions.year
                               (defaultFilterOptions savedYear)) thisYear)
           (tracks s)
    else tracks s.
Proof.
  intros Ho. unfold applyFilters. rewrite Ho.
  cbn [defaultFilterOptions FilterOptions.search FilterOptions.tags
       FilterOptions.genre FilterOptions.year FilterOptions.rating
       FilterOptions.min FilterOptions.max JS.nonempty JS.length
       List.length Z.of_nat Z.gtb Z.compare].
  change (JS.ltb (JS.Fin 1900) (JS.Fin 1900)) with false.
  change (JS.ltb (JS.Fin 0) (JS.Fin 0)) with false.
  change (JS.ltb (JS.Fin 5) (JS.Fin 5)) with false.
  rewrite ltb_inject. cbn [orb].
  destruct (savedYear <? thisYear); reflexivity.
Qed.

(** X25. [getFilteredTracks] only returns tracks of the collection.  With
    the default options, in the year they were made for, it returns all of
    them (each as often as the collection has it), sorted. *)
Theorem getFilteredTracks_default (thisYear savedYear : Z)
  (s : AudioStore.t) :
  (forall track,
     In track (getFilteredTracks toLowerCase trim Date_getTime thisYear s) ->
     In track (tracks s))
  /\ (filterOptions s = defaultFilterOptions savedYear ->
      thisYear <= savedYear ->
      Permutation
        (getFilteredTracks toLowerCase trim Date_getTime thisYear s)
        (tracks s)).
Proof.
  unfold getFilteredTracks, audioUtils.sortTracks. split.
  - intros track Hin. apply (applyFilters_incl thisYear s).
    eapply Permutation_in; [apply sort_Permutation | exact Hin].
  - intros Ho Hy. rewrite sort_Permutation.
    rewrite (applyFilters_default savedYear thisYear s Ho).
    destruct (Z.ltb_spec savedYear thisYear); [lia | reflexivity].
Qed.

(** X26. The default options keep the year they were made in as the upper
    end of the year range (and they are persisted).  Used in a later year,
    the year filter is on: a track without a year counts as of the current
    year and is dropped, and a track with a year [y] is returned exactly
    when [1900 <= y <= savedYear]. *)
Theorem getFilteredTracks_after_new_year (thisYear savedYear : Z)
  (s : AudioStore.t) :
  filterOptions s = defaultFilterOptions savedYear ->
  savedYear < thisYear ->
  (forall track,
     TrackMetadata.year (AudioTrack.metadata track) = None ->
     ~ In track (getFilteredTracks toLowerCase trim Date_getTime thisYear s))
  /\ (forall track y,
        In track (tracks s) ->
        TrackMetadata.year (AudioTrack.metadata track)
        = Some (JS.Fin (inject_Z y)) ->
        y <> 0 ->
        (In track
           (getFilteredTracks toLowerCase trim Date_getTime thisYear s)
         <-> 1900 <= y <= savedYear)).
Proof.
  intros Ho Hy.
  assert (Hin : forall track,
            In track
              (getFilteredTracks toLowerCase trim Date_getTime thisYear s)
            <-> In track (tracks s)
                /\ yearWithin (FilterOptions.year
                                 (defaultFilterOptions savedYear))
                     thisYear track = true).
  { intros track. unfold getFilteredTracks, audioUtils.sortTracks.
    rewrite (applyFilters_default savedYear thisYear s Ho).
    destruct (Z.ltb_spec savedYear thisYear) as [_|]; [|lia].
    rewrite <- filter_In. split; apply Permutation_in;
      [|symmetry]; apply sort_Permutation. }
  split.
  - intros track Hnone Hi. apply Hin in Hi. destruct Hi as [_ Hw].
    unfold yearWithin in Hw. rewrite Hnone in Hw.
    cbn [defaultFilterOptions FilterOptions.year FilterOptions.min
         FilterOptions.max] in Hw.
    rewrite (leb_inject thisYear savedYear) in Hw.
    apply andb_true_iff in Hw. destruct Hw as [_ Hw].
    apply Z.leb_le in Hw. lia.
  - intros track y Ht Hyear Hy0. rewrite Hin.
    unfold yearWithin. rewrite Hyear.
    assert (Hf : JS.or_else (JS.Fin (inject_Z y))
                   (JS.Fin (inject_Z thisYear)) = JS.Fin (inject_Z y)).
    { unfold JS.or_else, JS.falsy.
      destruct (Qeq_bool (inject_Z y) 0) eqn:E; [|reflexivity].
      apply Qeq_bool_iff in E. change 0%Q with (inject_Z 0) in E.
      rewrite inject_Z_injective in E. contradiction. }
    rewrite Hf.
    cbn [defaultFilterOptions FilterOptions.year FilterOptions.min
         FilterOptions.max].
    change (JS.Fin 1900) with (JS.Fin (inject_Z 1900)).
    rewrite !leb_inject, andb_true_iff, !Z.leb_le. tauto.
Qed.

End SortAndFilter.

(** X24 on five tracks sorted by title, ascending, three of them under the
    title "Song B": the result is in order, and the three come out as they
    came in. *)
Lemma sortTracks_sorts_witness :
  (forall track,
     In track [trackC; takeOne; trackA; takeTwo; trackB] ->
     audioUtils.sortValueOf sameString noDate by_title track
     <> audioUtils.VNumber JS.NaN)
  /\ Sorted (in_order sameString noDate by_title asc)
       (audioUtils.sortTracks sameString noDate
          [trackC; takeOne; trackA; takeTwo; trackB] by_title asc)
  /\ filter (ties sameString noDate by_title takeOne)
       (audioUtils.sortTracks sameString noDate
          [trackC; takeOne; trackA; takeTwo; trackB] by_title asc)
     = [takeOne; takeTwo; trackB]
  /\ audioUtils.sortTracks sameString noDate
       [trackA; takeOne; takeTwo; trackB; trackC] by_title asc
     = [trackA; takeOne; takeTwo; trackB; trackC].
Proof.
  assert (Hnan : forall l track,
            In track l ->
            audioUtils.sortValueOf sameString noDate by_title track
            <> audioUtils.VNumber JS.NaN) by (intros; discriminate).
  destruct (sortTracks_sorts sameString noDate
              [trackC; takeOne; trackA; takeTwo; trackB] by_title asc)
    as (_ & Hrest).
  destruct (Hrest (Hnan _)) as (Hsorted & _ & Hstable & _).
  destruct (sortTracks_sorts sameString noDate
              [trackA; takeOne; takeTwo; trackB; trackC] by_title asc)
    as (_ & Hrest').
  destruct (Hrest' (Hnan _)) as (_ & Hsame & _).
  split; [exact (Hnan _)|]. split; [exact Hsorted|]. split.
  - exact (Hstable takeOne (or_intror (or_introl eq_refl))).
  - apply Hsame. repeat constructor.
Defined.

(** X26 on the sample store (options of 2024, tracks without a year), used
    in 2025. *)
Lemma getFilteredTracks_after_new_year_witness :
  filterOptions sampleStore = defaultFilterOptions 2024
  /\ 2024 < 2025
  /\ ~ In trackA
         (getFilteredTracks sameString sameString noDate 2025 sampleStore).
Proof.
  split; [reflexivity|]. split; [lia|].
  apply (getFilteredTracks_after_new_year sameString sameString noDate
           2025 2024 sampleStore eq_refl); [lia | reflexivity].
Defined.

(** ** Searching *)

Lemma includes_empty (s : string) : JS.includes s EmptyString = true.
Proof. destruct s; reflexivity. Qed.

(** X27. A search for nothing finds everything: [filterTracksBySearch]
    returns the tracks as they are when the search text is blank (empty
    once trimmed), and [searchPlaylists] returns all playlists, also those
    without a description, for a query whose lower case is the empty
    string.  Both only ever return what they were given. *)
Theorem blank_search_finds_everything (toLowerCase trim : string -> string)
  (tracks : list AudioTrack.t) (search query : string) (s : AudioStore.t) :
  trim search = EmptyString ->
  toLowerCase query = EmptyString ->
  audioUtils.filterTracksBySearch toLowerCase trim tracks search = tracks
  /\ usePlaylist.searchPlaylists toLowerCase query s = playlists s
  /\ (forall anySearch,
        incl (audioUtils.filterTracksBySearch toLowerCase trim tracks
                anySearch) tracks)
  /\ (forall anyQuery,
        incl (usePlaylist.searchPlaylists toLowerCase anyQuery s)
          (playlists s)).
Proof.
  intros Ht Hq. repeat split.
  - unfold audioUtils.filterTracksBySearch. now rewrite Ht.
  - unfold usePlaylist.searchPlaylists. rewrite Hq.
    apply filter_everything. intros p _. now rewrite includes_empty.
  - intros anySearch. apply filterTracksBySearch_incl.
  - intros anyQuery. apply incl_filter.
Qed.

(** X27 with an empty search text and query. *)
Lemma blank_search_finds_everything_witness :
  sameString EmptyString = EmptyString
  /\ usePlaylist.searchPlaylists sameString EmptyString sampleStore
     = [playlistABC]
  /\ audioUtils.filterTracksBySearch sameString sameString
       [trackA; trackB] EmptyString = [trackA; trackB].
Proof.
  destruct (blank_search_finds_everything sameString sameString
              [trackA; trackB] EmptyString EmptyString sampleStore
              eq_refl eq_refl) as (Hf & Hs & _).
  split; [reflexivity|]. split; [exact Hs | exact Hf].
Defined.

(** ** Shuffling and drawing *)

Lemma set_index_split (A : Type) (l : list A) :
  forall (i : nat) (x v : A),
    nth_error l i = Some x ->
    exists l1 l2, l = l1 ++ x :: l2 /\ JS.set_index l i v = l1 ++ v :: l2.
Proof.
  induction l as [|a l IH]; intros i x v Hx.
  - destruct i; discriminate.
  - destruct i as [|i]; simpl in Hx.
    + injection Hx as ->. exists [], l. split; reflexivity.
    + destruct (IH i x v Hx) as (l1 & l2 & -> & Hs).
      exists (a :: l1), l2. simpl. rewrite Hs. split; reflexivity.
Qed.

Lemma nth_error_set_index (A : Type) (l : list A) :
  forall (i j : nat) (v : A),
    nth_error (JS.set_index l i v) j
    = if (j =? i)%nat
      then match nth_error l i with Some _ => Some v | None => None end
      else nth_error l j.
Proof.
  induction l as [|a l IH]; intros i j v.
  - simpl. destruct (j =? i)%nat, i, j; reflexivity.
  - destruct i as [|i], j as [|j]; simpl; try reflexivity.
    apply IH.
Qed.

Lemma swap_Permutation (A : Type) (l : list A) (i j : nat) :
  Permutation (JS.swap l i j) l.
Proof.
  unfold JS.swap.
  destruct (nth_error l i) as [x|] eqn:Hi; [|reflexivity].
  destruct (nth_error l j) as [y|] eqn:Hj; [|reflexivity].
  destruct (set_index_split _ l i x y Hi) as (l1 & l2 & Hl & Hs).
  assert (Hj' : nth_error (JS.set_index l i y) j = Some y).
  { rewrite nth_error_set_index, Hi.
    destruct (j =? i)%nat; [reflexivity | exact Hj]. }
  destruct (set_index_split _ _ j y x Hj') as (l1' & l2' & Hl' & Hs').
  rewrite Hs'. rewrite Hs in Hl'.
  assert (Hrest : Permutation (l1' ++ l2') (l1 ++ l2)).
  { apply (Permutation_cons_inv (a := y)).
    rewrite !Permutation_middle, <- Hl'. reflexivity. }
  rewrite Hl, <- !Permutation_middle. now constructor.
Qed.

Lemma shuffleFrom_Permutation (A : Type) (us : nat -> Q) (i : nat) :
  forall (k : nat) (l : list A),
    Permutation (audioUtils.shuffleFrom i us k l) l.
Proof.
  induction i as [|i IH]; intros k l; simpl; [reflexivity|].
  rewrite IH. apply swap_Permutation.
Qed.

Lemma nth_error_swap_outside (A : Type) (l : list A) (i j m : nat) :
  m <> i -> m <> j -> nth_error (JS.swap l i j) m = nth_error l m.
Proof.
  intros Hi Hj. unfold JS.swap.
  destruct (nth_error l i) as [x|]; [|reflexivity].
  destruct (nth_error l j) as [y|]; [|reflexivity].
  rewrite !nth_error_set_index.
  destruct (Nat.eqb_spec m j); [contradiction|].
  destruct (Nat.eqb_spec m i); [contradiction | reflexivity].
Qed.

Lemma nth_error_swap_left (A : Type) (l : list A) (i j : nat) (x y : A) :
  nth_error l i = Some x -> nth_error l j = Some y ->
  nth_error (JS.swap l i j) i = Some y.
Proof.
  intros Hi Hj. unfold JS.swap. rewrite Hi, Hj.
  rewrite !nth_error_set_index, Hi.
  destruct (Nat.eqb_spec i j) as [<-|Hne].
  - rewrite Nat.eqb_refl. congruence.
  - now rewrite Nat.eqb_refl.
Qed.

(** The draw of one round of the shuffle is an index up to [i]. *)
Lemma shuffle_draw_range (u : Q) (i : nat) :
  (0 <= u)%Q -> (u < 1)%Q ->
  (Z.to_nat (JS.random_index u (Z.of_nat i + 1)) <= i)%nat.
Proof.
  intros H0 H1.
  pose proof (random_index_range u (Z.of_nat i + 1) H0 H1). lia.
Qed.

(** The rounds from [i] down leave the slots after [i] alone. *)
Lemma shuffleFrom_above (A : Type) (us : nat -> Q) (i : nat) :
  (forall k, (0 <= us k)%Q /\ (us k < 1)%Q) ->
  forall (k m : nat) (l : list A),
    (i < m)%nat ->
    nth_error (audioUtils.shuffleFrom i us k l) m = nth_error l m.
Proof.
  intros Hus. induction i as [|i IH]; intros k m l Hm;
    cbn [audioUtils.shuffleFrom]; [reflexivity|].
  rewrite IH by lia. apply nth_error_swap_outside; [lia|].
  destruct (Hus k) as [H0 H1].
  pose proof (shuffle_draw_range (us k) (S i) H0 H1). lia.
Qed.

(** X28. [shuffleArray] returns the elements it was given, each as often
    as it came in, and an array of at most one element as it is.  The
    first draw decides the last slot: with [n] elements, the element at
    index [floor(Math.random() * n)] ends up last. *)
Theorem shuffleArray_permutes (A : Type) (us : nat -> Q) (array : list A) :
  (forall k, (0 <= us k)%Q /\ (us k < 1)%Q) ->
  Permutation (audioUtils.shuffleArray us array) array
  /\ List.length (audioUtils.shuffleArray us array) = List.length array
  /\ ((List.length array <= 1)%nat ->
      audioUtils.shuffleArray us array = array)
  /\ ((1 < List.length array)%nat ->
      nth_error (audioUtils.shuffleArray us array) (List.length array - 1)
      = nth_error array
          (Z.to_nat (JS.random_index (us 0%nat) (JS.length array)))).
Proof.
  intros Hus. unfold audioUtils.shuffleArray.
  split; [apply shuffleFrom_Permutation|]. split; [|split].
  - apply Permutation_length, shuffleFrom_Permutation.
  - intros Hlen. replace (List.length array - 1)%nat with 0%nat by lia.
    reflexivity.
  - intros Hlen.
    destruct (List.length array - 1)%nat as [|i] eqn:E; [lia|].
    cbn [audioUtils.shuffleFrom].
    rewrite shuffleFrom_above by (auto; lia).
    replace (Z.of_nat (S i) + 1) with (JS.length array)
      by (unfold JS.length; lia).
    destruct (Hus 0%nat) as [H0 H1].
    pose proof (random_index_range (us 0%nat) (JS.length array) H0 H1)
      as Hr.
    unfold JS.length in Hr.
    set (j := Z.to_nat (JS.random_index (us 0%nat) (JS.length array))).
    assert (Hj : (j < List.length array)%nat)
      by (unfold j, JS.length; lia).
    destruct (nth_error array (S i)) as [x|] eqn:Hx;
      [|apply nth_error_None in Hx; lia].
    destruct (nth_error array j) as [y|] eqn:Hy;
      [|apply nth_error_None in Hy; lia].
    now apply (nth_error_swap_left _ array (S i) j x y).
Qed.

(** X28 on three strings, with every draw 0.5. *)
Lemma shuffleArray_permutes_witness :
  (forall k : nat, (0 <= 0.5)%Q /\ (0.5 < 1)%Q)
  /\ Permutation
       (audioUtils.shuffleArray (fun _ => 0.5%Q) ["a"; "b"; "c"]%string)
       ["a"; "b"; "c"]%string.
Proof.
  assert (H : forall k : nat, (0 <= 0.5)%Q /\ (0.5 < 1)%Q)
    by (intros _; split; lra).
  split; [exact H|].
  exact (proj1 (shuffleArray_permutes string (fun _ => 0.5%Q)
                  ["a"; "b"; "c"]%string H)).
Defined.

Lemma drawIndex_result (us : nat -> Q) (len currentIndex : Z) :
  (forall k, (0 <= us k)%Q /\ (us k < 1)%Q) -> 1 < len ->
  forall (fuel k : nat) (r : Z),
    audioUtils.drawIndex fuel us k len currentIndex = Some r ->
    0 <= r < len /\ r <> currentIndex.
Proof.
  intros Hus Hlen. induction fuel as [|fuel IH]; intros k r H; simpl in H;
    [discriminate|].
  destruct (JS.random_index (us k) len =? currentIndex) eqn:E.
  - destruct (Z.gtb_spec len 1); [|lia]. simpl in H. now apply (IH (S k)).
  - simpl in H. injection H as <-. apply Z.eqb_neq in E.
    split; [|exact E].
    destruct (Hus k). apply random_index_range; auto; lia.
Qed.

Lemma drawIndex_enough (us : nat -> Q) (len currentIndex : Z) :
  forall (n k : nat),
    JS.random_index (us (k + n)%nat) len <> currentIndex ->
    exists r,
      audioUtils.drawIndex (S n) us k len currentIndex = Some r.
Proof.
  induction n as [|n IH]; intros k Hk.
  - rewrite Nat.add_0_r in Hk. simpl.
    apply Z.eqb_neq in Hk. rewrite Hk. simpl. eauto.
  - simpl.
    destruct ((JS.random_index (us k) len =? currentIndex) && (len >? 1));
      [|eauto].
    apply (IH (S k)). now replace (S k + n)%nat with (k + S n)%nat by lia.
Qed.

(** X29. [getRandomTrackIndex]: with at most one track it returns
    [currentIndex] as it is (be it an index or not) and draws nothing.
    With more, whatever it returns is an index of the list other than
    [currentIndex]; and it does return as soon as one draw differs from
    [currentIndex]: if the draw number [n] does, [n + 1] rounds are
    enough. *)
Theorem getRandomTrackIndex_differs (fuel n : nat) (us : nat -> Q)
  (tracks : list AudioTrack.t) (currentIndex : Z) :
  (forall k, (0 <= us k)%Q /\ (us k < 1)%Q) ->
  (JS.length tracks <= 1 ->
   audioUtils.getRandomTrackIndex fuel us tracks currentIndex
   = Some currentIndex)
  /\ (1 < JS.length tracks ->
      forall r,
        audioUtils.getRandomTrackIndex fuel us tracks currentIndex = Some r ->
        0 <= r < JS.length tracks /\ r <> currentIndex)
  /\ (1 < JS.length tracks ->
      JS.random_index (us n) (JS.length tracks) <> currentIndex ->
      exists r,
        audioUtils.getRandomTrackIndex (S n) us tracks currentIndex
        = Some r).
Proof.
  intros Hus. unfold audioUtils.getRandomTrackIndex. split; [|split].
  - intros Hle. destruct (Z.leb_spec (JS.length tracks) 1); [reflexivity|lia].
  - intros Hlt r. destruct (Z.leb_spec (JS.length tracks) 1); [lia|].
    now apply drawIndex_result.
  - intros Hlt Hn. destruct (Z.leb_spec (JS.length tracks) 1); [lia|].
    now apply (drawIndex_enough us _ _ n 0%nat).
Qed.

(** X29 on the sample tracks: from index 1, a draw of 0.5 is rejected and a
    draw of 0.9 gives index 2. *)
Lemma getRandomTrackIndex_differs_witness :
  (forall k : nat,
     (0 <= (if (k =? 0)%nat then 0.5 else 0.9))%Q
     /\ ((if (k =? 0)%nat then 0.5 else 0.9) < 1)%Q)
  /\ audioUtils.getRandomTrackIndex 2
       (fun k => if (k =? 0)%nat then 0.5%Q else 0.9%Q)
       [trackA; trackB; trackC] 1 = Some 2
  /\ 2 <> 1.
Proof.
  assert (H : forall k : nat,
             (0 <= (if (k =? 0)%nat then 0.5 else 0.9))%Q
             /\ ((if (k =? 0)%nat then 0.5 else 0.9) < 1)%Q)
    by (intros k; destruct (k =? 0)%nat; split; lra).
  split; [exact H|]. split; [reflexivity|].
  destruct (getRandomTrackIndex_differs 2 1
              (fun k => if (k =? 0)%nat then 0.5%Q else 0.9%Q)
              [trackA; trackB; trackC] 1 H) as (_ & Hr & _).
  apply (Hr ltac:(vm_compute; reflexivity) 2 eq_refl).
Defined.

(** ** Updating a track *)

Lemma trackById_updateTrack_other (fresh : nat) (id id' : string)
  (updates : AudioTrack.partial) (s : AudioStore.t) :
  AudioTrack.p_id updates = None -> id' <> id ->
  trackById id' (updateTrack fresh id updates s) = trackById id' s.
Proof.
  intros Hid Hne. unfold trackById, updateTrack. simpl. revert fresh.
  induction (tracks s) as [|track l IH]; intros fresh; simpl;
    [reflexivity|].
  destruct (String.eqb (AudioTrack.id track) id) eqn:E; simpl.
  - unfold JS.over at 1. rewrite Hid. apply String.eqb_eq in E.
    destruct (String.eqb (AudioTrack.id track) id') eqn:E'.
    + apply String.eqb_eq in E'. congruence.
    + apply IH.
  - destruct (String.eqb (AudioTrack.id track) id'); [reflexivity|].
    apply IH.
Qed.

Lemma updateTrack_map_length (fresh : nat) (id : string)
  (updates : AudioTrack.partial) (l : list AudioTrack.t) :
  List.length (updateTrack_map fresh id updates l) = List.length l.
Proof.
  revert fresh. induction l as [|track l IH]; intros fresh; simpl;
    [reflexivity|].
  destruct (String.eqb (AudioTrack.id track) id); simpl; now rewrite IH.
Qed.

(** X30. After [updateTrack(id, updates)] (with updates that do not
    change the id) a lookup of [id] in the collection gives the old track
    with the updates laid over it, a lookup of any other id gives what it
    gave before, and the collection has as many tracks as before.  The
    queue and the loaded track are not touched: they keep the track objects
    as they were before the update. *)
Theorem updateTrack_lookup (fresh : nat) (id id' : string)
  (updates : AudioTrack.partial) (s : AudioStore.t) :
  AudioTrack.p_id updates = None ->
  trackById id (updateTrack fresh id updates s)
  = option_map (fun track => AudioTrack.spread fresh track updates)
      (trackById id s)
  /\ (id' <> id ->
      trackById id' (updateTrack fresh id updates s) = trackById id' s)
  /\ List.length (tracks (updateTrack fresh id updates s))
     = List.length (tracks s)
  /\ queue (updateTrack fresh id updates s) = queue s
  /\ currentTrack (updateTrack fresh id updates s) = currentTrack s.
Proof.
  intros Hid. split; [now apply trackById_updateTrack|].
  split; [now apply trackById_updateTrack_other|].
  split; [apply updateTrack_map_length|]. split; reflexivity.
Qed.

(** X30 on the loaded sample store: the play count of A is set to 5 in the
    collection, the loaded object still says 0. *)
Lemma updateTrack_lookup_witness :
  storedPlayCount "A"
    (updateTrack 50 "A" (useAudioPlayer.playCountUpdate 5) loadedStore) = 5
  /\ currentTrack
       (updateTrack 50 "A" (useAudioPlayer.playCountUpdate 5) loadedStore)
     = JS.obj trackA.
Proof.
  destruct (updateTrack_lookup 50 "A" "B" (useAudioPlayer.playCountUpdate 5)
              loadedStore eq_refl) as (Hl & _ & _ & _ & Hc).
  split; [|exact Hc].
  unfold storedPlayCount. rewrite Hl. reflexivity.
Defined.
